(** * pandas.io.external.root: brace expansion, column selection and
      the load orchestrator of [read_root]

    A shallow embedding of [src/pandas/io/external/root.py].  Python
    byte strings are lists of characters, Python integers are [Z],
    the double-precision quotient of line 125 is written out on
    integers, an exception is the [Err] branch of a result type.  What the module
    imports from elsewhere ([fnmatch], the iteration order of a [set],
    the selection expressions of the tree reader) is a section variable;
    the tree file and the tables of the reader are modelled from the
    contract the specification gives for them. *)

From Stdlib Require Import List Ascii String ZArith Lia Bool Arith Permutation.
Import ListNotations.

(* [String] shadows the list functions of the same name. *)
Abbreviation length := Datatypes.length.
Abbreviation concat := List.concat.

(** ** Strings *)

Definition str := list ascii.

Definition lit (s : string) : str := list_ascii_of_string s.

Definition str_dec : forall a b : str, {a = b} + {a <> b} :=
  list_eq_dec ascii_dec.

Fixpoint str_eqb (a b : str) : bool :=
  match a, b with
  | [], [] => true
  | x :: a', y :: b' => Ascii.eqb x y && str_eqb a' b'
  | _, _ => false
  end.

(** [x in l] on a list of strings. *)
Definition mem (x : str) (l : list str) : bool := existsb (str_eqb x) l.

(** [c in s] for a one-character [c]; [s.find(c) != -1] is the same test. *)
Definition has_char (c : ascii) (s : str) : bool := existsb (Ascii.eqb c) s.

Definition len (s : str) : Z := Z.of_nat (length s).

(** [s[:i]] and [s[i:]], a negative index counting from the end. *)
Definition slice_to (s : str) (i : Z) : str :=
  if (i <? 0)%Z then firstn (Z.to_nat (len s + i)) s else firstn (Z.to_nat i) s.

Definition slice_from (s : str) (i : Z) : str :=
  if (i <? 0)%Z then skipn (Z.to_nat (len s + i)) s else skipn (Z.to_nat i) s.

Fixpoint starts_with (p s : str) : bool :=
  match p, s with
  | [], _ => true
  | x :: p', y :: s' => Ascii.eqb x y && starts_with p' s'
  | _ :: _, [] => false
  end.

(** [s.find(sub)]: the lowest index at which [sub] occurs, [-1] if none. *)
Fixpoint find_from (sub s : str) (i : nat) : Z :=
  if starts_with sub s then Z.of_nat i
  else match s with
       | [] => (-1)%Z
       | _ :: s' => find_from sub s' (S i)
       end.

Definition find (s sub : str) : Z := find_from sub s 0.

(** [sub in s]. *)
Definition occurs_in (sub s : str) : bool := negb (find s sub =? -1)%Z.

(** [s.strip(chars)]. *)
Fixpoint lstrip (chars : str) (s : str) : str :=
  match s with
  | c :: s' => if has_char c chars then lstrip chars s' else s
  | [] => []
  end.

Definition rstrip (chars : str) (s : str) : str := rev (lstrip chars (rev s)).

Definition strip (chars : str) (s : str) : str := rstrip chars (lstrip chars s).

(** [s.split(sep)] for a one-character separator. *)
Fixpoint split (sep : ascii) (s : str) : list str :=
  match s with
  | [] => [[]]
  | c :: s' =>
      if Ascii.eqb c sep then [] :: split sep s'
      else match split sep s' with
           | h :: t => (c :: h) :: t
           | [] => [[c]]
           end
  end.

(** [sub.replace('}', '\\}')]: every closing brace gets a backslash. *)
Definition escape_close (s : str) : str :=
  flat_map (fun c => if Ascii.eqb c "}" then ["\"; "}"]%char else [c]) s.

(** [s.replace('\\}', '}')]: left to right, occurrences not overlapping. *)
Fixpoint unescape_close (s : str) : str :=
  match s with
  | c :: s' =>
      match s' with
      | d :: s'' =>
          if Ascii.eqb c "\" && Ascii.eqb d "}" then "}"%char :: unescape_close s''
          else c :: unescape_close s'
      | [] => [c]
      end
  | [] => []
  end.

(** ** The pattern [.*(\{.+?[^\\]\})] of [expand_braces]

    [p.search(s)] is written out for this one pattern, following the
    backtracking order of [re]: [.] is any character but a newline,
    [.*] is greedy, [.+?] is lazy, [[^\\]] is any character but a
    backslash (a newline included). *)

Definition is_newline (c : ascii) : bool := Ascii.eqb c "010".

(** [[^\\]\}] tried at the head of [s], the lazy [.+?] taking one more
    character each time it fails.  The result counts the characters up
    to and including the closing brace. *)
Fixpoint lazy_tail (s : str) : option nat :=
  match s with
  | c :: s' =>
      match s' with
      | d :: _ =>
          if negb (Ascii.eqb c "\") && Ascii.eqb d "}" then Some 2
          else if is_newline c then None
          else option_map S (lazy_tail s')
      | [] => None
      end
  | [] => None
  end.

(** [\{.+?[^\\]\}] anchored at the head of [s]: the length of group 1. *)
Definition group_at (s : str) : option nat :=
  match s with
  | o :: x :: s' =>
      if Ascii.eqb o "{" && negb (is_newline x)
      then option_map (fun n => 2 + n) (lazy_tail s')
      else None
  | _ => None
  end.

(** The whole pattern anchored at the head of [s]: [.*] first takes as
    much as it can and gives back one character at a time.  The result
    is the offset and the length of group 1. *)
Fixpoint match_at (s : str) : option (nat * nat) :=
  match s with
  | [] => None
  | c :: s' =>
      if is_newline c then None
      else match match_at s' with
           | Some (k, n) => Some (S k, n)
           | None => option_map (fun n => (0, n)) (group_at s)
           end
  end.

(** [p.search(s)]: the first start position at which the pattern matches. *)
Fixpoint search (s : str) : option (nat * nat) :=
  match match_at s with
  | Some m => Some m
  | None =>
      match s with
      | [] => None
      | _ :: s' => option_map (fun m => (S (fst m), snd m)) (search s')
      end
  end.

(** [m.group(1)]. *)
Definition group1 (s : str) (m : nat * nat) : str :=
  firstn (snd m) (skipn (fst m) s).

(** ** Measures of the recursion of [expand_braces] *)

Definition count_char (c : ascii) (s : str) : nat :=
  length (filter (Ascii.eqb c) s).

(** The closing braces the tail [[^\\]\}] of the pattern can match: those
    that follow a character other than a backslash.  Every group the
    pattern finds ends in one of them. *)
Fixpoint closers (s : str) : nat :=
  match s with
  | c :: s' =>
      match s' with
      | d :: _ =>
          (if negb (Ascii.eqb c "\") && Ascii.eqb d "}" then 1 else 0) + closers s'
      | [] => 0
      end
  | [] => 0
  end.

(** The positions of [s] at which the group [\{.+?[^\\]\}] of the pattern
    matches: the brace groups the pattern can find in [s]. *)
Fixpoint group_starts (s : str) : nat :=
  match s with
  | [] => 0
  | _ :: s' =>
      match group_at s with
      | Some _ => 1 + group_starts s'
      | None => group_starts s'
      end
  end.

(** A bound on the depth of the recursion on [s]. *)
Definition depth_bound (s : str) : nat :=
  count_char "{" s * S (count_char "}" s) + closers s.

(** ** Exceptions *)

Inductive Exception : Type :=
| ValueError (msg : str)
| OverflowError
| ZeroDivisionError
| CollaboratorError.

Inductive Result (A : Type) : Type :=
| Ok (a : A)
| Err (e : Exception).

Arguments Ok {A} a.
Arguments Err {A} e.

Definition bind {A B : Type} (r : Result A) (k : A -> Result B) : Result B :=
  match r with
  | Ok a => k a
  | Err e => Err e
  end.

Notation "x <- r ;; k" := (bind r (fun x => k))
  (at level 61, r at next level, right associativity).

(** The error kinds of the specification are the [ValueError]s of the
    module, told apart by their messages. *)
Definition AmbiguousTreeError (path : str) : Exception :=
  ValueError (lit "More than one tree found in " ++ path).

Definition PatternNotFoundError (p : str) : Exception :=
  ValueError (lit "Pattern '" ++ p ++ lit "' didn't match any branch").

Definition ReservedColumnError : Exception :=
  ValueError (lit "index variable is being ignored!").

(** [list.remove(x)] on a list that does not hold [x]. *)
Definition ListRemoveError : Exception :=
  ValueError (lit "list.remove(x): x not in list").

(** ** Brace expander *)

(** [s[:open_brace] + pat + s[close_brace+1:]]: [pat] put where [find]
    locates the group [sub] in [s]. *)
Definition substitute (s sub pat : str) : str :=
  let open_brace := find s sub in
  let close_brace := (open_brace + len sub - 1)%Z in
  slice_to s open_brace ++ pat ++ slice_from s (close_brace + 1).

Section BraceExpander.

(** [list(set(res))]: the distinct elements of [res], in the order the
    interpreter iterates the set, which the language leaves open. *)
Variable list_of_set : list str -> list str.

(** [expand_braces], the depth of the recursion bounded by [fuel];
    [None] when the bound is reached. *)
Fixpoint expand_braces_fuel (fuel : nat) (orig : str) : option (list str) :=
  match fuel with
  | 0 => None
  | S fuel' =>
      let s := orig in
      let res :=
        match search s with
        | Some m =>
            let sub := group1 s m in
            if has_char "," sub then
              fold_left
                (fun res pat =>
                   match res, expand_braces_fuel fuel' (substitute s sub pat) with
                   | Some res, Some r => Some (res ++ r)
                   | _, _ => None
                   end)
                (split "," (strip (lit "{}") sub))
                (Some [])
            else
              expand_braces_fuel fuel' (substitute s sub (escape_close sub))
        | None => Some [unescape_close s]
        end in
      option_map list_of_set res
  end.

(** [expand_braces]: the bound [depth_bound] is never reached
    (see [expand_braces_fuel_enough]). *)
Definition expand_braces (orig : str) : list str :=
  match expand_braces_fuel (S (depth_bound orig)) orig with
  | Some res => res
  | None => []
  end.

End BraceExpander.

(** What the language promises of [list(set(res))]: every element of
    [res] once, in some order. *)
Definition set_listing (list_of_set : list str -> list str) : Prop :=
  forall l, Permutation (list_of_set l) (nodup str_dec l).

(** ** Column selector *)

Section ColumnSelector.

(** [fnmatch(name, pattern)] of the Python standard library. *)
Variable fnmatch : str -> str -> bool.

(** The inner loop of [get_matching_variables] for one pattern [p]. *)
Fixpoint scan_branches (p : str) (branches : list str)
         (found : bool) (selected : list str) : bool * list str :=
  match branches with
  | [] => (found, selected)
  | b :: branches' =>
      let found := if fnmatch b p then true else found in
      let selected :=
        if fnmatch b p && negb (mem b selected) then selected ++ [b]
        else selected in
      scan_branches p branches' found selected
  end.

(** The outer loop, from the current [selected]. *)
Fixpoint scan_patterns (branches patterns : list str) (fail : bool)
         (selected : list str) : Result (list str) :=
  match patterns with
  | [] => Ok selected
  | p :: patterns' =>
      let '(found, selected) := scan_branches p branches false selected in
      if negb found && fail then Err (PatternNotFoundError p)
      else scan_patterns branches patterns' fail selected
  end.

Definition get_matching_variables (branches patterns : list str)
           (fail : bool) : Result (list str) :=
  scan_patterns branches patterns fail [].

(** *** The selector as the specification words it

    The columns a pattern matches, in [available_columns] order; the
    patterns in the given order; a column kept where it first appears. *)

Definition matches_of (available_columns : list str) (pattern : str) : list str :=
  filter (fun b => fnmatch b pattern) available_columns.

Fixpoint keep_first (l : list str) : list str :=
  match l with
  | [] => []
  | x :: l' => x :: filter (fun y => negb (str_eqb y x)) (keep_first l')
  end.

Definition select_spec (available_columns patterns : list str) : list str :=
  keep_first (flat_map (matches_of available_columns) patterns).

(** A pattern that matches at least one column. *)
Definition has_match (available_columns : list str) (pattern : str) : bool :=
  existsb (fun b => fnmatch b pattern) available_columns.

(** The first of the patterns that matches no column. *)
Definition first_unmatched (available_columns patterns : list str) : option str :=
  List.find (fun p => negb (has_match available_columns p)) patterns.

(** What [fnmatch] does with a pattern free of [*], [?] and [[]: the
    name has to be the pattern. *)
Definition literal_matching : Prop :=
  forall name pattern,
    has_char "*" pattern = false ->
    has_char "?" pattern = false ->
    has_char "[" pattern = false ->
    fnmatch name pattern = str_eqb name pattern.

End ColumnSelector.

(** ** The tree file and the tables *)

Definition Cell := Z.

(** One entry of a tree gives a cell for every branch. *)
Definition Entry := str -> Cell.

Record Tree : Type := {
  tree_branches : list str;
  tree_entries : list Entry
}.

(** A file: its trees under their keys, in the order the file lists them. *)
Definition RootFile := list (str * Tree).

(** A structured array: the field names and one record per row, the
    cells in the order of the names. *)
Record RecArray : Type := {
  dtype_names : list str;
  records : list (list Cell)
}.

(** A table: the designated index column, if there is one (the default
    positional index carries no data), the column names and the rows. *)
Record DataFrame : Type := {
  df_index : option (list Cell);
  df_columns : list str;
  df_values : list (list Cell)
}.

(** Modelled from the spec: the collaborator's operation (a), the tree
    keys of a file ([root_numpy.list_trees]). *)
Definition list_trees (file : RootFile) : list str := map fst file.

(** The tree under a key, the first if the key comes twice; without
    one the collaborator raises. *)
Fixpoint open_tree (file : RootFile) (tree_key : str) : Result Tree :=
  match file with
  | [] => Err CollaboratorError
  | (k, t) :: file' => if str_eqb k tree_key then Ok t else open_tree file' tree_key
  end.

(** Modelled from the spec: the collaborator's operation (b), the column
    names of a tree ([root_numpy.list_branches]); a missing tree is the
    collaborator's error. *)
Definition list_branches (file : RootFile) (tree_key : str) : Result (list str) :=
  t <- open_tree file tree_key ;; Ok (tree_branches t).

(** Modelled from the spec: the collaborator's operation (e), the total
    row count of a tree ([TFile.Get(tree_key).GetEntries()]). *)
Definition GetEntries (file : RootFile) (tree_key : str) : Result Z :=
  t <- open_tree file tree_key ;; Ok (Z.of_nat (length (tree_entries t))).

(** The rows [start:stop] of a list, with the bounds of a Python slice. *)
Definition slice_bound (n : nat) (i : Z) : nat :=
  if (i <? 0)%Z then Z.to_nat (Z.of_nat n + i) else Nat.min (Z.to_nat i) n.

Definition row_range {A : Type} (rows : list A) (start stop : option Z) : list A :=
  let n := length rows in
  let lo := match start with Some i => slice_bound n i | None => 0 end in
  let hi := match stop with Some i => slice_bound n i | None => n end in
  firstn (hi - lo) (skipn lo rows).

(** The column [name] of the records of an array with fields [names]. *)
Fixpoint field (name : str) (names : list str) (record : list Cell) : Cell :=
  match names, record with
  | n :: names', c :: record' =>
      if str_eqb n name then c else field name names' record'
  | _, _ => 0%Z
  end.

Fixpoint drop_field (name : str) (names : list str) (record : list Cell) : list Cell :=
  match names, record with
  | n :: names', c :: record' =>
      if str_eqb n name then drop_field name names' record'
      else c :: drop_field name names' record'
  | _, _ => []
  end.

(** Modelled from the spec: [DataFrame.from_records(array)], a table
    with the default positional index. *)
Definition from_records (array : RecArray) : DataFrame :=
  {| df_index := None;
     df_columns := dtype_names array;
     df_values := records array |}.

(** Modelled from the spec: [DataFrame.from_records(array, index=name)],
    the field [name] becoming the index and leaving the columns. *)
Definition from_records_index (array : RecArray) (name : str) : DataFrame :=
  {| df_index := Some (map (field name (dtype_names array)) (records array));
     df_columns := filter (fun n => negb (str_eqb n name)) (dtype_names array);
     df_values := map (drop_field name (dtype_names array)) (records array) |}.

Definition convert_to_dataframe (array : RecArray) : DataFrame :=
  if mem (lit "index") (dtype_names array)
  then from_records_index array (lit "index")
  else from_records array.


(** The rows [k*c, min((k+1)*c, N)) of a list of [N] rows. *)
Definition chunk_rows {A : Type} (rows : list A) (c k : nat) : list A :=
  firstn (Nat.min ((k + 1) * c) (length rows) - k * c) (skipn (k * c) rows).

(** ** Load orchestrator *)

(** [columns] and [ignore]: absent, one pattern, or a list of patterns. *)
Inductive PatternArg : Type :=
| NoPatterns
| OnePattern (p : str)
| Patterns (l : list str).

(** Truth value of an argument. *)
Definition truthy (a : PatternArg) : bool :=
  match a with
  | NoPatterns => false
  | OnePattern p => negb (str_eqb p [])
  | Patterns l => match l with [] => false | _ => true end
  end.

(** Truth value of [tree_key] and of [chunksize]. *)
Definition truthy_key (tree_key : option str) : bool :=
  match tree_key with
  | Some k => negb (str_eqb k [])
  | None => false
  end.

Definition truthy_int (i : option Z) : bool :=
  match i with
  | Some c => negb (c =? 0)%Z
  | None => false
  end.

(** [if isinstance(a, basestring): a = [a]]. *)
Definition as_list (a : PatternArg) : list str :=
  match a with
  | NoPatterns => []
  | OnePattern p => [p]
  | Patterns l => l
  end.

(** [range(n)]. *)
Definition range (n : Z) : list Z := map Z.of_nat (seq 0 (Z.to_nat n)).

(** The ceiling of the quotient [n / c] in exact arithmetic: what the
    specification calls ceil(N / c).  The code computes its count of
    chunks in double precision, [chunk_count] below. *)
Definition ceil_div (n c : Z) : Z := (- ((- n) / c))%Z.

(** ** Double precision

    Line 125 computes [int(ceil(float(n_entries) / chunksize))] on
    doubles: 53 significant bits, the exponent of the last bit from
    -1074 to 971, every operation rounded to the nearest double, a tie
    to the one with an even significand. *)

(** [num / den] rounded to the nearest integer, a tie to the even one
    ([den] positive). *)
Definition round_half_even (num den : Z) : Z :=
  let q := (num / den)%Z in
  let r := (num mod den)%Z in
  if (2 * r <? den)%Z then q
  else if (den <? 2 * r)%Z then (q + 1)%Z
  else if Z.even q then q else (q + 1)%Z.

(** [2^e] for [e] positive, 1 otherwise: the factor that a scaling by
    [2^e] puts on one side of a fraction, [2^(-e)] being put on the
    other one. *)
Definition pow2 (e : Z) : Z := (2 ^ Z.max e 0)%Z.

(** The double nearest to [num / den], both positive, as the pair
    [(m, e)] of value [m * 2^e]: [l] is the exponent of the leading bit
    of the quotient, [e] the one of the last of 53 bits, not below
    -1074 (the subnormal numbers). *)
Definition nearest_double (num den : Z) : Z * Z :=
  let d := (Z.log2 num - Z.log2 den)%Z in
  let l := if (den * pow2 d <=? num * pow2 (- d))%Z then d else (d - 1)%Z in
  let e := Z.max (l - 52) (-1074) in
  (round_half_even (num * pow2 (- e)) (den * pow2 e), e).

(** [float(n)] for an integer [n], and the conversion of an integer
    operand of a float operation: the nearest double, which is again an
    integer; [OverflowError] when it is beyond the largest double. *)
Definition double_of_int (n : Z) : Result Z :=
  if (Z.abs n <? 2 ^ 53)%Z then Ok n
  else
    let '(m, e) := nearest_double (Z.abs n) 1 in
    if (2 ^ 1024 <=? m * 2 ^ e)%Z then Err OverflowError
    else Ok (Z.sgn n * (m * 2 ^ e))%Z.

(** [x / y] on two doubles of integer value, [y] not zero: the quotient
    is at most [x] in absolute value, so that it does not overflow. *)
Definition double_div (x y : Z) : Z * Z :=
  if (x =? 0)%Z then (0, 0)%Z
  else
    let '(m, e) := nearest_double (Z.abs x) (Z.abs y) in
    (Z.sgn x * Z.sgn y * m, e)%Z.

(** [int(ceil(x))] on a double: exact. *)
Definition double_ceil (x : Z * Z) : Z :=
  let '(m, e) := x in
  if (0 <=? e)%Z then (m * 2 ^ e)%Z else (- ((- m) / 2 ^ (- e)))%Z.

(** [int(ceil(float(n) / c))], line 125. *)
Definition chunk_count (n c : Z) : Result Z :=
  x <- double_of_int n ;;
  y <- double_of_int c ;;
  if (y =? 0)%Z then Err ZeroDivisionError
  else Ok (double_ceil (double_div x y)).

(** [l.remove(x)]: the first occurrence goes, [ValueError] if none. *)
Fixpoint list_remove (l : list str) (x : str) : Result (list str) :=
  match l with
  | [] => Err ListRemoveError
  | y :: l' =>
      if str_eqb y x then Ok l'
      else l'' <- list_remove l' x ;; Ok (y :: l'')
  end.

(** What [read_root] returns: one table, or the generator of the chunks,
    as the list of what each step of the iteration gives. *)
Inductive Output : Type :=
| Table (df : DataFrame)
| Chunks (dfs : list (Result DataFrame)).

Section LoadOrchestrator.

Variable list_of_set : list str -> list str.
Variable fnmatch : str -> str -> bool.

(** The tree reader's evaluation of a selection expression on an entry. *)
Variable eval_where : str -> Entry -> bool.

(** Modelled from the spec: the collaborator's operation (c), the rows
    [start:stop] of a tree that pass [selection], reduced to the
    columns [branches] ([root_numpy.root2array]). *)
Definition root2array (file : RootFile) (tree_key : str) (branches : list str)
           (start stop : option Z) (selection : option str) : Result RecArray :=
  t <- open_tree file tree_key ;;
  let rows := row_range (tree_entries t) start stop in
  let rows := match selection with
              | Some w => filter (eval_where w) rows
              | None => rows
              end in
  Ok {| dtype_names := branches;
        records := map (fun e : Entry => map e branches) rows |}.

(** The table a read of the entries [rows] gives: those that pass
    [where_], reduced to the columns [all_vars]. *)
Definition table_of (all_vars : list str) (where_ : option str)
           (rows : list Entry) : DataFrame :=
  convert_to_dataframe
    {| dtype_names := all_vars;
       records := map (fun e : Entry => map e all_vars)
                      (match where_ with
                       | Some w => filter (eval_where w) rows
                       | None => rows
                       end) |}.

(** Lines 89 to 94: the tree to read. *)
Definition resolve_tree_key (file : RootFile) (path : str)
           (tree_key : option str) : Result str :=
  if negb (truthy_key tree_key) then
    let branches := list_trees file in
    if (length branches =? 1)%nat then Ok (nth 0 branches [])
    else Err (AmbiguousTreeError path)
  else Ok (match tree_key with Some k => k | None => [] end).

(** Lines 98 to 108: the columns the include patterns select. *)
Definition resolve_columns (branches : list str) (columns : PatternArg)
  : Result (list str) :=
  if negb (truthy columns) then Ok branches
  else
    let columns := as_list columns in
    let columns :=
      if mem (lit "index") branches then columns ++ [lit "index"]
      else columns in
    let columns := flat_map (expand_braces list_of_set) columns in
    get_matching_variables fnmatch branches columns true.

(** Lines 117 and 118: [for var in ignored: all_vars.remove(var)]. *)
Fixpoint remove_all (all_vars ignored : list str) : Result (list str) :=
  match ignored with
  | [] => Ok all_vars
  | var :: ignored' =>
      all_vars <- list_remove all_vars var ;; remove_all all_vars ignored'
  end.

(** Lines 110 to 118: the ignore patterns. *)
Definition apply_ignore (branches all_vars : list str) (ignore : PatternArg)
  : Result (list str) :=
  if truthy ignore then
    let ignore := as_list ignore in
    ignored <- get_matching_variables fnmatch branches ignore false ;;
    let ignored := flat_map (expand_braces list_of_set) ignored in
    if mem (lit "index") ignored then Err ReservedColumnError
    else remove_all all_vars ignored
  else Ok all_vars.

(** Lines 89 to 118: the tree and the selection [all_vars] that the
    reads of lines 120 to 131 use. *)
Definition read_selection (file : RootFile) (path : str) (tree_key : option str)
           (columns ignore : PatternArg) : Result (str * list str) :=
  tree_key <- resolve_tree_key file path tree_key ;;
  branches <- list_branches file tree_key ;;
  all_vars <- resolve_columns branches columns ;;
  all_vars <- apply_ignore branches all_vars ignore ;;
  Ok (tree_key, all_vars).

(** The generator [genchunks]: one read per chunk.  The count of the
    chunks is computed when the generator is advanced for the first
    time: an error of that computation is what this first step gives,
    and the iteration ends there. *)
Definition genchunks (file : RootFile) (tree_key : str) (all_vars : list str)
           (n_entries chunksize : Z) (where_ : option str) : list (Result DataFrame) :=
  match chunk_count n_entries chunksize with
  | Ok n_chunks =>
      map (fun chunk =>
             arr <- root2array file tree_key all_vars
                      (Some (chunk * chunksize)%Z)
                      (Some ((chunk + 1) * chunksize)%Z) where_ ;;
             Ok (convert_to_dataframe arr))
          (range n_chunks)
  | Err e => [Err e]
  end.

(** [read_root], the imports of lines 58 to 62 having succeeded; the
    arguments passed through to the reader are left out. *)
Definition read_root (file : RootFile) (path : str) (tree_key : option str)
           (columns ignore : PatternArg) (chunksize : option Z)
           (where_ : option str) : Result Output :=
  sel <- read_selection file path tree_key columns ignore ;;
  let '(tree_key, all_vars) := sel in
  if truthy_int chunksize then
    let chunksize := match chunksize with Some c => c | None => 0%Z end in
    n_entries <- GetEntries file tree_key ;;
    Ok (Chunks (genchunks file tree_key all_vars n_entries chunksize where_))
  else
    arr <- root2array file tree_key all_vars None None where_ ;;
    Ok (Table (convert_to_dataframe arr)).

End LoadOrchestrator.

(** ** Save orchestrator *)

(** The labels of the rows of a table: the index column, or the
    positions under the positional index. *)
Definition index_labels (df : DataFrame) : list Cell :=
  match df_index df with
  | Some values => values
  | None => map Z.of_nat (seq 0 (length (df_values df)))
  end.

(** Modelled from the spec: [df.to_records()], the index of the table
    saved as the field "index", before the columns. *)
Definition to_records (df : DataFrame) : RecArray :=
  {| dtype_names := lit "index" :: df_columns df;
     records := map (fun labelled => fst labelled :: snd labelled)
                    (combine (index_labels df) (df_values df)) |}.

(** The files, by their paths. *)
Definition FileSystem := str -> option RootFile.

(** The tree a structured array is written as: its fields are the
    branches, its records the entries. *)
Definition tree_of_array (arr : RecArray) : Tree :=
  {| tree_branches := dtype_names arr;
     tree_entries := map (fun record name => field name (dtype_names arr) record)
                         (records arr) |}.

Section SaveOrchestrator.

(** [array2root(arr, path, tree_key, mode=mode)] of [root_numpy], on the
    files there are. *)
Variable array2root :
  RecArray -> str -> str -> str -> FileSystem -> Result FileSystem.

(** [to_root], the import of lines 165 to 168 having succeeded; the
    arguments passed through to the writer are left out. *)
Definition to_root (df : DataFrame) (path : str) (tree_key : str) (mode : str)
           (fs : FileSystem) : Result FileSystem :=
  mode <- (if str_eqb mode (lit "a") then Ok (lit "update")
           else if str_eqb mode (lit "w") then Ok (lit "recreate")
           else Err (ValueError
                       (lit "Unknown mode: " ++ mode ++ lit ". Must be "
                        ++ ["034"%char] ++ lit "a" ++ ["034"%char] ++ lit " or "
                        ++ ["034"%char] ++ lit "w" ++ ["034"%char] ++ lit "."))) ;;
  let arr := to_records df in
  array2root arr path tree_key mode fs.

(** Modelled from the spec: the writer under the mode "recreate" makes
    the file at [path] anew, with the one tree of the array under
    [tree_key]; the other files stay. *)
Definition recreates : Prop :=
  forall arr path tree_key fs,
    array2root arr path tree_key (lit "recreate") fs =
    Ok (fun p => if str_eqb p path then Some [(tree_key, tree_of_array arr)]
                 else fs p).

End SaveOrchestrator.

(** A table as [pandas] builds it: distinct column names, none of them
    "index", every row as wide as the columns, a label for every row. *)
Definition well_formed (df : DataFrame) : Prop :=
  NoDup (df_columns df) /\
  ~ In (lit "index") (df_columns df) /\
  Forall (fun row => length row = length (df_columns df)) (df_values df) /\
  length (index_labels df) = length (df_values df).

(** ** Words for the statements about the brace expander *)

(** [sep.join(l)]. *)
Fixpoint join (sep : ascii) (l : list str) : str :=
  match l with
  | [] => []
  | [x] => x
  | x :: l' => x ++ sep :: join sep l'
  end.

(** A string without brace, comma, backslash or newline. *)
Definition plain (s : str) : bool :=
  forallb (fun c => negb (has_char c (["{"; "}"; ","; "\"; "010"]%char))) s.

(** ** Instances of the section variables

    A set order, a matcher and a selection evaluator to run the
    definitions on concrete inputs. *)

(** The distinct elements in the order [nodup] leaves them. *)
Definition set_order : list str -> list str := nodup str_dec.

(** A shell matcher for [*], [?] and literal characters. *)
Fixpoint glob (pattern name : str) : bool :=
  match pattern with
  | [] => match name with [] => true | _ => false end
  | c :: pattern' =>
      if Ascii.eqb c "*" then
        (fix star (n : str) : bool :=
           glob pattern' n || match n with [] => false | _ :: n' => star n' end) name
      else
        match name with
        | [] => false
        | x :: name' => (Ascii.eqb c "?" || Ascii.eqb c x) && glob pattern' name'
        end
  end.

Definition glob_fnmatch (name pattern : str) : bool := glob pattern name.

(** Every entry passes. *)
Definition any_entry (w : str) (e : Entry) : bool := true.

(** A writer that makes the file anew whatever the mode, and the file
    system without files. *)
Definition overwrite (arr : RecArray) (path tree_key mode : str)
           (fs : FileSystem) : Result FileSystem :=
  Ok (fun p => if str_eqb p path then Some [(tree_key, tree_of_array arr)]
               else fs p).

Definition no_files : FileSystem := fun _ => None.

(** A tree of [n] entries, entry [i] holding [i] in every branch, and a
    file holding the trees of the given keys. *)
Definition example_tree (branches : list str) (n : nat) : Tree :=
  {| tree_branches := branches;
     tree_entries := map (fun i (_ : str) => Z.of_nat i) (seq 0 n) |}.

Definition example_file (keys : list str) (branches : list str) (n : nat)
  : RootFile :=
  map (fun k => (k, example_tree branches n)) keys.

(** * Proofs *)

(* A lemma of a section depends on the variables of its statement only. *)
Set Default Proof Using "Type".

(** ** Strings *)

Lemma str_eqb_eq : forall a b, str_eqb a b = true <-> a = b.
Proof.
  induction a as [|x a IH]; destruct b as [|y b]; simpl; split; intro H;
    try reflexivity; try discriminate.
  - apply andb_true_iff in H. destruct H as [Hx Hb].
    apply Ascii.eqb_eq in Hx. apply IH in Hb. congruence.
  - injection H as -> ->. rewrite Ascii.eqb_refl. simpl. now apply IH.
Qed.

Lemma str_eqb_refl : forall a, str_eqb a a = true.
Proof. intro a. now apply str_eqb_eq. Qed.

Lemma str_eqb_neq : forall a b, str_eqb a b = false <-> a <> b.
Proof.
  intros a b. split.
  - intros H E. apply str_eqb_eq in E. congruence.
  - intro N. destruct (str_eqb a b) eqn:E; [|reflexivity].
    apply str_eqb_eq in E. contradiction.
Qed.

Lemma str_eqb_sym : forall a b, str_eqb a b = str_eqb b a.
Proof.
  intros a b. destruct (str_eqb a b) eqn:E.
  - apply str_eqb_eq in E. subst. symmetry. apply str_eqb_refl.
  - apply str_eqb_neq in E. symmetry. apply str_eqb_neq. congruence.
Qed.

Lemma mem_In : forall x l, mem x l = true <-> In x l.
Proof.
  intros x l. unfold mem. rewrite existsb_exists. split.
  - intros [y [Hy E]]. apply str_eqb_eq in E. now subst.
  - intro H. exists x. split; [assumption | apply str_eqb_refl].
Qed.

Lemma mem_not_In : forall x l, mem x l = false <-> ~ In x l.
Proof.
  intros x l. rewrite <- mem_In. destruct (mem x l); split; congruence.
Qed.

Lemma mem_app : forall x l1 l2, mem x (l1 ++ l2) = mem x l1 || mem x l2.
Proof. intros. unfold mem. apply existsb_app. Qed.

Lemma firstn_length_app : forall (A : Type) (l l' : list A),
    firstn (length l) (l ++ l') = l.
Proof. induction l; simpl; intros; [reflexivity | now rewrite IHl]. Qed.

Lemma skipn_length_app : forall (A : Type) (l l' : list A),
    skipn (length l) (l ++ l') = l'.
Proof. induction l; simpl; intros; [reflexivity | now rewrite IHl]. Qed.

Lemma slice_to_prefix : forall pre rest,
    slice_to (pre ++ rest) (Z.of_nat (length pre)) = pre.
Proof.
  intros. unfold slice_to.
  destruct (Z.ltb_spec (Z.of_nat (length pre)) 0) as [H|H]; [lia|].
  rewrite Nat2Z.id. apply firstn_length_app.
Qed.

Lemma slice_from_suffix : forall pre sub post,
    slice_from (pre ++ sub ++ post)
               (Z.of_nat (length pre) + len sub - 1 + 1) = post.
Proof.
  intros. unfold slice_from, len.
  destruct (Z.ltb_spec (Z.of_nat (length pre) + Z.of_nat (length sub) - 1 + 1) 0)
    as [H|H]; [lia|].
  replace (Z.of_nat (length pre) + Z.of_nat (length sub) - 1 + 1)%Z
    with (Z.of_nat (length (pre ++ sub))) by (rewrite length_app; lia).
  rewrite Nat2Z.id, app_assoc. apply skipn_length_app.
Qed.

Lemma starts_with_prefix : forall p s,
    starts_with p s = true <-> exists t, s = p ++ t.
Proof.
  induction p as [|x p IH]; intros s; simpl.
  - split; [intros _; now exists s | reflexivity].
  - destruct s as [|y s].
    + split; [discriminate | intros [t H]; discriminate].
    + rewrite andb_true_iff, Ascii.eqb_eq, IH. split.
      * intros [-> [t ->]]. now exists t.
      * intros [t H]. injection H as -> ->. split; [reflexivity | now exists t].
Qed.

(** [find] returns an index at which the substring does occur. *)
Lemma find_from_occurrence : forall sub s i,
    (exists pre post, s = pre ++ sub ++ post) ->
    exists pre post, s = pre ++ sub ++ post /\
                     find_from sub s i = Z.of_nat (i + length pre).
Proof.
  intros sub s. induction s as [|a s IH]; intros i [pre [post E]].
  - destruct pre; [|discriminate]. simpl in E.
    exists [], post. split; [assumption|].
    simpl. assert (S1 : starts_with sub [] = true)
      by (apply starts_with_prefix; now exists post).
    rewrite S1. f_equal. simpl. lia.
  - simpl. destruct (starts_with sub (a :: s)) eqn:S1.
    + apply starts_with_prefix in S1. destruct S1 as [t Ht].
      exists [], t. split; [assumption | f_equal; simpl; lia].
    + destruct pre as [|b pre].
      * exfalso. assert (starts_with sub (a :: s) = true)
          by (apply starts_with_prefix; now exists post). congruence.
      * injection E as -> E.
        destruct (IH (S i) (ex_intro _ pre (ex_intro _ post E)))
          as [pre' [post' [E' F]]].
        exists (b :: pre'), post'. split; [now rewrite E' at 1|].
        rewrite F. f_equal. simpl. lia.
Qed.

Lemma find_occurrence : forall s sub,
    (exists pre post, s = pre ++ sub ++ post) ->
    exists pre post, s = pre ++ sub ++ post /\
                     find s sub = Z.of_nat (length pre).
Proof.
  intros s sub H. destruct (find_from_occurrence sub s 0 H) as [pre [post [E F]]].
  exists pre, post. split; [assumption | exact F].
Qed.

(** ** The pattern *)

Lemma lazy_tail_shape : forall s n,
    lazy_tail s = Some n ->
    exists mid c post,
      s = mid ++ c :: "}"%char :: post /\ n = length mid + 2 /\ c <> "\"%char.
Proof.
  induction s as [|c s IH]; intros n H; simpl in H; [discriminate|].
  destruct s as [|d s']; [discriminate|].
  destruct (negb (Ascii.eqb c "\") && Ascii.eqb d "}") eqn:T.
  - injection H as <-. apply andb_true_iff in T. destruct T as [Tc Td].
    apply negb_true_iff, Ascii.eqb_neq in Tc. apply Ascii.eqb_eq in Td. subst d.
    exists [], c, s'. repeat split; assumption.
  - destruct (is_newline c); [discriminate|].
    destruct (lazy_tail (d :: s')) as [n'|] eqn:L; [|discriminate].
    injection H as <-.
    destruct (IH n' eq_refl) as [mid [c' [post [E [N C]]]]].
    exists (c :: mid), c', post. simpl. rewrite E.
    repeat split; [lia | assumption].
Qed.

Lemma group_at_shape : forall s n,
    group_at s = Some n ->
    exists mid c post,
      s = ("{"%char :: mid ++ [c; "}"%char]) ++ post /\
      n = length ("{"%char :: mid ++ [c; "}"%char]) /\ c <> "\"%char.
Proof.
  intros s n H. unfold group_at in H.
  destruct s as [|o [|x s']]; try discriminate.
  destruct (Ascii.eqb o "{" && negb (is_newline x)) eqn:T; [|discriminate].
  apply andb_true_iff in T. destruct T as [To _]. apply Ascii.eqb_eq in To. subst o.
  destruct (lazy_tail s') as [n'|] eqn:L; [|discriminate].
  injection H as <-.
  destruct (lazy_tail_shape _ _ L) as [mid [c [post [E [N C]]]]].
  exists (x :: mid), c, post. subst s'. repeat split.
  - simpl. now rewrite <- app_assoc.
  - simpl. rewrite length_app. simpl. lia.
  - assumption.
Qed.

Lemma match_at_group : forall s k n,
    match_at s = Some (k, n) ->
    exists pre rest, s = pre ++ rest /\ length pre = k /\ group_at rest = Some n.
Proof.
  induction s as [|c s IH]; intros k n H; cbn [match_at] in H; [discriminate|].
  destruct (is_newline c); [discriminate|].
  destruct (match_at s) as [[k' n']|] eqn:M.
  - injection H as <- <-.
    destruct (IH k' n' eq_refl) as [pre [rest [E [L G]]]].
    exists (c :: pre), rest. simpl. now rewrite E, L.
  - destruct (group_at (c :: s)) as [n'|] eqn:G; [|discriminate].
    injection H as <- <-. now exists [], (c :: s).
Qed.

Lemma search_group : forall s k n,
    search s = Some (k, n) ->
    exists pre rest, s = pre ++ rest /\ length pre = k /\ group_at rest = Some n.
Proof.
  induction s as [|c s IH]; intros k n H.
  - simpl in H. discriminate.
  - cbn [search] in H. destruct (match_at (c :: s)) as [m|] eqn:M.
    + injection H as ->. now apply match_at_group.
    + destruct (search s) as [[k' n']|] eqn:Sr; [|discriminate].
      injection H as <- <-.
      destruct (IH k' n' eq_refl) as [pre [rest [E [L G]]]].
      exists (c :: pre), rest. simpl. now rewrite E, L.
Qed.

(** What one step of [expand_braces] works on: the group, as the pattern
    captured it, and the place [find] gives for it. *)
Lemma search_step : forall s m,
    search s = Some m ->
    exists pre mid c post,
      c <> "\"%char /\
      group1 s m = "{"%char :: mid ++ [c; "}"%char] /\
      s = pre ++ group1 s m ++ post /\
      forall pat, substitute s (group1 s m) pat = pre ++ pat ++ post.
Proof.
  intros s [k n] H.
  destruct (search_group _ _ _ H) as [pre0 [rest [E [L G]]]].
  destruct (group_at_shape _ _ G) as [mid [c [post0 [Er [N C]]]]].
  assert (G1 : group1 s (k, n) = "{"%char :: mid ++ [c; "}"%char]).
  { unfold group1. simpl fst. simpl snd. rewrite E, <- L, skipn_length_app.
    rewrite Er, N. apply firstn_length_app. }
  assert (O : exists pre post, s = pre ++ group1 s (k, n) ++ post).
  { exists pre0, post0. rewrite G1, E, Er. reflexivity. }
  destruct (find_occurrence _ _ O) as [pre [post [Es F]]].
  exists pre, mid, c, post. repeat split; try assumption.
  intro pat. unfold substitute. rewrite F. f_equal; [|f_equal].
  - rewrite Es at 1. apply slice_to_prefix.
  - rewrite Es at 1. apply slice_from_suffix.
Qed.

(** ** The measures *)

Lemma count_char_app : forall c a b,
    count_char c (a ++ b) = count_char c a + count_char c b.
Proof. intros. unfold count_char. now rewrite filter_app, length_app. Qed.

Lemma count_char_cons : forall c x s,
    count_char c (x :: s) = (if Ascii.eqb c x then 1 else 0) + count_char c s.
Proof. intros. unfold count_char. simpl. now destruct (Ascii.eqb c x). Qed.

Lemma count_char_rev : forall c s, count_char c (rev s) = count_char c s.
Proof.
  intros c s. induction s as [|x s IH]; [reflexivity|].
  simpl rev. rewrite count_char_app, IH, !count_char_cons.
  unfold count_char at 2. simpl. lia.
Qed.

Lemma lstrip_smaller : forall chars c s,
    count_char c (lstrip chars s) <= count_char c s /\
    length (lstrip chars s) <= length s.
Proof.
  intros chars c s. induction s as [|x s [IH1 IH2]]; simpl; [split; lia|].
  destruct (has_char x chars).
  - rewrite count_char_cons. simpl. split; lia.
  - split; [reflexivity | simpl; lia].
Qed.

Lemma rstrip_smaller : forall chars c s,
    count_char c (rstrip chars s) <= count_char c s /\
    length (rstrip chars s) <= length s.
Proof.
  intros chars c s. unfold rstrip. rewrite count_char_rev, length_rev.
  destruct (lstrip_smaller chars c (rev s)) as [H1 H2].
  rewrite count_char_rev in H1. rewrite length_rev in H2. split; assumption.
Qed.

Lemma strip_smaller : forall chars c s,
    count_char c (strip chars s) <= count_char c s /\
    length (strip chars s) <= length s.
Proof.
  intros chars c s. unfold strip.
  destruct (rstrip_smaller chars c (lstrip chars s)).
  destruct (lstrip_smaller chars c s). split; lia.
Qed.

Lemma split_piece_smaller : forall sep c s pat,
    In pat (split sep s) ->
    count_char c pat <= count_char c s /\ length pat <= length s.
Proof.
  intros sep c s. induction s as [|x s IH]; intros pat H; simpl in H.
  - destruct H as [<-|[]]. split; reflexivity.
  - rewrite count_char_cons. destruct (Ascii.eqb x sep).
    + destruct H as [<-|H]; [simpl; split; [unfold count_char; simpl|]; lia|].
      destruct (IH _ H). simpl. split; lia.
    + destruct (split sep s) as [|h t] eqn:E.
      * destruct H as [<-|[]]. rewrite count_char_cons.
        unfold count_char at 1. simpl. split; lia.
      * destruct H as [<-|H].
        -- destruct (IH h (or_introl eq_refl)). rewrite count_char_cons.
           simpl. split; lia.
        -- destruct (IH pat (or_intror H)). simpl. split; lia.
Qed.

(** The alternatives of a group lose its opening brace. *)
Lemma alternative_smaller : forall rest pat,
    In pat (split "," (strip (lit "{}") ("{"%char :: rest))) ->
    count_char "{" pat < count_char "{" ("{"%char :: rest) /\
    count_char "}" pat <= count_char "}" ("{"%char :: rest) /\
    length pat < length ("{"%char :: rest).
Proof.
  intros rest pat H.
  assert (E : strip (lit "{}") ("{"%char :: rest) = strip (lit "{}") rest)
    by reflexivity.
  rewrite E in H.
  destruct (split_piece_smaller "," "{" _ _ H) as [A1 A2].
  destruct (split_piece_smaller "," "}" _ _ H) as [B1 _].
  destruct (strip_smaller (lit "{}") "{" rest) as [C1 C2].
  destruct (strip_smaller (lit "{}") "}" rest) as [D1 _].
  rewrite !count_char_cons. simpl. repeat split; lia.
Qed.

Lemma closers_le_count_tl : forall s, closers s <= count_char "}" (tl s).
Proof.
  induction s as [|c s IH]; [apply Nat.le_0_l|].
  destruct s as [|d s']; [apply Nat.le_0_l|].
  cbn [closers tl] in *. rewrite count_char_cons.
  destruct (Ascii.eqb_spec "}"%char d) as [<-|N].
  - destruct (negb (Ascii.eqb c "\") && Ascii.eqb "}" "}"); lia.
  - apply not_eq_sym, Ascii.eqb_neq in N. rewrite N, andb_false_r. lia.
Qed.

Lemma closers_le_count : forall s, closers s <= count_char "}" s.
Proof.
  intros [|c s]; [apply Nat.le_0_l|].
  pose proof (closers_le_count_tl (c :: s)) as H. cbn [tl] in H.
  rewrite count_char_cons. lia.
Qed.

Lemma closers_split : forall a c b,
    closers (a ++ c :: b) = closers (a ++ [c]) + closers (c :: b).
Proof.
  induction a as [|x a IH]; intros c b.
  - reflexivity.
  - destruct a as [|y a].
    + cbn [app closers]. lia.
    + specialize (IH c b). cbn [app closers] in *. lia.
Qed.

Lemma closers_sandwich : forall pre a mid b post,
    closers (pre ++ (a :: mid ++ [b]) ++ post) =
    closers (pre ++ [a]) + closers (a :: mid ++ [b]) + closers (b :: post).
Proof.
  intros. cbn [app]. rewrite (closers_split pre a).
  replace (a :: (mid ++ [b]) ++ post) with ((a :: mid) ++ b :: post)
    by (cbn [app]; now rewrite <- app_assoc).
  rewrite (closers_split (a :: mid) b post). cbn [app]. lia.
Qed.

Lemma escape_close_app : forall a b,
    escape_close (a ++ b) = escape_close a ++ escape_close b.
Proof. intros. unfold escape_close. apply flat_map_app. Qed.

Lemma escape_close_cons : forall c s,
    escape_close (c :: s) =
    (if Ascii.eqb c "}" then ["\"; "}"]%char else [c]) ++ escape_close s.
Proof. reflexivity. Qed.

Lemma escape_close_head : forall s,
    match escape_close s with
    | d :: _ => Ascii.eqb d "}" = false
    | [] => True
    end.
Proof.
  intros [|c s]; [exact I|]. rewrite escape_close_cons.
  destruct (Ascii.eqb c "}") eqn:E; [reflexivity | exact E].
Qed.

(** After the escape no closing brace can end a group. *)
Lemma closers_escape_close : forall s, closers (escape_close s) = 0.
Proof.
  induction s as [|c s IH]; [reflexivity|].
  rewrite escape_close_cons. pose proof (escape_close_head s) as Hd.
  destruct (escape_close s) as [|d e] eqn:E.
  - destruct (Ascii.eqb c "}"); reflexivity.
  - destruct (Ascii.eqb c "}") eqn:Ec; cbn [app closers] in *.
    + rewrite Hd. simpl. exact IH.
    + rewrite Hd, andb_false_r. simpl. exact IH.
Qed.

Lemma count_char_escape_close : forall c s,
    c <> "\"%char -> count_char c (escape_close s) = count_char c s.
Proof.
  intros c s N. induction s as [|x s IH]; [reflexivity|].
  rewrite escape_close_cons, count_char_app, IH, count_char_cons.
  f_equal. destruct (Ascii.eqb x "}") eqn:E.
  - apply Ascii.eqb_eq in E. subst x. rewrite !count_char_cons.
    apply Ascii.eqb_neq in N. rewrite N. unfold count_char. simpl. lia.
  - rewrite count_char_cons. unfold count_char. simpl. lia.
Qed.

(** The two recursive calls of [expand_braces], on a string [s] that
    holds the group [sub] between [pre] and [post]. *)
Lemma alternative_decreases : forall pre rest post pat,
    In pat (split "," (strip (lit "{}") ("{"%char :: rest))) ->
    length (pre ++ pat ++ post) < length (pre ++ ("{"%char :: rest) ++ post) /\
    depth_bound (pre ++ pat ++ post) <
    depth_bound (pre ++ ("{"%char :: rest) ++ post).
Proof.
  intros pre rest post pat H.
  destruct (alternative_smaller _ _ H) as [A [B C]].
  split.
  - rewrite !length_app. lia.
  - unfold depth_bound.
    pose proof (closers_le_count (pre ++ pat ++ post)) as K.
    rewrite !count_char_app in *.
    set (o := count_char "{" pre + (count_char "{" pat + count_char "{" post)) in *.
    set (o' := count_char "{" pre +
               (count_char "{" ("{"%char :: rest) + count_char "{" post)) in *.
    set (k := count_char "}" pre + (count_char "}" pat + count_char "}" post)) in *.
    set (k' := count_char "}" pre +
               (count_char "}" ("{"%char :: rest) + count_char "}" post)) in *.
    assert (Ho : S o <= o') by (unfold o, o'; lia).
    assert (Hk : k <= k') by (unfold k, k'; lia).
    assert (M1 : o * S k <= o * S k') by (apply Nat.mul_le_mono_l; lia).
    assert (M2 : S o * S k' <= o' * S k') by (apply Nat.mul_le_mono_r; lia).
    simpl in M2. lia.
Qed.

Lemma escape_decreases : forall pre mid c post,
    c <> "\"%char ->
    let sub := "{"%char :: mid ++ [c; "}"%char] in
    closers (pre ++ escape_close sub ++ post) < closers (pre ++ sub ++ post) /\
    depth_bound (pre ++ escape_close sub ++ post) < depth_bound (pre ++ sub ++ post).
Proof.
  intros pre mid c post N sub.
  assert (E : escape_close sub =
              "{"%char :: (escape_close (mid ++ [c]) ++ ["\"%char]) ++ ["}"%char]).
  { unfold sub. rewrite escape_close_cons. simpl app at 1.
    replace (mid ++ [c; "}"%char]) with ((mid ++ [c]) ++ ["}"%char])
      by now rewrite <- app_assoc.
    rewrite escape_close_app. simpl. now rewrite <- app_assoc. }
  assert (S1 : sub = "{"%char :: (mid ++ [c]) ++ ["}"%char])
    by (unfold sub; now rewrite <- app_assoc).
  assert (L : closers (pre ++ escape_close sub ++ post) <
              closers (pre ++ sub ++ post)).
  { rewrite E. rewrite S1. rewrite !closers_sandwich.
    rewrite <- E, <- S1, closers_escape_close.
    assert (1 <= closers sub).
    { unfold sub. replace ("{"%char :: mid ++ [c; "}"%char])
        with (("{"%char :: mid) ++ c :: ["}"%char]) by reflexivity.
      rewrite (closers_split ("{"%char :: mid) c). cbn [closers].
      apply Ascii.eqb_neq in N. rewrite N. simpl. lia. }
    lia. }
  split; [exact L|].
  unfold depth_bound. rewrite !count_char_app.
  rewrite !count_char_escape_close by discriminate. lia.
Qed.

(** ** The recursion of [expand_braces] *)

Section BraceExpanderFacts.

Variable list_of_set : list str -> list str.

Lemma fold_alternatives :
  forall (f : str -> option (list str)) (g : str -> list str) pats acc,
    (forall pat, In pat pats -> f pat = Some (g pat)) ->
    fold_left
      (fun res pat =>
         match res, f pat with
         | Some res, Some r => Some (res ++ r)
         | _, _ => None
         end) pats (Some acc)
    = Some (acc ++ flat_map g pats).
Proof.
  intros f g pats. induction pats as [|p pats IH]; intros acc H; simpl.
  - now rewrite app_nil_r.
  - rewrite (H p (or_introl eq_refl)).
    rewrite IH by (intros; apply H; now right).
    now rewrite <- app_assoc.
Qed.

Lemma substitute_alternative_bound : forall s m pat,
    search s = Some m ->
    In pat (split "," (strip (lit "{}") (group1 s m))) ->
    length (substitute s (group1 s m) pat) < length s /\
    depth_bound (substitute s (group1 s m) pat) < depth_bound s.
Proof.
  intros s m pat Hs Hp.
  destruct (search_step s m Hs) as [pre [mid [c [post [N [G [E P]]]]]]].
  rewrite P. clear P.
  remember (group1 s m) as sub eqn:Hsub. clear Hsub Hs. subst sub s.
  now apply alternative_decreases.
Qed.

Lemma substitute_escape_bound : forall s m,
    search s = Some m ->
    closers (substitute s (group1 s m) (escape_close (group1 s m))) < closers s /\
    depth_bound (substitute s (group1 s m) (escape_close (group1 s m))) < depth_bound s.
Proof.
  intros s m Hs.
  destruct (search_step s m Hs) as [pre [mid [c [post [N [G [E P]]]]]]].
  rewrite P. clear P.
  remember (group1 s m) as sub eqn:Hsub. clear Hsub Hs. subst sub s.
  now apply escape_decreases.
Qed.

(** Above [depth_bound] the fuel does not matter. *)
Lemma expand_braces_fuel_agree : forall n s fuel,
    depth_bound s < n -> depth_bound s < fuel ->
    exists res, expand_braces_fuel list_of_set n s = Some res /\
                expand_braces_fuel list_of_set fuel s = Some res.
Proof.
  induction n as [|n IH]; intros s fuel Hn Hf; [lia|].
  destruct fuel as [|fuel]; [lia|].
  cbn [expand_braces_fuel]. destruct (search s) as [m|] eqn:Hs.
  - destruct (has_char "," (group1 s m)).
    + set (g := fun pat =>
                  match expand_braces_fuel list_of_set n (substitute s (group1 s m) pat) with
                  | Some r => r
                  | None => []
                  end).
      assert (A : forall pat,
                 In pat (split "," (strip (lit "{}") (group1 s m))) ->
                 expand_braces_fuel list_of_set n (substitute s (group1 s m) pat)
                 = Some (g pat) /\
                 expand_braces_fuel list_of_set fuel (substitute s (group1 s m) pat)
                 = Some (g pat)).
      { intros pat Hp.
        destruct (substitute_alternative_bound s m pat Hs Hp) as [_ B].
        destruct (IH (substitute s (group1 s m) pat) fuel) as [r [R1 R2]]; try lia.
        unfold g. rewrite R1. split; [reflexivity | exact R2]. }
      exists (list_of_set ([] ++ flat_map g (split "," (strip (lit "{}") (group1 s m))))).
      split.
        rewrite (fold_alternatives
                   (fun pat => expand_braces_fuel list_of_set n (substitute s (group1 s m) pat)) g)
          by (intros pat Hp; apply A; exact Hp).
        reflexivity.
      * rewrite (fold_alternatives
                   (fun pat => expand_braces_fuel list_of_set fuel (substitute s (group1 s m) pat)) g)
          by (intros pat Hp; apply A; exact Hp).
        reflexivity.
    + destruct (substitute_escape_bound s m Hs) as [_ B].
      destruct (IH (substitute s (group1 s m) (escape_close (group1 s m))) fuel)
        as [r [R1 R2]]; try lia.
      exists (list_of_set r).
      rewrite R1, R2. split; reflexivity.
  - exists (list_of_set [unescape_close s]). split; reflexivity.
Qed.

Lemma expand_braces_fuel_enough : forall fuel s,
    depth_bound s < fuel ->
    expand_braces_fuel list_of_set fuel s = Some (expand_braces list_of_set s).
Proof.
  intros fuel s H. unfold expand_braces.
  destruct (expand_braces_fuel_agree (S (depth_bound s)) s fuel)
    as [r [R1 R2]]; try lia.
  now rewrite R1, R2.
Qed.

(** [expand_braces] as the source defines it, by its own recursion. *)
Lemma expand_braces_eq : forall s,
    expand_braces list_of_set s =
    list_of_set
      match search s with
      | Some m =>
          if has_char "," (group1 s m) then
            flat_map (fun pat => expand_braces list_of_set (substitute s (group1 s m) pat))
                     (split "," (strip (lit "{}") (group1 s m)))
          else expand_braces list_of_set
                 (substitute s (group1 s m) (escape_close (group1 s m)))
      | None => [unescape_close s]
      end.
Proof.
  intros s. unfold expand_braces at 1. cbn [expand_braces_fuel].
  destruct (search s) as [m|] eqn:Hs; [|reflexivity].
  destruct (has_char "," (group1 s m)).
  -       rewrite (fold_alternatives
               (fun pat => expand_braces_fuel list_of_set (depth_bound s)
                                              (substitute s (group1 s m) pat))
               (fun pat => expand_braces list_of_set (substitute s (group1 s m) pat))).
    + reflexivity.
    + intros pat Hp. apply expand_braces_fuel_enough.
      now apply substitute_alternative_bound.
  -       rewrite expand_braces_fuel_enough; [reflexivity|].
    now apply substitute_escape_bound.
Qed.

End BraceExpanderFacts.

(** ** The order of a set does not reach the elements *)

Lemma set_listing_set_order : set_listing set_order.
Proof. intro l. apply Permutation_refl. Qed.

Lemma set_listing_In : forall list_of_set l x,
    set_listing list_of_set -> (In x (list_of_set l) <-> In x l).
Proof.
  intros los l x H. split; intro K.
  - apply (nodup_In str_dec). eapply Permutation_in; [apply H | exact K].
  - eapply Permutation_in; [apply Permutation_sym, H|].
    now apply (nodup_In str_dec).
Qed.

Lemma set_listing_NoDup : forall list_of_set l,
    set_listing list_of_set -> NoDup (list_of_set l).
Proof.
  intros los l H. eapply Permutation_NoDup; [apply Permutation_sym, H|].
  apply NoDup_nodup.
Qed.

Lemma set_listing_singleton : forall list_of_set x,
    set_listing list_of_set -> list_of_set [x] = [x].
Proof.
  intros los x H. apply Permutation_length_1_inv, Permutation_sym.
  exact (H [x]).
Qed.

Lemma expand_braces_NoDup : forall list_of_set s,
    set_listing list_of_set -> NoDup (expand_braces list_of_set s).
Proof.
  intros los s H. rewrite expand_braces_eq. now apply set_listing_NoDup.
Qed.

Lemma expand_braces_elements_bounded : forall los1 los2,
    set_listing los1 -> set_listing los2 ->
    forall n s x, depth_bound s < n ->
                  (In x (expand_braces los1 s) <-> In x (expand_braces los2 s)).
Proof.
  intros los1 los2 H1 H2. induction n as [|n IH]; intros s x Hn; [lia|].
  rewrite (expand_braces_eq los1), (expand_braces_eq los2).
  rewrite !set_listing_In by assumption.
  destruct (search s) as [m|] eqn:Hs; [|reflexivity].
  destruct (has_char "," (group1 s m)).
  - rewrite !in_flat_map. split; intros [pat [Hp Hx]]; exists pat;
      (split; [exact Hp|]);
      destruct (substitute_alternative_bound s m pat Hs Hp) as [_ B];
      apply (IH (substitute s (group1 s m) pat) x); try lia; exact Hx.
  - destruct (substitute_escape_bound s m Hs) as [_ B]. apply IH. lia.
Qed.

(** Two iteration orders give the same strings. *)
Lemma expand_braces_order : forall los1 los2 s,
    set_listing los1 -> set_listing los2 ->
    Permutation (expand_braces los1 s) (expand_braces los2 s).
Proof.
  intros los1 los2 s H1 H2. apply NoDup_Permutation.
  - now apply expand_braces_NoDup.
  - now apply expand_braces_NoDup.
  - intro x. apply (expand_braces_elements_bounded los1 los2 H1 H2
                      (S (depth_bound s))). lia.
Qed.

Lemma expand_braces_In : forall list_of_set s x,
    set_listing list_of_set ->
    (In x (expand_braces list_of_set s) <-> In x (expand_braces set_order s)).
Proof.
  intros los s x H. split; apply Permutation_in; apply expand_braces_order;
    assumption || apply set_listing_set_order.
Qed.

(** A string without an opening brace holds no group. *)
Lemma match_at_no_open : forall s, has_char "{" s = false -> match_at s = None.
Proof.
  induction s as [|c s IH]; intro H; [reflexivity|].
  cbn [has_char existsb] in H. apply orb_false_iff in H. destruct H as [Hc Hs].
  cbn [match_at]. destruct (is_newline c); [reflexivity|].
  rewrite (IH Hs). unfold group_at. destruct s as [|x s']; [reflexivity|].
  rewrite Ascii.eqb_sym in Hc. now rewrite Hc.
Qed.

Lemma search_no_open : forall s, has_char "{" s = false -> search s = None.
Proof.
  induction s as [|c s IH]; intro H; [reflexivity|].
  cbn [search]. rewrite (match_at_no_open _ H).
  cbn [has_char existsb] in H. apply orb_false_iff in H. destruct H as [_ Hs].
  now rewrite (IH Hs).
Qed.

Lemma expand_braces_plain : forall list_of_set s,
    set_listing list_of_set -> search s = None ->
    expand_braces list_of_set s = [unescape_close s].
Proof.
  intros los s H Hs. rewrite expand_braces_eq, Hs.
  now apply set_listing_singleton.
Qed.

(** ** Claims about the brace expander *)

(** C7: the expansion of "A{B,C}" is the set of "AB" and "AC", and the
    expansion of "{A,B}{C,D}" is the set of "AC", "AD", "BC" and "BD":
    in each case the result list is some arrangement of exactly these
    strings, none of them twice, whatever the order in which the set of
    results is listed. *)
Theorem expand_braces_alternations : forall list_of_set,
    set_listing list_of_set ->
    Permutation (expand_braces list_of_set (lit "A{B,C}"))
                [lit "AB"; lit "AC"] /\
    NoDup (expand_braces list_of_set (lit "A{B,C}")) /\
    Permutation (expand_braces list_of_set (lit "{A,B}{C,D}"))
                [lit "AC"; lit "AD"; lit "BC"; lit "BD"] /\
    NoDup (expand_braces list_of_set (lit "{A,B}{C,D}")).
Proof.
  intros los H.
  assert (P1 : Permutation (expand_braces los (lit "A{B,C}"))
                           [lit "AB"; lit "AC"]).
  { eapply Permutation_trans;
      [apply (expand_braces_order los set_order _ H set_listing_set_order)|].
    vm_compute. apply Permutation_refl. }
  assert (P2 : Permutation (expand_braces los (lit "{A,B}{C,D}"))
                           [lit "AC"; lit "AD"; lit "BC"; lit "BD"]).
  { eapply Permutation_trans;
      [apply (expand_braces_order los set_order _ H set_listing_set_order)|].
    vm_compute. apply perm_skip.
    eapply Permutation_trans; [apply perm_swap|]. apply Permutation_refl. }
  repeat split; try assumption; now apply expand_braces_NoDup.
Qed.

Lemma expand_braces_alternations_witness :
  set_listing set_order /\
  Permutation (expand_braces set_order (lit "A{B,C}")) [lit "AB"; lit "AC"].
Proof.
  split.
  - exact set_listing_set_order.
  - exact (proj1 (expand_braces_alternations set_order set_listing_set_order)).
Defined.

(** C8: a glob string in which the pattern finds no brace group expands
    to exactly one result, the string with every escaped closing brace
    replaced by a closing brace; a string without an opening brace is
    such a string. *)
Theorem expand_braces_no_group : forall list_of_set s,
    set_listing list_of_set ->
    (search s = None ->
     expand_braces list_of_set s = [unescape_close s]) /\
    (has_char "{" s = false ->
     expand_braces list_of_set s = [unescape_close s]).
Proof.
  intros los s H.
  split; intro K.
  - now apply expand_braces_plain.
  - apply expand_braces_plain; [assumption | now apply search_no_open].
Qed.

Lemma expand_braces_no_group_witness :
  search (lit "A\}B*") = None /\
  expand_braces set_order (lit "A\}B*") = [lit "A}B*"].
Proof.
  split.
  - reflexivity.
  - exact (proj1 (expand_braces_no_group set_order (lit "A\}B*")
                    set_listing_set_order) eq_refl).
Defined.

(** C9, amended: [expand_braces] terminates on every string, whatever
    its braces: above [depth_bound] every bound on the depth of the
    recursion gives the same result.  In the branch of a group with a
    comma every recursive call is on a strictly shorter string; in the
    branch of a group without a comma the recursive call is on a string
    with strictly fewer closing braces that the pattern can take for the
    end of a group (those that follow a character other than a
    backslash), every closing brace of the group having been escaped. *)
Theorem expand_braces_terminates : forall list_of_set s,
    (exists res, forall fuel,
        depth_bound s < fuel ->
        expand_braces_fuel list_of_set fuel s = Some res) /\
    (forall m,
        search s = Some m ->
        let sub := group1 s m in
        (has_char "," sub = true ->
         forall pat, In pat (split "," (strip (lit "{}") sub)) ->
                     length (substitute s sub pat) < length s) /\
        (has_char "," sub = false ->
         closers (substitute s sub (escape_close sub)) < closers s)).
Proof.
  intros los s. split.
  - exists (expand_braces los s). intros fuel H.
    now apply expand_braces_fuel_enough.
  - intros m Hs sub. split.
    + intros _ pat Hp. now apply substitute_alternative_bound.
    + intros _. now apply substitute_escape_bound.
Qed.

Lemma expand_braces_terminates_witness :
  exists res,
    expand_braces_fuel set_order 16 (lit "{a}{a}{a}") = Some res /\
    closers (lit "{a\}{a\}{a}") < closers (lit "{a}{a}{a}").
Proof.
  destruct (expand_braces_terminates set_order (lit "{a}{a}{a}")) as [[res R] D].
  exists res. split.
  - apply R. vm_compute. lia.
  - exact (proj2 (D (3, 6) eq_refl) eq_refl).
Defined.

(** What the claim gives for the branch of a group without a comma, fewer
    groups that the pattern can find, one closing brace having been
    escaped, does not hold.  In "{a}{a}{a}" the group taken is
    "{a}{a}", found again at the head of the string by [find]: its two
    closing braces are escaped, and the pattern finds a group at two
    positions before and at two positions after.  In "{a{}}" the group
    taken is "{a{}": the pattern finds a group at one position before
    and at two positions after. *)
Lemma expand_braces_group_count_counterexample :
  (search (lit "{a}{a}{a}") = Some (3, 6) /\
   group1 (lit "{a}{a}{a}") (3, 6) = lit "{a}{a}" /\
   has_char "," (lit "{a}{a}") = false /\
   substitute (lit "{a}{a}{a}") (lit "{a}{a}") (escape_close (lit "{a}{a}"))
   = lit "{a\}{a\}{a}" /\
   count_char "\" (lit "{a\}{a\}{a}") = 2 /\
   group_starts (lit "{a}{a}{a}") = 2 /\
   group_starts (lit "{a\}{a\}{a}") = 2) /\
  (search (lit "{a{}}") = Some (0, 4) /\
   group1 (lit "{a{}}") (0, 4) = lit "{a{}" /\
   has_char "," (lit "{a{}") = false /\
   substitute (lit "{a{}}") (lit "{a{}") (escape_close (lit "{a{}"))
   = lit "{a{\}}" /\
   group_starts (lit "{a{}}") = 1 /\
   group_starts (lit "{a{\}}") = 2).
Proof.
  split; repeat (split; [reflexivity|]); reflexivity.
Qed.

(** ** The column selector *)

Lemma filter_filter : forall (A : Type) (f g : A -> bool) l,
    filter f (filter g l) = filter (fun x => g x && f x) l.
Proof.
  intros A f g l. induction l as [|x l IH]; [reflexivity|].
  simpl. destruct (g x); simpl; [destruct (f x)|]; now rewrite IH.
Qed.

Lemma keep_first_In : forall l x, In x (keep_first l) <-> In x l.
Proof.
  induction l as [|y l IH]; intro x; simpl; [reflexivity|].
  rewrite filter_In, IH, negb_true_iff, str_eqb_neq.
  destruct (str_dec y x) as [->|N]; [tauto|].
  split; [tauto|]. intros [E|H]; [contradiction|]. right. split; congruence.
Qed.

Lemma keep_first_NoDup : forall l, NoDup (keep_first l).
Proof.
  induction l as [|y l IH]; simpl; constructor.
  - rewrite filter_In, negb_true_iff, str_eqb_neq. tauto.
  - now apply NoDup_filter.
Qed.

Lemma keep_first_app : forall a b,
    keep_first (a ++ b) =
    keep_first a ++ filter (fun y => negb (mem y a)) (keep_first b).
Proof.
  induction a as [|x a IH]; intro b; simpl.
  - symmetry. apply forallb_filter_id. now apply forallb_forall.
  - rewrite IH, filter_app, filter_filter. f_equal. f_equal.
    apply filter_ext. intro y. now rewrite negb_orb, andb_comm.
Qed.

Section SelectorFacts.

Variable fnmatch : str -> str -> bool.

(** The loops against the selection the specification words. *)
Lemma scan_branches_spec : forall p branches found selected,
    scan_branches fnmatch p branches found selected =
    (found || has_match fnmatch branches p,
     selected ++ filter (fun b => negb (mem b selected))
                        (keep_first (matches_of fnmatch branches p))).
Proof.
  intros p. induction branches as [|b l IH]; intros found sel.
  - simpl. now rewrite orb_false_r, app_nil_r.
  - cbn [scan_branches has_match existsb matches_of filter].
    rewrite IH. fold (has_match fnmatch l p). fold (matches_of fnmatch l p).
    destruct (fnmatch b p) eqn:M; cbn [andb orb].
    + rewrite orb_true_r. f_equal. cbn [keep_first filter].
      destruct (mem b sel) eqn:Hb; cbn [negb].
      * f_equal. rewrite filter_filter. apply filter_ext_in. intros y _.
        destruct (str_eqb y b) eqn:E; [|reflexivity].
        apply str_eqb_eq in E. subst y. now rewrite Hb.
      * rewrite <- app_assoc. cbn [app]. f_equal. f_equal.
        rewrite filter_filter. apply filter_ext. intro y.
        rewrite mem_app. cbn [mem existsb]. rewrite orb_false_r, negb_orb.
        apply andb_comm.
    + reflexivity.
Qed.

Lemma matches_of_nil : forall branches p,
    has_match fnmatch branches p = false -> matches_of fnmatch branches p = [].
Proof.
  intros branches p H. unfold matches_of.
  destruct (filter (fun b => fnmatch b p) branches) as [|b t] eqn:F;
    [reflexivity|].
  assert (In b (b :: t)) as K by now left. rewrite <- F in K.
  apply filter_In in K. destruct K as [K1 K2].
  assert (has_match fnmatch branches p = true)
    by (apply existsb_exists; now exists b).
  congruence.
Qed.

Lemma scan_patterns_spec : forall branches patterns fail selected,
    scan_patterns fnmatch branches patterns fail selected =
    match (if fail then first_unmatched fnmatch branches patterns else None) with
    | Some p => Err (PatternNotFoundError p)
    | None =>
        Ok (selected ++ filter (fun b => negb (mem b selected))
                               (select_spec fnmatch branches patterns))
    end.
Proof.
  intros branches. induction patterns as [|p ps IH]; intros fail sel.
  - cbn. destruct fail; now rewrite app_nil_r.
  - cbn [scan_patterns]. rewrite scan_branches_spec. cbn [orb].
    unfold first_unmatched. cbn [List.find].
    destruct (has_match fnmatch branches p) eqn:Hm; cbn [negb andb].
    + rewrite IH. fold (first_unmatched fnmatch branches ps).
      destruct (if fail then first_unmatched fnmatch branches ps else None);
        [reflexivity|].
      f_equal. unfold select_spec. cbn [flat_map].
      rewrite keep_first_app, filter_app, <- app_assoc. f_equal. f_equal.
      rewrite !filter_filter. apply filter_ext. intro y.
      rewrite mem_app, negb_orb.
      destruct (mem y sel) eqn:Hy; cbn [negb andb]; [now rewrite andb_false_r|].
      rewrite andb_true_r. f_equal.
      destruct (mem y (matches_of fnmatch branches p)) eqn:Hy2.
      * apply mem_In. apply filter_In. split.
        -- apply keep_first_In. now apply mem_In.
        -- now rewrite Hy.
      * apply mem_not_In. intro K. apply filter_In in K.
        destruct K as [K _]. apply (proj1 (keep_first_In _ _)) in K.
        apply mem_In in K. congruence.
    + destruct fail; cbn [andb]; [reflexivity|].
      rewrite IH. f_equal. unfold select_spec. cbn [flat_map].
      assert (E : matches_of fnmatch branches p = [])
        by now apply matches_of_nil.
      rewrite E. cbn [keep_first filter app]. now rewrite app_nil_r.
Qed.

Lemma get_matching_variables_spec : forall branches patterns fail,
    get_matching_variables fnmatch branches patterns fail =
    match (if fail then first_unmatched fnmatch branches patterns else None) with
    | Some p => Err (PatternNotFoundError p)
    | None => Ok (select_spec fnmatch branches patterns)
    end.
Proof.
  intros. unfold get_matching_variables. rewrite scan_patterns_spec.
  destruct (if fail then first_unmatched fnmatch branches patterns else None);
    [reflexivity|].
  cbn [app]. f_equal. apply forallb_filter_id. now apply forallb_forall.
Qed.

Lemma select_spec_In : forall branches patterns b,
    In b (select_spec fnmatch branches patterns) <->
    In b branches /\ exists p, In p patterns /\ fnmatch b p = true.
Proof.
  intros. unfold select_spec. rewrite keep_first_In, in_flat_map. split.
  - intros [p [Hp Hb]]. apply filter_In in Hb. destruct Hb as [Hb Hm].
    split; [assumption | now exists p].
  - intros [Hb [p [Hp Hm]]]. exists p. split; [assumption|].
    apply filter_In. now split.
Qed.

(** A pattern met before contributes nothing anew. *)
Lemma select_spec_repeated : forall branches p l1 l2,
    In p l1 ->
    select_spec fnmatch branches (l1 ++ p :: l2) =
    select_spec fnmatch branches (l1 ++ l2).
Proof.
  intros branches p l1 l2 H. unfold select_spec.
  rewrite !flat_map_app. cbn [flat_map].
  rewrite !keep_first_app, filter_app. f_equal.
  assert (Sub : forall y, In y (matches_of fnmatch branches p) ->
                          In y (flat_map (matches_of fnmatch branches) l1)).
  { intros y Hy. apply in_flat_map. now exists p. }
  replace (filter (fun y => negb (mem y (flat_map (matches_of fnmatch branches) l1)))
                  (keep_first (matches_of fnmatch branches p))) with (@nil str).
  - cbn [app]. rewrite filter_filter. apply filter_ext_in. intros y _.
    destruct (mem y (matches_of fnmatch branches p)) eqn:E; [|reflexivity].
    apply mem_In, Sub, mem_In in E. now rewrite E.
  - symmetry.
    destruct (filter (fun y => negb (mem y (flat_map (matches_of fnmatch branches) l1)))
                     (keep_first (matches_of fnmatch branches p)))
      as [|y t] eqn:F; [reflexivity|].
    assert (In y (y :: t)) as K by now left. rewrite <- F in K.
    apply filter_In in K. destruct K as [K1 K2].
    apply (proj1 (keep_first_In _ _)) in K1. apply Sub, mem_In in K1.
    rewrite K1 in K2. discriminate.
Qed.

Lemma first_unmatched_repeated : forall branches p l1 l2,
    In p l1 ->
    first_unmatched fnmatch branches (l1 ++ p :: l2) =
    first_unmatched fnmatch branches (l1 ++ l2).
Proof.
  intros branches p l1 l2. unfold first_unmatched.
  induction l1 as [|q l1 IH]; intro H; [contradiction|].
  cbn [app List.find]. destruct (negb (has_match fnmatch branches q)) eqn:Hq;
    [reflexivity|].
  destruct H as [->|H]; [|now apply IH].
  clear IH. induction l1 as [|r l1 IH]; cbn [app List.find].
  - now rewrite Hq.
  - destruct (negb (has_match fnmatch branches r)); [reflexivity | exact IH].
Qed.

Lemma first_unmatched_Some : forall branches patterns p,
    first_unmatched fnmatch branches patterns = Some p ->
    exists before after,
      patterns = before ++ p :: after /\
      has_match fnmatch branches p = false /\
      forall q, In q before -> has_match fnmatch branches q = true.
Proof.
  intros branches. unfold first_unmatched.
  induction patterns as [|q ps IH]; intros p H; [discriminate|].
  cbn [List.find] in H. destruct (has_match fnmatch branches q) eqn:Hq;
    cbn [negb] in H.
  - destruct (IH p H) as [before [after [E [N A]]]].
    exists (q :: before), after. subst ps. repeat split; try assumption.
    intros r [<-|Hr]; [assumption | now apply A].
  - injection H as <-. exists [], ps. repeat split; try assumption.
    intros r [].
Qed.

Lemma first_unmatched_None : forall branches patterns,
    first_unmatched fnmatch branches patterns = None <->
    forall p, In p patterns -> has_match fnmatch branches p = true.
Proof.
  intros branches. unfold first_unmatched.
  induction patterns as [|q ps IH]; cbn [List.find].
  - split; [intros _ p [] | reflexivity].
  - destruct (has_match fnmatch branches q) eqn:Hq; cbn [negb].
    + rewrite IH. split.
      * intros A p [<-|Hp]; [assumption | now apply A].
      * intros A p Hp. apply A. now right.
    + split; [discriminate|]. intro A.
      rewrite (A q (or_introl eq_refl)) in Hq. discriminate.
Qed.

Lemma select_spec_matched : forall branches patterns,
    select_spec fnmatch branches (filter (has_match fnmatch branches) patterns) =
    select_spec fnmatch branches patterns.
Proof.
  intros branches patterns. unfold select_spec. f_equal.
  induction patterns as [|p ps IH]; [reflexivity|].
  cbn [filter flat_map]. destruct (has_match fnmatch branches p) eqn:Hp.
  - cbn [flat_map]. now rewrite IH.
  - now rewrite (matches_of_nil _ _ Hp), IH.
Qed.

End SelectorFacts.

Lemma glob_literal : literal_matching glob_fnmatch.
Proof.
  unfold literal_matching, glob_fnmatch. intros name pattern.
  revert name. induction pattern as [|c pat IH]; intros name H1 H2 H3.
  - destruct name; reflexivity.
  - cbn [has_char existsb] in H1, H2, H3.
    apply orb_false_iff in H1, H2, H3.
    destruct H1 as [A1 B1], H2 as [A2 B2], H3 as [A3 B3].
    cbn [glob]. rewrite Ascii.eqb_sym, A1.
    destruct name as [|x name]; [reflexivity|].
    rewrite (Ascii.eqb_sym c "?"), A2. cbn [orb str_eqb].
    rewrite (Ascii.eqb_sym c x). f_equal. now apply IH.
Qed.

(** ** Claims about the column selector *)

(** C5: the output of the selector is the list in which every column
    that some pattern matches stands exactly once, where the first
    pattern matching it puts it (the patterns in the given order, the
    columns of one pattern in [available_columns] order).  A pattern
    given again changes nothing: select(cols, ["A*","A*"]) is
    select(cols, ["A*"]); and select(["x","y","z"], ["z","x"]) is
    ["z","x"]. *)
Theorem selector_first_match : forall fnmatch available_columns patterns,
    get_matching_variables fnmatch available_columns patterns false =
    Ok (select_spec fnmatch available_columns patterns) /\
    (forall selected,
        get_matching_variables fnmatch available_columns patterns true = Ok selected ->
        selected = select_spec fnmatch available_columns patterns) /\
    NoDup (select_spec fnmatch available_columns patterns) /\
    (forall b,
        In b (select_spec fnmatch available_columns patterns) <->
        In b available_columns /\ exists p, In p patterns /\ fnmatch b p = true) /\
    (forall fail p before after,
        In p before ->
        get_matching_variables fnmatch available_columns (before ++ p :: after) fail =
        get_matching_variables fnmatch available_columns (before ++ after) fail) /\
    (forall fail,
        get_matching_variables fnmatch available_columns [lit "A*"; lit "A*"] fail =
        get_matching_variables fnmatch available_columns [lit "A*"] fail) /\
    (literal_matching fnmatch ->
     forall fail,
       get_matching_variables fnmatch [lit "x"; lit "y"; lit "z"]
                              [lit "z"; lit "x"] fail =
       Ok [lit "z"; lit "x"]).
Proof.
  intros fnmatch cols patterns.
  assert (R : forall fail p before after,
             In p before ->
             get_matching_variables fnmatch cols (before ++ p :: after) fail =
             get_matching_variables fnmatch cols (before ++ after) fail).
  { intros fail p before after H. rewrite !get_matching_variables_spec.
    rewrite first_unmatched_repeated by assumption.
    now rewrite select_spec_repeated by assumption. }
  split; [|split; [|split; [|split; [|split; [|split]]]]].
  - now rewrite get_matching_variables_spec.
  - intros selected H. rewrite get_matching_variables_spec in H.
    destruct (first_unmatched fnmatch cols patterns); [discriminate|].
    now injection H.
  - apply keep_first_NoDup.
  - apply select_spec_In.
  - exact R.
  - intro fail. apply (R fail (lit "A*") [lit "A*"] []). now left.
  - intros L fail. unfold get_matching_variables.
    cbn [scan_patterns scan_branches].
    assert (Lz : forall n, fnmatch n (lit "z") = str_eqb n (lit "z"))
      by (intro n; now apply L).
    assert (Lx : forall n, fnmatch n (lit "x") = str_eqb n (lit "x"))
      by (intro n; now apply L).
    rewrite !Lz, !Lx. now destruct fail.
Qed.

Lemma selector_first_match_witness :
  literal_matching glob_fnmatch /\
  get_matching_variables glob_fnmatch [lit "x"; lit "y"; lit "z"]
                         [lit "z"; lit "x"] true = Ok [lit "z"; lit "x"].
Proof.
  split.
  - exact glob_literal.
  - exact (proj2 (proj2 (proj2 (proj2 (proj2 (proj2
             (selector_first_match glob_fnmatch [] []))))))
             glob_literal true).
Defined.

(** C6: when some pattern of the list matches no column, the selector
    with fail_on_no_match true raises the PatternNotFoundError that
    names such a pattern, the first of the list that matches nothing:
    the [ValueError] of message "Pattern '<p>' didn't match any branch"
    (line 53); with fail_on_no_match false it raises nothing and
    returns the selection of the remaining patterns, those that match a
    column. *)
Theorem selector_unmatched_pattern : forall fnmatch available_columns patterns,
    (exists p, In p patterns /\ has_match fnmatch available_columns p = false) ->
    (exists p before after,
        patterns = before ++ p :: after /\
        has_match fnmatch available_columns p = false /\
        (forall q, In q before -> has_match fnmatch available_columns q = true) /\
        get_matching_variables fnmatch available_columns patterns true =
        Err (ValueError
               (lit "Pattern '" ++ p ++ lit "' didn't match any branch"))) /\
    get_matching_variables fnmatch available_columns patterns false =
    get_matching_variables fnmatch available_columns
      (filter (has_match fnmatch available_columns) patterns) true /\
    get_matching_variables fnmatch available_columns patterns false =
    Ok (select_spec fnmatch available_columns
          (filter (has_match fnmatch available_columns) patterns)).
Proof.
  intros fnmatch cols patterns [p0 [Hp0 Hm0]].
  assert (F : first_unmatched fnmatch cols
                (filter (has_match fnmatch cols) patterns) = None).
  { apply first_unmatched_None. intros q Hq. now apply filter_In in Hq. }
  split; [|split].
  - destruct (first_unmatched fnmatch cols patterns) as [p|] eqn:U.
    + destruct (first_unmatched_Some _ _ _ _ U) as [before [after [E [N A]]]].
      exists p, before, after. repeat split; try assumption.
      now rewrite get_matching_variables_spec, U.
    + rewrite first_unmatched_None in U. rewrite (U p0 Hp0) in Hm0. discriminate.
  - rewrite !get_matching_variables_spec, F. now rewrite select_spec_matched.
  - rewrite get_matching_variables_spec. now rewrite select_spec_matched.
Qed.

Lemma selector_unmatched_pattern_witness :
  (exists p,
      has_match glob_fnmatch [lit "AA"; lit "AB"; lit "C"] p = false /\
      get_matching_variables glob_fnmatch [lit "AA"; lit "AB"; lit "C"]
                             [lit "A*"; lit "q"] true =
      Err (ValueError (lit "Pattern '" ++ p ++ lit "' didn't match any branch"))) /\
  get_matching_variables glob_fnmatch [lit "AA"; lit "AB"; lit "C"]
                         [lit "A*"; lit "q"] false = Ok [lit "AA"; lit "AB"].
Proof.
  assert (H : exists p, In p [lit "A*"; lit "q"] /\
                        has_match glob_fnmatch [lit "AA"; lit "AB"; lit "C"] p = false).
  { exists (lit "q"). split; [right; now left | reflexivity]. }
  destruct (selector_unmatched_pattern glob_fnmatch
              [lit "AA"; lit "AB"; lit "C"] [lit "A*"; lit "q"] H)
    as [[p [before [after [_ [N [_ R]]]]]] [_ F]].
  split; [exists p; split; assumption | exact F].
Defined.

(** The message of the error raised on the patterns "A*" and "q", of
    which "q" matches none of the columns AA, AB and C. *)
Example selector_unmatched_message :
  get_matching_variables glob_fnmatch [lit "AA"; lit "AB"; lit "C"]
                         [lit "A*"; lit "q"] true =
  Err (ValueError (lit "Pattern 'q' didn't match any branch")).
Proof. reflexivity. Qed.

(** ** The load orchestrator *)

Lemma ambiguous_not_pattern : forall path p,
    AmbiguousTreeError path <> PatternNotFoundError p.
Proof. intros path p H. discriminate H. Qed.

Lemma reserved_not_pattern : forall p, ReservedColumnError <> PatternNotFoundError p.
Proof. intros p H. discriminate H. Qed.

Lemma remove_not_pattern : forall p, ListRemoveError <> PatternNotFoundError p.
Proof. intros p H. discriminate H. Qed.

Lemma reserved_not_ambiguous : forall path, ReservedColumnError <> AmbiguousTreeError path.
Proof. intros p H. discriminate H. Qed.

Lemma remove_not_ambiguous : forall path, ListRemoveError <> AmbiguousTreeError path.
Proof. intros p H. discriminate H. Qed.

Lemma open_tree_error : forall file key e,
    open_tree file key = Err e -> e = CollaboratorError.
Proof.
  induction file as [|[k t] file IH]; intros key e H; cbn [open_tree] in H.
  - now injection H.
  - destruct (str_eqb k key); [discriminate | now apply IH in H].
Qed.

Lemma list_remove_error : forall l x e,
    list_remove l x = Err e -> e = ListRemoveError.
Proof.
  induction l as [|y l IH]; intros x e H; cbn [list_remove] in H.
  - now injection H.
  - destruct (str_eqb y x); [discriminate|].
    destruct (list_remove l x) eqn:R; cbn [bind] in H; [discriminate|].
    injection H as <-. now apply IH in R.
Qed.

Lemma list_remove_keeps : forall l x l' y,
    list_remove l x = Ok l' -> y <> x -> In y l -> In y l'.
Proof.
  induction l as [|z l IH]; intros x l' y H N Hy; cbn [list_remove] in H;
    [discriminate|].
  destruct (str_eqb z x) eqn:E.
  - injection H as <-. apply str_eqb_eq in E. subst z.
    destruct Hy as [Hy|Hy]; [congruence | assumption].
  - destruct (list_remove l x) as [l''|] eqn:R; cbn [bind] in H; [|discriminate].
    injection H as <-. destruct Hy as [<-|Hy]; [now left | right].
    now apply (IH x l'' y).
Qed.

Section LoadFacts.

Variable list_of_set : list str -> list str.
Variable fnmatch : str -> str -> bool.
Variable eval_where : str -> Entry -> bool.

Lemma resolve_tree_key_error : forall file path tree_key e,
    resolve_tree_key file path tree_key = Err e -> e = AmbiguousTreeError path.
Proof.
  intros file path tree_key e H. unfold resolve_tree_key in H.
  destruct (negb (truthy_key tree_key)); [|discriminate].
  destruct (length (list_trees file) =? 1)%nat; [discriminate|].
  now injection H.
Qed.

Lemma resolve_columns_falsy : forall branches columns,
    truthy columns = false ->
    resolve_columns list_of_set fnmatch branches columns = Ok branches.
Proof. intros branches columns H. unfold resolve_columns. now rewrite H. Qed.

Lemma resolve_columns_error : forall branches columns e,
    resolve_columns list_of_set fnmatch branches columns = Err e ->
    truthy columns = true /\ exists p, e = PatternNotFoundError p.
Proof.
  intros branches columns e H. unfold resolve_columns in H.
  destruct (truthy columns); cbn [negb] in H; [|discriminate].
  split; [reflexivity|]. rewrite get_matching_variables_spec in H.
  match type of H with
  | match ?u with _ => _ end = _ => destruct u as [p|]; [|discriminate]
  end.
  exists p. now injection H.
Qed.

Lemma remove_all_error : forall ignored all_vars e,
    remove_all all_vars ignored = Err e -> e = ListRemoveError.
Proof.
  induction ignored as [|x ignored IH]; intros all_vars e H;
    cbn [remove_all] in H; [discriminate|].
  destruct (list_remove all_vars x) as [l|e'] eqn:R; cbn [bind] in H.
  - now apply IH in H.
  - injection H as <-. now apply list_remove_error in R.
Qed.

Lemma remove_all_keeps : forall ignored all_vars all_vars' y,
    remove_all all_vars ignored = Ok all_vars' ->
    ~ In y ignored -> In y all_vars -> In y all_vars'.
Proof.
  induction ignored as [|x ignored IH]; intros all_vars all_vars' y H N Hy;
    cbn [remove_all] in H.
  - now injection H as <-.
  - destruct (list_remove all_vars x) as [l|] eqn:R; cbn [bind] in H;
      [|discriminate].
    apply (IH l all_vars' y H).
    + intro K. apply N. now right.
    + apply (list_remove_keeps all_vars x l y R); [|assumption].
      intro E. apply N. now left.
Qed.

Lemma apply_ignore_error : forall branches all_vars ignore e,
    apply_ignore list_of_set fnmatch branches all_vars ignore = Err e ->
    e = ReservedColumnError \/ e = ListRemoveError.
Proof.
  intros branches all_vars ignore e H. unfold apply_ignore in H.
  destruct (truthy ignore); [|discriminate].
  rewrite get_matching_variables_spec in H. cbn [bind] in H.
  match type of H with
  | (if ?c then _ else _) = _ => destruct c
  end.
  - left. now injection H.
  - right. now apply remove_all_error in H.
Qed.

Lemma apply_ignore_keeps_index : forall branches all_vars ignore all_vars',
    apply_ignore list_of_set fnmatch branches all_vars ignore = Ok all_vars' ->
    In (lit "index") all_vars -> In (lit "index") all_vars'.
Proof.
  intros branches all_vars ignore all_vars' H Hi. unfold apply_ignore in H.
  destruct (truthy ignore); [|now injection H as <-].
  rewrite get_matching_variables_spec in H. cbn [bind] in H.
  match type of H with
  | (if mem ?x ?l then _ else _) = _ => destruct (mem x l) eqn:M
  end; [discriminate|].
  apply mem_not_In in M. now apply (remove_all_keeps _ _ _ _ H M).
Qed.

(** The stages a successful selection went through. *)
Lemma read_selection_Ok : forall file path tree_key columns ignore key all_vars,
    read_selection list_of_set fnmatch file path tree_key columns ignore
    = Ok (key, all_vars) ->
    exists tree all_vars0,
      resolve_tree_key file path tree_key = Ok key /\
      open_tree file key = Ok tree /\
      resolve_columns list_of_set fnmatch (tree_branches tree) columns
      = Ok all_vars0 /\
      apply_ignore list_of_set fnmatch (tree_branches tree) all_vars0 ignore
      = Ok all_vars.
Proof.
  intros file path tree_key columns ignore key all_vars H.
  unfold read_selection, list_branches in H.
  destruct (resolve_tree_key file path tree_key) as [k|] eqn:K;
    cbn [bind] in H; [|discriminate].
  destruct (open_tree file k) as [tree|] eqn:T; cbn [bind] in H; [|discriminate].
  destruct (resolve_columns list_of_set fnmatch (tree_branches tree) columns)
    as [v0|] eqn:C; cbn [bind] in H; [|discriminate].
  destruct (apply_ignore list_of_set fnmatch (tree_branches tree) v0 ignore)
    as [v|] eqn:I; cbn [bind] in H; [|discriminate].
  injection H as <- <-. now exists tree, v0.
Qed.

Lemma read_selection_error : forall file path tree_key columns ignore e,
    read_selection list_of_set fnmatch file path tree_key columns ignore = Err e ->
    (e = AmbiguousTreeError path /\
     resolve_tree_key file path tree_key = Err e) \/
    e = CollaboratorError \/
    (truthy columns = true /\ exists p, e = PatternNotFoundError p) \/
    e = ReservedColumnError \/ e = ListRemoveError.
Proof.
  clear eval_where. intros file path tree_key columns ignore e H.
  unfold read_selection, list_branches in H.
  destruct (resolve_tree_key file path tree_key) as [k|e1] eqn:K;
    cbn [bind] in H.
  - destruct (open_tree file k) as [tree|e2] eqn:T; cbn [bind] in H.
    + destruct (resolve_columns list_of_set fnmatch (tree_branches tree) columns)
        as [v0|e3] eqn:C; cbn [bind] in H.
      * destruct (apply_ignore list_of_set fnmatch (tree_branches tree) v0 ignore)
          as [v|e4] eqn:I; cbn [bind] in H; [discriminate|].
        injection H as <-. apply apply_ignore_error in I. tauto.
      * injection H as <-. apply resolve_columns_error in C. tauto.
    + injection H as <-. apply open_tree_error in T. tauto.
  - injection H as <-. left. split; [|reflexivity].
    now apply resolve_tree_key_error in K.
Qed.

(** Once the selection is made the reads raise nothing. *)
Lemma read_root_error : forall file path tree_key columns ignore chunksize where_ e,
    read_root list_of_set fnmatch eval_where file path tree_key columns ignore
              chunksize where_ = Err e ->
    read_selection list_of_set fnmatch file path tree_key columns ignore = Err e.
Proof.
  intros file path tree_key columns ignore chunksize where_ e H.
  unfold read_root in H.
  destruct (read_selection list_of_set fnmatch file path tree_key columns ignore)
    as [[key all_vars]|e'] eqn:S; cbn [bind] in H; [|now injection H as ->].
  destruct (read_selection_Ok _ _ _ _ _ _ _ S) as [tree [v0 [_ [T _]]]].
  unfold GetEntries, root2array in H. rewrite T in H. cbn [bind] in H.
  destruct (truthy_int chunksize); discriminate.
Qed.

Lemma read_root_columns_falsy :
  forall file path tree_key columns ignore chunksize where_,
    truthy columns = false ->
    read_root list_of_set fnmatch eval_where file path tree_key columns ignore
              chunksize where_ =
    read_root list_of_set fnmatch eval_where file path tree_key NoPatterns ignore
              chunksize where_.
Proof.
  intros file path tree_key columns ignore chunksize where_ H.
  unfold read_root, read_selection.
  destruct (resolve_tree_key file path tree_key) as [k|]; [|reflexivity].
  cbn [bind]. destruct (list_branches file k) as [branches|]; [|reflexivity].
  cbn [bind]. now rewrite !resolve_columns_falsy.
Qed.

End LoadFacts.

(** ** Claims about the load orchestrator *)

(** C10: with [columns] an empty sequence or the empty string the load
    is the load without [columns]: the include stage selects the full
    list of available columns, and no PatternNotFoundError arises. *)
Theorem empty_columns_select_all :
  forall list_of_set fnmatch eval_where file path tree_key columns ignore
         chunksize where_,
    columns = Patterns [] \/ columns = OnePattern [] ->
    read_root list_of_set fnmatch eval_where file path tree_key columns ignore
              chunksize where_ =
    read_root list_of_set fnmatch eval_where file path tree_key NoPatterns ignore
              chunksize where_ /\
    (forall branches,
        resolve_columns list_of_set fnmatch branches columns = Ok branches) /\
    (forall p,
        read_root list_of_set fnmatch eval_where file path tree_key columns ignore
                  chunksize where_ <> Err (PatternNotFoundError p)).
Proof.
  intros los fnmatch eval_where file path tree_key columns ignore chunksize
         where_ H.
  assert (F : truthy columns = false) by (destruct H as [-> | ->]; reflexivity).
  split; [|split].
  - now apply read_root_columns_falsy.
  - intro branches. now apply resolve_columns_falsy.
  - intros p E. apply read_root_error, read_selection_error in E.
    destruct E as [[E _]|[E|[[T _]|[E|E]]]].
    + symmetry in E. now apply ambiguous_not_pattern in E.
    + discriminate E.
    + congruence.
    + symmetry in E. now apply reserved_not_pattern in E.
    + symmetry in E. now apply remove_not_pattern in E.
Qed.

Lemma empty_columns_select_all_witness :
  read_root set_order glob_fnmatch any_entry
            (example_file [lit "t"] [lit "a"; lit "b"] 2) (lit "f.root")
            None (Patterns []) NoPatterns None None =
  read_root set_order glob_fnmatch any_entry
            (example_file [lit "t"] [lit "a"; lit "b"] 2) (lit "f.root")
            None NoPatterns NoPatterns None None.
Proof.
  exact (proj1 (empty_columns_select_all
                  set_order glob_fnmatch any_entry
                  (example_file [lit "t"] [lit "a"; lit "b"] 2) (lit "f.root")
                  None (Patterns []) NoPatterns None None
                  (or_introl eq_refl))).
Defined.

Lemma expand_braces_index : forall list_of_set,
    set_listing list_of_set ->
    expand_braces list_of_set (lit "index") = [lit "index"].
Proof. intros los H. now apply expand_braces_plain. Qed.

Lemma fnmatch_index : forall fnmatch,
    literal_matching fnmatch -> fnmatch (lit "index") (lit "index") = true.
Proof. intros fnmatch L. now rewrite L. Qed.

Lemma read_selection_stages :
  forall list_of_set fnmatch file path tree_key columns ignore key branches,
    resolve_tree_key file path tree_key = Ok key ->
    list_branches file key = Ok branches ->
    read_selection list_of_set fnmatch file path tree_key columns ignore =
    (all_vars <- resolve_columns list_of_set fnmatch branches columns ;;
     all_vars <- apply_ignore list_of_set fnmatch branches all_vars ignore ;;
     Ok (key, all_vars)).
Proof.
  intros los fnmatch file path tree_key columns ignore key branches K B.
  unfold read_selection. rewrite K. cbn [bind]. now rewrite B.
Qed.

(** The include stage puts the index column in the selection. *)
Lemma resolve_columns_index :
  forall list_of_set fnmatch branches columns all_vars,
    set_listing list_of_set -> literal_matching fnmatch ->
    In (lit "index") branches ->
    resolve_columns list_of_set fnmatch branches columns = Ok all_vars ->
    In (lit "index") all_vars.
Proof.
  intros los fnmatch branches columns all_vars H L Hi R.
  unfold resolve_columns in R. destruct (truthy columns); cbn [negb] in R.
  - rewrite (proj2 (mem_In _ _) Hi) in R.
    rewrite get_matching_variables_spec in R.
    match type of R with
    | match ?u with _ => _ end = _ => destruct u; [discriminate|]
    end.
    injection R as <-. apply select_spec_In. split; [assumption|].
    exists (lit "index"). split; [|now apply fnmatch_index].
    apply in_flat_map. exists (lit "index"). split.
    + apply in_or_app. right. now left.
    + rewrite expand_braces_index by assumption. now left.
  - now injection R as <-.
Qed.

(** An ignore pattern that resolves to the index column stops the load. *)
Lemma apply_ignore_index :
  forall list_of_set fnmatch branches all_vars ignore ignored,
    set_listing list_of_set -> literal_matching fnmatch ->
    get_matching_variables fnmatch branches (as_list ignore) false = Ok ignored ->
    In (lit "index") ignored ->
    apply_ignore list_of_set fnmatch branches all_vars ignore
    = Err ReservedColumnError.
Proof.
  intros los fnmatch branches all_vars ignore ignored H L G Hi.
  assert (T : truthy ignore = true).
  { rewrite get_matching_variables_spec in G. injection G as <-.
    apply select_spec_In in Hi. destruct Hi as [_ [p [Hp Hm]]].
    destruct ignore as [|q|l]; cbn in Hp |- *.
    - contradiction.
    - destruct Hp as [<-|[]]. destruct q as [|c q]; [|reflexivity].
      rewrite L in Hm by reflexivity. discriminate.
    - destruct l; [contradiction | reflexivity]. }
  unfold apply_ignore. rewrite T, G. cbn [bind].
  assert (M : mem (lit "index") (flat_map (expand_braces los) ignored) = true).
  { apply mem_In, in_flat_map. exists (lit "index"). split; [assumption|].
    rewrite expand_braces_index by assumption. now left. }
  now rewrite M.
Qed.

(** C4, amended: when [tree_key] is not given and the file does not
    hold exactly one tree, the load fails with the AmbiguousTreeError,
    whose message is "More than one tree found in " followed by the path
    of the file: it names the file and lists no tree key.  When the file
    holds exactly one tree, that tree is the one read and the load does
    not fail with the AmbiguousTreeError. *)
Theorem ambiguous_tree_error :
  forall list_of_set fnmatch eval_where file path tree_key columns ignore
         chunksize where_,
    truthy_key tree_key = false ->
    (length (list_trees file) <> 1 ->
     read_root list_of_set fnmatch eval_where file path tree_key columns ignore
               chunksize where_ =
     Err (ValueError (lit "More than one tree found in " ++ path))) /\
    (forall t,
        list_trees file = [t] ->
        resolve_tree_key file path tree_key = Ok t /\
        read_root list_of_set fnmatch eval_where file path tree_key columns ignore
                  chunksize where_ <> Err (AmbiguousTreeError path)).
Proof.
  intros los fnmatch eval_where file path tree_key columns ignore chunksize
         where_ F.
  split.
  - intro N. unfold read_root, read_selection, resolve_tree_key. rewrite F.
    cbn [negb]. destruct (Nat.eqb_spec (length (list_trees file)) 1) as [E|_];
      [contradiction | reflexivity].
  - intros t E.
    assert (K : resolve_tree_key file path tree_key = Ok t).
    { unfold resolve_tree_key. rewrite F, E. reflexivity. }
    split; [exact K|]. intro R.
    apply read_root_error, read_selection_error in R.
    destruct R as [[_ R]|[R|[[_ [p R]]|[R|R]]]].
    + rewrite K in R. discriminate.
    + discriminate R.
    + now apply ambiguous_not_pattern in R.
    + symmetry in R. now apply reserved_not_ambiguous in R.
    + symmetry in R. now apply remove_not_ambiguous in R.
Qed.

Lemma ambiguous_tree_error_witness :
  truthy_key None = false /\
  length (list_trees (example_file [lit "events"; lit "runs"] [lit "a"] 2)) <> 1 /\
  read_root set_order glob_fnmatch any_entry
            (example_file [lit "events"; lit "runs"] [lit "a"] 2)
            (lit "f.root") None NoPatterns NoPatterns None None =
  Err (ValueError (lit "More than one tree found in f.root")).
Proof.
  assert (N : length (list_trees (example_file [lit "events"; lit "runs"]
                                               [lit "a"] 2)) <> 1)
    by (simpl; lia).
  split; [reflexivity | split; [exact N|]].
  exact (proj1 (ambiguous_tree_error set_order glob_fnmatch any_entry
                  (example_file [lit "events"; lit "runs"] [lit "a"] 2)
                  (lit "f.root") None NoPatterns NoPatterns None None eq_refl) N).
Defined.

(** C4 as stated fails: with the trees "events" and "runs" in
    "f.root" the message of the error holds neither key. *)
Lemma ambiguous_tree_message_counterexample :
  exists msg,
    read_root set_order glob_fnmatch any_entry
              (example_file [lit "events"; lit "runs"] [lit "a"] 2)
              (lit "f.root") None NoPatterns NoPatterns None None =
    Err (ValueError msg) /\
    list_trees (example_file [lit "events"; lit "runs"] [lit "a"] 2)
    = [lit "events"; lit "runs"] /\
    occurs_in (lit "events") msg = false /\
    occurs_in (lit "runs") msg = false.
Proof.
  exists (lit "More than one tree found in f.root").
  repeat split; reflexivity.
Qed.

(** C2, amended: on a source whose branch list holds a column named
    "index", the selection of every load that comes to its reads holds
    "index", whatever the include patterns match; and when an ignore
    pattern resolves to "index" the load raises: the
    ReservedColumnError if the include patterns resolve, and otherwise
    the PatternNotFoundError of the include patterns, which are resolved
    before the ignore patterns are looked at. *)
Theorem index_column_reserved :
  forall list_of_set fnmatch eval_where file path tree_key columns ignore
         chunksize where_ key branches,
    set_listing list_of_set -> literal_matching fnmatch ->
    resolve_tree_key file path tree_key = Ok key ->
    list_branches file key = Ok branches ->
    In (lit "index") branches ->
    (forall all_vars,
        resolve_columns list_of_set fnmatch branches columns = Ok all_vars ->
        In (lit "index") all_vars) /\
    (forall k all_vars,
        read_selection list_of_set fnmatch file path tree_key columns ignore
        = Ok (k, all_vars) ->
        In (lit "index") all_vars) /\
    (forall ignored,
        get_matching_variables fnmatch branches (as_list ignore) false = Ok ignored ->
        In (lit "index") ignored ->
        (forall all_vars,
            resolve_columns list_of_set fnmatch branches columns = Ok all_vars ->
            read_root list_of_set fnmatch eval_where file path tree_key columns
                      ignore chunksize where_ = Err ReservedColumnError) /\
        (forall e,
            resolve_columns list_of_set fnmatch branches columns = Err e ->
            (exists p, e = PatternNotFoundError p) /\
            read_root list_of_set fnmatch eval_where file path tree_key columns
                      ignore chunksize where_ = Err e)).
Proof.
  intros los fnmatch eval_where file path tree_key columns ignore chunksize
         where_ key branches H L K B Hi.
  pose proof (read_selection_stages los fnmatch file path tree_key columns
                                    ignore key branches K B) as S.
  split; [|split].
  - intros all_vars R. now apply (resolve_columns_index los fnmatch branches columns).
  - intros k all_vars R. rewrite S in R.
    destruct (resolve_columns los fnmatch branches columns) as [v0|] eqn:C;
      cbn [bind] in R; [|discriminate].
    destruct (apply_ignore los fnmatch branches v0 ignore) as [v|] eqn:I;
      cbn [bind] in R; [|discriminate].
    injection R as _ <-.
    apply (apply_ignore_keeps_index los fnmatch branches v0 ignore v I).
    now apply (resolve_columns_index los fnmatch branches columns).
  - intros ignored G Gi. split.
    + intros all_vars C. unfold read_root. rewrite S, C. cbn [bind].
      now rewrite (apply_ignore_index los fnmatch branches all_vars ignore
                                      ignored H L G Gi).
    + intros e C. split.
      * now apply resolve_columns_error in C.
      * unfold read_root. now rewrite S, C.
Qed.

Lemma index_column_reserved_witness :
  read_root set_order glob_fnmatch any_entry
            (example_file [lit "t"] [lit "index"; lit "a"] 2)
            (lit "f.root") None (Patterns [lit "a"]) (Patterns [lit "index"])
            None None = Err ReservedColumnError.
Proof.
  assert (Hi : In (lit "index") [lit "index"; lit "a"]) by now left.
  exact (proj1 (proj2 (proj2
           (index_column_reserved set_order glob_fnmatch any_entry
              (example_file [lit "t"] [lit "index"; lit "a"] 2)
              (lit "f.root") None (Patterns [lit "a"]) (Patterns [lit "index"])
              None None (lit "t") [lit "index"; lit "a"]
              set_listing_set_order glob_literal eq_refl eq_refl Hi))
           [lit "index"] eq_refl (or_introl eq_refl))
           [lit "a"; lit "index"] eq_refl).
Defined.

(** C2 as stated fails: the ignore pattern "index" resolves to the
    column "index", and the load raises the PatternNotFoundError of the
    include pattern "zzz", not the ReservedColumnError. *)
Lemma index_column_reserved_counterexample :
  list_branches (example_file [lit "t"] [lit "index"; lit "a"] 2) (lit "t")
  = Ok [lit "index"; lit "a"] /\
  get_matching_variables glob_fnmatch [lit "index"; lit "a"] [lit "index"] false
  = Ok [lit "index"] /\
  read_root set_order glob_fnmatch any_entry
            (example_file [lit "t"] [lit "index"; lit "a"] 2)
            (lit "f.root") None (Patterns [lit "zzz"]) (Patterns [lit "index"])
            None None = Err (PatternNotFoundError (lit "zzz")) /\
  PatternNotFoundError (lit "zzz") <> ReservedColumnError.
Proof.
  repeat split; try reflexivity. discriminate.
Qed.

(** ** What the ignore stage removes *)

Lemma lazy_tail_no_close : forall s, has_char "}" s = false -> lazy_tail s = None.
Proof.
  induction s as [|c s IH]; intro H; [reflexivity|].
  cbn [has_char existsb] in H. apply orb_false_iff in H. destruct H as [_ Hs].
  cbn [lazy_tail]. destruct s as [|d s']; [reflexivity|].
  pose proof Hs as Hd. cbn [has_char existsb] in Hd.
  apply orb_false_iff in Hd. destruct Hd as [Hd _].
  rewrite Ascii.eqb_sym in Hd. rewrite Hd, andb_false_r.
  destruct (is_newline c); [reflexivity|]. now rewrite (IH Hs).
Qed.

Lemma group_at_no_close : forall s, has_char "}" s = false -> group_at s = None.
Proof.
  intros [|o [|x s]] H; try reflexivity.
  cbn [has_char existsb] in H. apply orb_false_iff in H. destruct H as [_ H].
  apply orb_false_iff in H. destruct H as [_ H].
  unfold group_at. rewrite (lazy_tail_no_close s H).
  now destruct (Ascii.eqb o "{" && negb (is_newline x)).
Qed.

Lemma match_at_no_close : forall s, has_char "}" s = false -> match_at s = None.
Proof.
  induction s as [|c s IH]; intro H; [reflexivity|].
  cbn [match_at]. rewrite (group_at_no_close _ H).
  cbn [has_char existsb] in H. apply orb_false_iff in H. destruct H as [_ Hs].
  rewrite (IH Hs). now destruct (is_newline c).
Qed.

Lemma search_no_close : forall s, has_char "}" s = false -> search s = None.
Proof.
  induction s as [|c s IH]; intro H; [reflexivity|].
  cbn [search]. rewrite (match_at_no_close _ H).
  cbn [has_char existsb] in H. apply orb_false_iff in H. destruct H as [_ Hs].
  now rewrite (IH Hs).
Qed.

Lemma unescape_close_no_close : forall s,
    has_char "}" s = false -> unescape_close s = s.
Proof.
  induction s as [|c s IH]; intro H; [reflexivity|].
  cbn [has_char existsb] in H. apply orb_false_iff in H. destruct H as [_ Hs].
  cbn [unescape_close]. destruct s as [|d s']; [reflexivity|].
  pose proof Hs as Hd. cbn [has_char existsb] in Hd.
  apply orb_false_iff in Hd. destruct Hd as [Hd _].
  rewrite Ascii.eqb_sym in Hd. rewrite Hd, andb_false_r. f_equal. now apply IH.
Qed.

(** A name without a closing brace expands to itself. *)
Lemma expand_braces_no_close : forall list_of_set s,
    set_listing list_of_set -> has_char "}" s = false ->
    expand_braces list_of_set s = [s].
Proof.
  intros los s H K. rewrite expand_braces_plain by (auto using search_no_close).
  now rewrite unescape_close_no_close.
Qed.

Lemma list_remove_NoDup : forall l x l',
    NoDup l -> list_remove l x = Ok l' ->
    NoDup l' /\ ~ In x l' /\ (forall y, In y l' -> In y l).
Proof.
  induction l as [|z l IH]; intros x l' N H; cbn [list_remove] in H;
    [discriminate|].
  inversion N as [|? ? Nz Nl]; subst.
  destruct (str_eqb z x) eqn:E.
  - injection H as <-. apply str_eqb_eq in E. subst z.
    repeat split; [assumption | assumption | intros y Hy; now right].
  - destruct (list_remove l x) as [l''|] eqn:R; cbn [bind] in H; [|discriminate].
    injection H as <-. destruct (IH x l'' Nl R) as [N' [A S]].
    apply str_eqb_neq in E. repeat split.
    + constructor; [|assumption]. intro K. apply Nz. now apply S.
    + intros [K|K]; [contradiction | now apply A].
    + intros y [<-|Hy]; [now left | right; now apply S].
Qed.

Lemma remove_all_removes : forall ignored l l',
    NoDup l -> remove_all l ignored = Ok l' ->
    NoDup l' /\ (forall x, In x ignored -> ~ In x l') /\
    (forall y, In y l' -> In y l).
Proof.
  induction ignored as [|v ignored IH]; intros l l' N H; cbn [remove_all] in H.
  - injection H as <-. repeat split; [assumption | intros x [] | auto].
  - destruct (list_remove l v) as [l1|] eqn:R; cbn [bind] in H; [|discriminate].
    destruct (list_remove_NoDup l v l1 N R) as [N1 [A1 S1]].
    destruct (IH l1 l' N1 H) as [N' [A S]].
    repeat split; [assumption | | auto].
    intros x [<-|Hx]; [|now apply A]. intro K. apply A1. now apply S.
Qed.

(** With include patterns given, no name that the brace expansion of a
    column matched by an ignore pattern gives is left in the selection;
    a matched column without a closing brace in its name is such a
    name. *)
Lemma ignored_expansions_removed :
  forall list_of_set fnmatch file path tree_key columns ignore key branches
         k all_vars,
    truthy columns = true -> truthy ignore = true ->
    resolve_tree_key file path tree_key = Ok key ->
    list_branches file key = Ok branches ->
    read_selection list_of_set fnmatch file path tree_key columns ignore
    = Ok (k, all_vars) ->
    forall b x,
      In b (select_spec fnmatch branches (as_list ignore)) ->
      In x (expand_braces list_of_set b) ->
      ~ In x all_vars.
Proof.
  intros los fnmatch file path tree_key columns ignore key branches k all_vars
         Tc Ti K B R b x Hb Hx.
  rewrite (read_selection_stages los fnmatch file path tree_key columns ignore
                                 key branches K B) in R.
  destruct (resolve_columns los fnmatch branches columns) as [v0|] eqn:C;
    cbn [bind] in R; [|discriminate].
  destruct (apply_ignore los fnmatch branches v0 ignore) as [v|] eqn:I;
    cbn [bind] in R; [|discriminate].
  injection R as _ <-.
  assert (N0 : NoDup v0).
  { unfold resolve_columns in C. rewrite Tc in C. cbn [negb] in C.
    rewrite get_matching_variables_spec in C.
    match type of C with
    | match ?u with _ => _ end = _ => destruct u; [discriminate|]
    end.
    injection C as <-. apply keep_first_NoDup. }
  unfold apply_ignore in I. rewrite Ti in I.
  rewrite get_matching_variables_spec in I. cbn [bind] in I.
  match type of I with
  | (if ?c then _ else _) = _ => destruct c; [discriminate|]
  end.
  destruct (remove_all_removes _ _ _ N0 I) as [_ [A _]].
  apply A. apply in_flat_map. now exists b.
Qed.

Lemma ignored_columns_removed :
  forall list_of_set fnmatch file path tree_key columns ignore key branches
         k all_vars,
    set_listing list_of_set ->
    truthy columns = true -> truthy ignore = true ->
    resolve_tree_key file path tree_key = Ok key ->
    list_branches file key = Ok branches ->
    read_selection list_of_set fnmatch file path tree_key columns ignore
    = Ok (k, all_vars) ->
    forall b,
      In b (select_spec fnmatch branches (as_list ignore)) ->
      has_char "}" b = false ->
      ~ In b all_vars.
Proof.
  intros los fnmatch file path tree_key columns ignore key branches k all_vars
         H Tc Ti K B R b Hb Hc.
  apply (ignored_expansions_removed los fnmatch file path tree_key columns
                                    ignore key branches k all_vars Tc Ti K B R b);
    [assumption|].
  rewrite expand_braces_no_close by assumption. now left.
Qed.

(** The include pattern "A*" with the ignore pattern "AB". *)
Example ignore_overrides_include :
  read_selection set_order glob_fnmatch
                 (example_file [lit "t"] [lit "AA"; lit "AB"; lit "C"] 2)
                 (lit "f.root") None (Patterns [lit "A*"]) (Patterns [lit "AB"])
  = Ok (lit "t", [lit "AA"]).
Proof. reflexivity. Qed.

(** An ignore pattern with a brace group is matched as it stands, the
    braces taken literally, and so ignores nothing here. *)
Example ignore_braces_match_nothing :
  read_selection set_order glob_fnmatch
                 (example_file [lit "t"] [lit "AB"; lit "AC"; lit "D"] 2)
                 (lit "f.root") None NoPatterns (Patterns [lit "A{B,C}"])
  = Ok (lit "t", [lit "AB"; lit "AC"; lit "D"]).
Proof. reflexivity. Qed.

(** C3: the code at a failing input.  The tree has the branches
    "x{a,b}", "xa" and "xb"; the include pattern "x*" selects the three,
    the ignore pattern "x{*" matches the column "x{a,b}" alone.  The
    name of the matched column is then brace-expanded into "xa" and
    "xb", and these two are removed: the matched column stays in the
    selection, whatever the order in which the expansion is listed. *)
Theorem ignore_expands_matched_names : forall list_of_set,
    set_listing list_of_set ->
    get_matching_variables glob_fnmatch [lit "x{a,b}"; lit "xa"; lit "xb"]
                           [lit "x{*"] false = Ok [lit "x{a,b}"] /\
    read_selection list_of_set glob_fnmatch
                   (example_file [lit "t"] [lit "x{a,b}"; lit "xa"; lit "xb"] 2)
                   (lit "f.root") None (Patterns [lit "x*"]) (Patterns [lit "x{*"])
    = Ok (lit "t", [lit "x{a,b}"]).
Proof.
  intros los H. split; [reflexivity|].
  assert (E1 : expand_braces los (lit "x*") = [lit "x*"])
    by now apply expand_braces_plain.
  assert (E2 : expand_braces los (lit "x{a,b}") = [lit "xa"; lit "xb"] \/
               expand_braces los (lit "x{a,b}") = [lit "xb"; lit "xa"]).
  { pose proof (expand_braces_order los set_order (lit "x{a,b}") H
                                    set_listing_set_order) as P.
    replace (expand_braces set_order (lit "x{a,b}"))
      with [lit "xa"; lit "xb"] in P by reflexivity.
    now apply Permutation_length_2_inv, Permutation_sym. }
  rewrite (read_selection_stages los glob_fnmatch
             (example_file [lit "t"] [lit "x{a,b}"; lit "xa"; lit "xb"] 2)
             (lit "f.root") None (Patterns [lit "x*"]) (Patterns [lit "x{*"])
             (lit "t") [lit "x{a,b}"; lit "xa"; lit "xb"] eq_refl eq_refl).
  unfold resolve_columns, apply_ignore.
  cbn [truthy negb as_list flat_map].
  change (mem (lit "index") [lit "x{a,b}"; lit "xa"; lit "xb"]) with false.
  cbv iota. cbn [flat_map]. rewrite E1.
  change (get_matching_variables glob_fnmatch [lit "x{a,b}"; lit "xa"; lit "xb"]
            ([lit "x*"] ++ []) true)
    with (Ok (A := list str) [lit "x{a,b}"; lit "xa"; lit "xb"]).
  cbn [bind].
  change (get_matching_variables glob_fnmatch [lit "x{a,b}"; lit "xa"; lit "xb"]
            [lit "x{*"] false)
    with (Ok (A := list str) [lit "x{a,b}"]).
  cbn [bind flat_map]. destruct E2 as [-> | ->]; reflexivity.
Qed.

Lemma ignore_expands_matched_names_witness :
  set_listing set_order /\
  read_selection set_order glob_fnmatch
                 (example_file [lit "t"] [lit "x{a,b}"; lit "xa"; lit "xb"] 2)
                 (lit "f.root") None (Patterns [lit "x*"]) (Patterns [lit "x{*"])
  = Ok (lit "t", [lit "x{a,b}"]).
Proof.
  split.
  - exact set_listing_set_order.
  - exact (proj2 (ignore_expands_matched_names set_order set_listing_set_order)).
Defined.

(** ** Chunked reads *)



Lemma slice_bound_nat : forall n i, slice_bound n (Z.of_nat i) = Nat.min i n.
Proof.
  intros n i. unfold slice_bound.
  destruct (Z.ltb_spec (Z.of_nat i) 0) as [H|H]; [lia|].
  now rewrite Nat2Z.id.
Qed.

Lemma row_range_all : forall (A : Type) (l : list A), row_range l None None = l.
Proof.
  intros A l. unfold row_range. rewrite Nat.sub_0_r. cbn [skipn].
  apply firstn_all.
Qed.

Lemma row_range_chunk : forall (A : Type) (l : list A) c k,
    row_range l (Some (Z.of_nat k * Z.of_nat c)%Z)
              (Some ((Z.of_nat k + 1) * Z.of_nat c)%Z) = chunk_rows l c k.
Proof.
  intros A l c k. unfold row_range, chunk_rows.
  replace (Z.of_nat k * Z.of_nat c)%Z with (Z.of_nat (k * c)) by lia.
  replace ((Z.of_nat k + 1) * Z.of_nat c)%Z with (Z.of_nat ((k + 1) * c)) by lia.
  rewrite !slice_bound_nat.
  destruct (Nat.le_ge_cases (k * c) (length l)) as [Hl|Hg].
  - now rewrite (Nat.min_l (k * c)) by assumption.
  - rewrite (Nat.min_r (k * c)) by assumption.
    rewrite (Nat.min_r ((k + 1) * c)) by lia.
    replace (length l - k * c) with 0 by lia.
    now rewrite Nat.sub_diag.
Qed.



(** ** The count of chunks in double precision *)

Lemma pow2_pos : forall e, (0 < pow2 e)%Z.
Proof.
  intros e. unfold pow2. apply Z.pow_pos_nonneg; lia.
Qed.

Lemma pow2_nonneg : forall e, (0 <= e)%Z -> pow2 e = (2 ^ e)%Z.
Proof.
  intros e H. unfold pow2. now rewrite Z.max_l by lia.
Qed.

Lemma pow2_nonpos : forall e, (e <= 0)%Z -> pow2 e = 1%Z.
Proof.
  intros e H. unfold pow2. now rewrite Z.max_r by lia.
Qed.

(** The rounded quotient is within a half of the exact one. *)
Lemma round_half_even_bounds : forall num den,
    (0 < den)%Z ->
    (- den <= 2 * (round_half_even num den * den - num) <= den)%Z.
Proof.
  intros num den H. unfold round_half_even.
  pose proof (Z.div_mod num den ltac:(lia)) as E.
  pose proof (Z.mod_pos_bound num den H) as B.
  destruct (2 * (num mod den) <? den)%Z eqn:L1;
    [apply Z.ltb_lt in L1; nia|apply Z.ltb_ge in L1].
  destruct (den <? 2 * (num mod den))%Z eqn:L2;
    [apply Z.ltb_lt in L2; nia|apply Z.ltb_ge in L2].
  destruct (Z.even (num / den)); nia.
Qed.

(** A quotient that is an integer is not rounded. *)
Lemma round_half_even_exact : forall k den,
    (0 < den)%Z -> round_half_even (k * den) den = k.
Proof.
  intros k den H. unfold round_half_even.
  rewrite Z.mod_mul by lia. rewrite Z.div_mul by lia.
  replace (2 * 0 <? den)%Z with true by (symmetry; apply Z.ltb_lt; lia).
  reflexivity.
Qed.

Lemma round_half_even_nonneg : forall num den,
    (0 <= num)%Z -> (0 < den)%Z -> (0 <= round_half_even num den)%Z.
Proof.
  intros num den Hn Hd. unfold round_half_even.
  pose proof (Z.div_pos num den Hn Hd) as Q.
  destruct (2 * (num mod den) <? den)%Z; [assumption|].
  destruct (den <? 2 * (num mod den))%Z; [lia|].
  destruct (Z.even (num / den)); lia.
Qed.

(** The exponent [l] that [nearest_double] takes for the leading bit of
    [n / c] is not above the one of the quotient. *)
Lemma leading_exponent : forall n c,
    (0 < n)%Z -> (0 < c)%Z ->
    let d := (Z.log2 n - Z.log2 c)%Z in
    let l := if (c * pow2 d <=? n * pow2 (- d))%Z then d else (d - 1)%Z in
    (c * pow2 l <= n * pow2 (- l))%Z /\ (d - 1 <= l <= d)%Z.
Proof.
  intros n c Hn Hc d l. subst l.
  destruct (c * pow2 d <=? n * pow2 (- d))%Z eqn:T.
  - apply Z.leb_le in T. split; [assumption|lia].
  - split; [|lia].
    destruct (Z.log2_spec n Hn) as [N1 _].
    destruct (Z.log2_spec c Hc) as [_ C2].
    pose proof (Z.log2_nonneg n) as Ln. pose proof (Z.log2_nonneg c) as Lc.
    destruct (Z_le_gt_dec 1 d) as [D|D].
    + rewrite (pow2_nonneg (d - 1)) by lia.
      rewrite (pow2_nonpos (- (d - 1))) by lia.
      assert (E : (2 ^ Z.log2 n = 2 ^ Z.succ (Z.log2 c) * 2 ^ (d - 1))%Z).
      { rewrite <- Z.pow_add_r by lia. f_equal. unfold d. lia. }
      assert (P : (0 < 2 ^ (d - 1))%Z) by (apply Z.pow_pos_nonneg; lia).
      nia.
    + rewrite (pow2_nonpos (d - 1)) by lia.
      rewrite (pow2_nonneg (- (d - 1))) by lia.
      assert (E : (2 ^ Z.succ (Z.log2 c) = 2 ^ Z.log2 n * 2 ^ (- (d - 1)))%Z).
      { rewrite <- Z.pow_add_r by lia. f_equal. unfold d. lia. }
      assert (P : (0 < 2 ^ (- (d - 1)))%Z) by (apply Z.pow_pos_nonneg; lia).
      nia.
Qed.

(** Below 2^53 the rounding of the quotient never reaches the next
    integer: the ceiling of the double is the one of the exact quotient. *)
Lemma nearest_double_ceil : forall n c,
    (0 < n < 2 ^ 53)%Z -> (0 < c < 2 ^ 53)%Z ->
    double_ceil (nearest_double n c) = ceil_div n c.
Proof.
  intros n c Hn Hc. unfold nearest_double.
  destruct (leading_exponent n c ltac:(lia) ltac:(lia)) as [L [Ld Ld']].
  set (d := (Z.log2 n - Z.log2 c)%Z) in *.
  set (l := if (c * pow2 d <=? n * pow2 (- d))%Z then d else (d - 1)%Z) in *.
  cbv zeta.
  assert (Lc : (Z.log2 c < 53)%Z) by (apply Z.log2_lt_pow2; lia).
  pose proof (Z.log2_nonneg n) as Ln.
  assert (U : (l <= 52)%Z).
  { destruct (Z_le_gt_dec l 52) as [|G]; [assumption|exfalso].
    rewrite (pow2_nonneg l) in L by lia.
    rewrite (pow2_nonpos (- l)) in L by lia.
    assert (P : (2 ^ 53 <= 2 ^ l)%Z) by (apply Z.pow_le_mono_r; lia).
    nia. }
  rewrite (Z.max_l (l - 52) (-1074)) by (unfold d in *; lia).
  set (s := (52 - l)%Z).
  replace (- (l - 52))%Z with s by (unfold s; lia).
  rewrite (pow2_nonneg s) by (unfold s; lia).
  rewrite (pow2_nonpos (l - 52)) by lia.
  rewrite Z.mul_1_r.
  assert (P : (0 < 2 ^ s)%Z) by (apply Z.pow_pos_nonneg; unfold s; lia).
  (* the chunk size is below twice the scaling *)
  assert (C : (c < 2 * 2 ^ s)%Z).
  { replace (2 * 2 ^ s)%Z with (2 ^ (53 - l))%Z
      by (replace (53 - l)%Z with (Z.succ s) by (unfold s; lia);
          rewrite Z.pow_succ_r by (unfold s; lia); reflexivity).
    destruct (Z_le_gt_dec 0 l) as [G|G].
    - rewrite (pow2_nonneg l) in L by lia.
      rewrite (pow2_nonpos (- l)) in L by lia.
      assert (E : (2 ^ 53 = 2 ^ (53 - l) * 2 ^ l)%Z)
        by (rewrite <- Z.pow_add_r by lia; f_equal; lia).
      assert (P' : (0 < 2 ^ l)%Z) by (apply Z.pow_pos_nonneg; lia).
      nia.
    - rewrite (pow2_nonpos l) in L by lia.
      rewrite (pow2_nonneg (- l)) in L by lia.
      assert (E : (2 ^ (53 - l) = 2 ^ 53 * 2 ^ (- l))%Z)
        by (rewrite <- Z.pow_add_r by lia; f_equal; lia).
      assert (P' : (0 < 2 ^ (- l))%Z) by (apply Z.pow_pos_nonneg; lia).
      nia. }
  set (m := round_half_even (n * 2 ^ s) c).
  assert (K : (- ((- m) / 2 ^ s) = ceil_div n c)%Z).
  { unfold ceil_div. f_equal.
    pose proof (Z.div_mod n c ltac:(lia)) as E.
    pose proof (Z.mod_pos_bound n c ltac:(lia)) as B.
    destruct (Z.eq_dec (n mod c) 0) as [R|R].
    - assert (M : m = (n / c * 2 ^ s)%Z).
      { unfold m. replace (n * 2 ^ s)%Z with (n / c * 2 ^ s * c)%Z by nia.
        apply round_half_even_exact. lia. }
      rewrite M.
      replace (- (n / c * 2 ^ s))%Z with (- (n / c) * 2 ^ s)%Z by lia.
      rewrite Z.div_mul by lia.
      apply (Z.div_unique (- n) c (- (n / c)) 0); lia.
    - pose proof (round_half_even_bounds (n * 2 ^ s) c ltac:(lia)) as Rb.
      fold m in Rb.
      assert (M1 : (n / c * 2 ^ s < m)%Z) by nia.
      assert (M2 : (m <= (n / c + 1) * 2 ^ s)%Z) by nia.
      rewrite <- (Z.div_unique (- n) c (- (n / c + 1)) (c - n mod c)) by lia.
      symmetry.
      apply (Z.div_unique (- m) (2 ^ s) (- (n / c + 1))
                          ((n / c + 1) * 2 ^ s - m)); lia. }
  unfold double_ceil.
  destruct (0 <=? l - 52)%Z eqn:Z0.
  - apply Z.leb_le in Z0. assert (s = 0%Z) by (unfold s; lia).
    replace (l - 52)%Z with 0%Z by lia.
    rewrite <- K. replace (2 ^ s)%Z with 1%Z by (subst s; replace (52 - l)%Z with 0%Z by lia; reflexivity).
    rewrite Z.div_1_r. change (2 ^ 0)%Z with 1%Z. lia.
  - replace (- (l - 52))%Z with s by (unfold s; lia). exact K.
Qed.

Lemma round_half_even_floor : forall num den,
    (num / den <= round_half_even num den)%Z.
Proof.
  intros num den. unfold round_half_even.
  destruct (2 * (num mod den) <? den)%Z; [lia|].
  destruct (den <? 2 * (num mod den))%Z; [lia|].
  destruct (Z.even (num / den)); lia.
Qed.

(** An integer below [2^1024 - 2^970] in absolute value converts to a
    double of the same sign, itself when it is below 2^53, and at least
    2^53 in absolute value otherwise. *)
Lemma double_of_int_finite : forall c,
    (Z.abs c < 2 ^ 1024 - 2 ^ 970)%Z ->
    exists y,
      double_of_int c = Ok y /\
      Z.sgn y = Z.sgn c /\
      (Z.abs y < 2 ^ 1024)%Z /\
      ((Z.abs c < 2 ^ 53)%Z -> y = c) /\
      ((2 ^ 53 <= Z.abs c)%Z -> (2 ^ 53 <= Z.abs y)%Z).
Proof.
  intros c Hc. unfold double_of_int.
  destruct (Z.abs c <? 2 ^ 53)%Z eqn:Small.
  - apply Z.ltb_lt in Small. exists c.
    split; [reflexivity|]. split; [reflexivity|].
    split; [|split; [reflexivity|lia]].
    assert ((2 ^ 53 < 2 ^ 1024)%Z) by (apply Z.pow_lt_mono_r; lia). lia.
  - apply Z.ltb_ge in Small.
    set (a := Z.abs c) in *.
    assert (A0 : (0 < a)%Z).
    { assert ((0 < 2 ^ 53)%Z) by (apply Z.pow_pos_nonneg; lia). lia. }
    unfold nearest_double.
    change (Z.log2 1) with 0%Z. rewrite Z.sub_0_r.
    destruct (Z.log2_spec a A0) as [S1 S2].
    assert (D53 : (53 <= Z.log2 a)%Z) by (apply Z.log2_le_pow2; lia).
    assert (D1024 : (Z.log2 a < 1024)%Z).
    { apply Z.log2_lt_pow2; [lia|].
      assert ((0 < 2 ^ 970)%Z) by (apply Z.pow_pos_nonneg; lia). lia. }
    set (d := Z.log2 a) in *.
    rewrite (pow2_nonneg d), (pow2_nonpos (- d)) by lia.
    replace (1 * 2 ^ d <=? a * 1)%Z with true
      by (symmetry; apply Z.leb_le; lia).
    rewrite (Z.max_l (d - 52) (-1074)) by lia.
    rewrite (pow2_nonneg (d - 52)), (pow2_nonpos (- (d - 52))) by lia.
    rewrite Z.mul_1_r, Z.mul_1_l.
    set (e := (d - 52)%Z).
    set (m := round_half_even a (2 ^ e)).
    assert (P : (0 < 2 ^ e)%Z) by (apply Z.pow_pos_nonneg; unfold e; lia).
    pose proof (round_half_even_bounds a (2 ^ e) P) as Rb. fold m in Rb.
    assert (E971 : (2 ^ e <= 2 ^ 971)%Z)
      by (apply Z.pow_le_mono_r; unfold e; lia).
    assert (T : (2 ^ 1024 = 2 * 2 ^ 53 * 2 ^ 970)%Z)
      by reflexivity.
    assert (T' : (2 ^ 971 = 2 * 2 ^ 970)%Z)
      by reflexivity.
    assert (Fin : (m * 2 ^ e < 2 ^ 1024)%Z) by lia.
    assert (M52 : (2 ^ 52 <= m)%Z).
    { apply Z.le_trans with (a / 2 ^ e)%Z; [|apply round_half_even_floor].
      apply Z.div_le_lower_bound; [assumption|].
      rewrite <- Z.pow_add_r by (unfold e; lia).
      replace (e + 52)%Z with d by (unfold e; lia). exact S1. }
    assert (Big : (2 ^ 53 <= m * 2 ^ e)%Z).
    { assert (E1 : (2 ^ 1 <= 2 ^ e)%Z)
        by (apply Z.pow_le_mono_r; unfold e; lia).
      change (2 ^ 1)%Z with 2%Z in E1.
      assert (T52 : (2 ^ 53 = 2 ^ 52 * 2)%Z)
        by reflexivity.
      rewrite T52. apply Z.mul_le_mono_nonneg; lia. }
    replace (2 ^ 1024 <=? m * 2 ^ e)%Z with false
      by (symmetry; apply Z.leb_gt; exact Fin).
    exists (Z.sgn c * (m * 2 ^ e))%Z.
    assert (C0 : c <> 0%Z) by (unfold a in A0; lia).
    assert (Pm : (0 < m * 2 ^ e)%Z).
    { assert ((0 < 2 ^ 53)%Z) by (apply Z.pow_pos_nonneg; lia). lia. }
    split; [reflexivity|].
    split; [|split; [|split; [unfold a in *; lia|intros _]]].
    + destruct (Z.sgn_spec c) as [[? ->]|[[? ->]|[? ->]]];
        [|lia|]; destruct (m * 2 ^ e)%Z; try lia; reflexivity.
    + destruct (Z.sgn_spec c) as [[? ->]|[[? ->]|[? ->]]]; lia.
    + destruct (Z.sgn_spec c) as [[? ->]|[[? ->]|[? ->]]]; lia.
Qed.

(** The quotient of a positive double by a larger one is rounded to a
    double above 0 and not above 1, be it a subnormal one. *)
Lemma nearest_double_ceil_one : forall n y,
    (0 < n < y)%Z -> (y < 2 ^ 1024)%Z ->
    double_ceil (nearest_double n y) = 1%Z.
Proof.
  intros n y Hn Hy. unfold nearest_double.
  destruct (leading_exponent n y ltac:(lia) ltac:(lia)) as [L _].
  set (d := (Z.log2 n - Z.log2 y)%Z) in *.
  set (l := if (y * pow2 d <=? n * pow2 (- d))%Z then d else (d - 1)%Z) in *.
  cbv zeta.
  assert (Neg : (l < 0)%Z).
  { destruct (Z_le_gt_dec 0 l) as [G|G]; [exfalso|lia].
    rewrite (pow2_nonneg l), (pow2_nonpos (- l)) in L by lia.
    assert ((0 < 2 ^ l)%Z) by (apply Z.pow_pos_nonneg; lia). nia. }
  rewrite (pow2_nonpos l), (pow2_nonneg (- l)) in L by lia.
  set (e := Z.max (l - 52) (-1074)).
  assert (E : (e < 0)%Z) by (unfold e; lia).
  rewrite (pow2_nonneg (- e)), (pow2_nonpos e) by lia.
  rewrite Z.mul_1_r.
  assert (P : (0 < 2 ^ (- e))%Z) by (apply Z.pow_pos_nonneg; lia).
  set (m := round_half_even (n * 2 ^ (- e)) y).
  pose proof (round_half_even_bounds (n * 2 ^ (- e)) y ltac:(lia)) as Rb.
  fold m in Rb.
  (* the scaled quotient is above a half *)
  assert (Half : (y < 2 * (n * 2 ^ (- e)))%Z).
  { destruct (Z_le_gt_dec (-1074) (l - 52)) as [G|G].
    - replace (- e)%Z with (52 + - l)%Z by (unfold e; lia).
      rewrite Z.pow_add_r by lia.
      assert ((0 < 2 ^ 52)%Z) by (apply Z.pow_pos_nonneg; lia).
      assert ((0 < 2 ^ (- l))%Z) by (apply Z.pow_pos_nonneg; lia).
      nia.
    - replace (- e)%Z with 1074%Z by (unfold e; lia).
      assert ((2 ^ 1024 < 2 ^ 1074)%Z) by (apply Z.pow_lt_mono_r; lia).
      assert ((0 < 2 ^ 1074)%Z) by (apply Z.pow_pos_nonneg; lia).
      nia. }
  assert (M1 : (0 < m)%Z) by nia.
  assert (M2 : (m <= 2 ^ (- e))%Z) by nia.
  unfold double_ceil.
  replace (0 <=? e)%Z with false by (symmetry; apply Z.leb_gt; exact E).
  rewrite <- (Z.div_unique (- m) (2 ^ (- e)) (-1) (2 ^ (- e) - m)); lia.
Qed.

Lemma ceil_div_one : forall n c,
    (0 < n)%Z -> (n <= c)%Z -> ceil_div n c = 1%Z.
Proof.
  intros n c Hn Hc. unfold ceil_div.
  rewrite <- (Z.div_unique (- n) c (-1) (c - n)); lia.
Qed.

(** With fewer than 2^53 rows and a chunk size that converts to a
    double, line 125 gives the exact ceiling of the quotient. *)
Lemma chunk_count_exact : forall n c,
    (0 <= n < 2 ^ 53)%Z -> (0 < c < 2 ^ 1024 - 2 ^ 970)%Z ->
    chunk_count n c = Ok (ceil_div n c).
Proof.
  intros n c Hn Hc. unfold chunk_count.
  destruct (double_of_int_finite n) as [x [-> [_ [_ [Xs _]]]]].
  { assert ((2 ^ 53 < 2 ^ 1024 - 2 ^ 970)%Z); [|lia].
    assert (T : (2 ^ 1024 = 2 * 2 ^ 53 * 2 ^ 970)%Z)
      by reflexivity.
    assert ((0 < 2 ^ 53)%Z) by (apply Z.pow_pos_nonneg; lia).
    assert ((2 <= 2 ^ 970)%Z)
      by (change 2%Z with (2 ^ 1)%Z at 1; apply Z.pow_le_mono_r; lia).
    nia. }
  rewrite (Xs ltac:(lia)). clear x Xs.
  destruct (double_of_int_finite c) as [y [-> [Ys [Yf [Yx Yb]]]]]; [lia|].
  cbn [bind].
  assert (Y0 : (0 < y)%Z).
  { rewrite (Z.sgn_pos c) in Ys by lia. now apply Z.sgn_pos_iff. }
  replace (y =? 0)%Z with false by (symmetry; apply Z.eqb_neq; lia).
  f_equal. unfold double_div.
  destruct (n =? 0)%Z eqn:N0.
  - apply Z.eqb_eq in N0. subst n. reflexivity.
  - apply Z.eqb_neq in N0.
    rewrite (Z.abs_eq n), (Z.abs_eq y) by lia.
    rewrite (Z.sgn_pos n), (Z.sgn_pos y) by lia.
    destruct (Z_lt_ge_dec c (2 ^ 53)) as [C|C].
    + rewrite (Yx ltac:(lia)).
      rewrite <- (nearest_double_ceil n c) by lia.
      destruct (nearest_double n c) as [m e].
      now rewrite !Z.mul_1_l.
    + specialize (Yb ltac:(lia)).
      rewrite (ceil_div_one n c) by lia.
      pose proof (nearest_double_ceil_one n y ltac:(lia) ltac:(lia)) as O.
      destruct (nearest_double n y) as [m e].
      rewrite !Z.mul_1_l. exact O.
Qed.

(** A negative chunk size gives a count that is not positive. *)
Lemma chunk_count_negative : forall n c,
    (0 <= n < 2 ^ 1024 - 2 ^ 970)%Z -> (- (2 ^ 1024 - 2 ^ 970) < c < 0)%Z ->
    exists k, chunk_count n c = Ok k /\ (k <= 0)%Z.
Proof.
  intros n c Hn Hc. unfold chunk_count.
  destruct (double_of_int_finite n) as [x [-> [Xs _]]]; [lia|].
  destruct (double_of_int_finite c) as [y [-> [Ys _]]]; [lia|].
  cbn [bind].
  rewrite (Z.sgn_neg c) in Ys by lia. apply Z.sgn_neg_iff in Ys.
  replace (y =? 0)%Z with false by (symmetry; apply Z.eqb_neq; lia).
  eexists. split; [reflexivity|].
  unfold double_div.
  destruct (x =? 0)%Z eqn:X0; [cbn; lia|].
  apply Z.eqb_neq in X0.
  assert (Xp : (0 < x)%Z).
  { destruct (Z.eq_dec n 0) as [->|N0]; [cbn in Xs; destruct x; discriminate || lia|].
    rewrite (Z.sgn_pos n) in Xs by lia. now apply Z.sgn_pos_iff. }
  rewrite (Z.sgn_pos x), (Z.sgn_neg y) by lia.
  unfold nearest_double.
  set (e := Z.max _ (-1074)).
  set (m := round_half_even _ _).
  assert (M : (0 <= m)%Z).
  { apply round_half_even_nonneg.
    - pose proof (pow2_pos (- e)). nia.
    - pose proof (pow2_pos e). nia. }
  unfold double_ceil.
  destruct (0 <=? e)%Z eqn:E.
  - apply Z.leb_le in E.
    assert (P : (0 < 2 ^ e)%Z) by (apply Z.pow_pos_nonneg; lia). nia.
  - apply Z.leb_gt in E.
    assert (P : (0 < 2 ^ (- e))%Z) by (apply Z.pow_pos_nonneg; lia).
    replace (- (1 * -1 * m))%Z with m by lia.
    pose proof (Z.div_pos m (2 ^ (- e)) M P). lia.
Qed.

(** No row, no chunk. *)
Lemma chunk_count_zero : forall c,
    (Z.abs c < 2 ^ 1024 - 2 ^ 970)%Z -> c <> 0%Z -> chunk_count 0 c = Ok 0%Z.
Proof.
  intros c Hc C0. unfold chunk_count.
  change (double_of_int 0) with (@Ok Z 0%Z).
  destruct (double_of_int_finite c Hc) as [y [-> [Ys _]]].
  cbn [bind].
  assert (Y0 : y <> 0%Z) by (intros ->; cbn in Ys; destruct c; discriminate || lia).
  replace (y =? 0)%Z with false by (symmetry; apply Z.eqb_neq; lia).
  reflexivity.
Qed.

(** An integer of absolute value [2^1024 - 2^970] or more is rounded to
    2^1024 or more, which no double holds. *)
Lemma double_of_int_overflow : forall c,
    (2 ^ 1024 - 2 ^ 970 <= Z.abs c)%Z -> double_of_int c = Err OverflowError.
Proof.
  intros c Hc. unfold double_of_int.
  set (a := Z.abs c) in *.
  assert (T : (2 ^ 1024 = 2 * 2 ^ 53 * 2 ^ 970)%Z) by reflexivity.
  assert (T' : (2 ^ 971 = 2 * 2 ^ 970)%Z) by reflexivity.
  assert (P53 : (0 < 2 ^ 53)%Z) by (apply Z.pow_pos_nonneg; lia).
  assert (P970 : (0 < 2 ^ 970)%Z) by (apply Z.pow_pos_nonneg; lia).
  assert (Big : (2 ^ 1023 <= a)%Z).
  { assert (T3 : (2 ^ 1024 = 2 * 2 ^ 1023)%Z) by reflexivity.
    assert (T4 : (2 ^ 1023 = 2 ^ 53 * 2 ^ 970)%Z) by reflexivity. nia. }
  assert (A0 : (0 < a)%Z).
  { assert ((0 < 2 ^ 1023)%Z) by (apply Z.pow_pos_nonneg; lia). lia. }
  replace (a <? 2 ^ 53)%Z with false
    by (symmetry; apply Z.ltb_ge;
        assert ((2 ^ 53 <= 2 ^ 1023)%Z) by (apply Z.pow_le_mono_r; lia); lia).
  unfold nearest_double.
  change (Z.log2 1) with 0%Z. rewrite Z.sub_0_r.
  destruct (Z.log2_spec a A0) as [S1 S2].
  assert (D : (1023 <= Z.log2 a)%Z) by (apply Z.log2_le_pow2; lia).
  set (d := Z.log2 a) in *.
  rewrite (pow2_nonneg d), (pow2_nonpos (- d)) by lia.
  replace (1 * 2 ^ d <=? a * 1)%Z with true
    by (symmetry; apply Z.leb_le; lia).
  rewrite (Z.max_l (d - 52) (-1074)) by lia.
  rewrite (pow2_nonneg (d - 52)), (pow2_nonpos (- (d - 52))) by lia.
  rewrite Z.mul_1_r, Z.mul_1_l.
  set (e := (d - 52)%Z).
  assert (P : (0 < 2 ^ e)%Z) by (apply Z.pow_pos_nonneg; unfold e; lia).
  assert (Ed : (2 ^ d = 2 ^ 52 * 2 ^ e)%Z)
    by (rewrite <- Z.pow_add_r by (unfold e; lia); f_equal; unfold e; lia).
  assert (Over : (2 ^ 1024 <= round_half_even a (2 ^ e) * 2 ^ e)%Z).
  { destruct (Z_le_gt_dec 1024 d) as [G|G].
    - assert (M52 : (2 ^ 52 <= round_half_even a (2 ^ e))%Z).
      { apply Z.le_trans with (a / 2 ^ e)%Z; [|apply round_half_even_floor].
        apply Z.div_le_lower_bound; [assumption|]. lia. }
      assert ((2 ^ 1024 <= 2 ^ d)%Z) by (apply Z.pow_le_mono_r; lia).
      nia.
    - assert (E971 : e = 971%Z) by (unfold e; lia).
      rewrite E971 in *. clear Ed.
      assert (S2' : (a < 2 ^ 1024)%Z).
      { replace (Z.succ d) with 1024%Z in S2 by lia. exact S2. }
      unfold round_half_even.
      pose proof (Z.div_mod a (2 ^ 971) ltac:(lia)) as Dm.
      pose proof (Z.mod_pos_bound a (2 ^ 971) ltac:(lia)) as Bm.
      assert (Q : (a / 2 ^ 971 = 2 ^ 53 - 1)%Z) by nia.
      assert (R : (2 ^ 970 <= a mod 2 ^ 971)%Z) by nia.
      replace (2 * (a mod 2 ^ 971) <? 2 ^ 971)%Z with false
        by (symmetry; apply Z.ltb_ge; lia).
      rewrite Q. change (Z.even (2 ^ 53 - 1)) with false.
      destruct (2 ^ 971 <? 2 * (a mod 2 ^ 971))%Z; lia. }
  replace (2 ^ 1024 <=? round_half_even a (2 ^ e) * 2 ^ e)%Z with true
    by (symmetry; apply Z.leb_le; exact Over).
  reflexivity.
Qed.

Lemma chunk_count_overflow : forall n c,
    (0 <= n < 2 ^ 1024 - 2 ^ 970)%Z -> (2 ^ 1024 - 2 ^ 970 <= Z.abs c)%Z ->
    chunk_count n c = Err OverflowError.
Proof.
  intros n c Hn Hc. unfold chunk_count.
  destruct (double_of_int_finite n) as [x [-> _]]; [lia|].
  cbn [bind]. now rewrite double_of_int_overflow.
Qed.

(** Values of the arithmetic of line 125.  A tie goes to the double of
    even significand: 2^53 + 1 is rounded down and 2^53 + 3 up; the
    largest integer that converts gives the largest double.  The
    ceiling of a negative quotient is the one towards zero, a quotient
    in the subnormal numbers is above zero, and of 2^53 + 1 rows read
    one at a time the last one is in no chunk. *)
Example double_arithmetic_values :
  double_of_int (2 ^ 53 + 1) = Ok (2 ^ 53)%Z /\
  double_of_int (2 ^ 53 + 3) = Ok (2 ^ 53 + 4)%Z /\
  double_of_int (2 ^ 1024 - 2 ^ 970 - 1) = Ok (2 ^ 1024 - 2 ^ 971)%Z /\
  chunk_count 10 3 = Ok 4%Z /\
  chunk_count 7 (-2) = Ok (-3)%Z /\
  chunk_count 1 (2 ^ 1023) = Ok 1%Z /\
  chunk_count (2 ^ 53 + 1) 1 = Ok (2 ^ 53)%Z.
Proof. vm_compute. repeat split. Qed.


Section ChunkFacts.

Variable eval_where : str -> Entry -> bool.

(** A table is made row by row. *)
Lemma table_of_values : forall all_vars where_ rows,
    df_values (table_of eval_where all_vars where_ rows) =
    map (fun e : Entry =>
           if mem (lit "index") all_vars
           then drop_field (lit "index") all_vars (map e all_vars)
           else map e all_vars)
        (match where_ with
         | Some w => filter (eval_where w) rows
         | None => rows
         end).
Proof.
  intros all_vars where_ rows. unfold table_of, convert_to_dataframe.
  cbn [dtype_names records]. destruct (mem (lit "index") all_vars).
  - cbn [from_records_index df_values dtype_names records]. apply map_map.
  - reflexivity.
Qed.





Lemma root2array_table : forall file key tree all_vars start stop where_,
    open_tree file key = Ok tree ->
    (arr <- root2array eval_where file key all_vars start stop where_ ;;
     Ok (convert_to_dataframe arr)) =
    Ok (table_of eval_where all_vars where_
                 (row_range (tree_entries tree) start stop)).
Proof.
  intros file key tree all_vars start stop where_ T.
  unfold root2array. rewrite T. reflexivity.
Qed.

(** The generator reads the chunks of the tree one after the other. *)
Lemma genchunks_tables : forall file key tree all_vars n c n_chunks where_,
    open_tree file key = Ok tree ->
    chunk_count n (Z.of_nat c) = Ok n_chunks ->
    genchunks eval_where file key all_vars n (Z.of_nat c) where_ =
    map Ok
        (map (fun k => table_of eval_where all_vars where_
                                (chunk_rows (tree_entries tree) c k))
             (seq 0 (Z.to_nat n_chunks))).
Proof.
  intros file key tree all_vars n c n_chunks where_ T N.
  unfold genchunks, range. rewrite N.
  rewrite !map_map. apply map_ext. intro k.
  rewrite (root2array_table file key tree) by assumption.
  now rewrite row_range_chunk.
Qed.

End ChunkFacts.




(** The chunks of ten rows read three at a time hold 3, 3, 3 and 1
    rows. *)
Example chunked_read_row_counts :
  match read_root set_order glob_fnmatch any_entry
                  (example_file [lit "t"] [lit "a"] 10) (lit "f.root")
                  None NoPatterns NoPatterns (Some 3%Z) None with
  | Ok (Chunks dfs) =>
      map (fun r => match r with
                    | Ok d => Some (length (df_values d))
                    | Err _ => None
                    end) dfs
  | _ => []
  end = [Some 3; Some 3; Some 3; Some 1].
Proof. vm_compute. reflexivity. Qed.

(** * Further properties of the module *)

(** ** The brace expander on every string *)

Lemma split_nonempty : forall sep s, split sep s <> [].
Proof.
  intros sep s. destruct s as [|c s]; cbn [split]; [discriminate|].
  destruct (Ascii.eqb c sep); [discriminate|].
  destruct (split sep s); discriminate.
Qed.

Lemma set_listing_nonempty : forall list_of_set l,
    set_listing list_of_set -> l <> [] -> list_of_set l <> [].
Proof.
  intros los l H N E. destruct l as [|x l]; [contradiction|].
  assert (K : In x (los (x :: l))) by (apply set_listing_In; [assumption | now left]).
  rewrite E in K. contradiction.
Qed.

Lemma expand_braces_nonempty_bounded : forall list_of_set,
    set_listing list_of_set ->
    forall n s, depth_bound s < n -> expand_braces list_of_set s <> [].
Proof.
  intros los H. induction n as [|n IH]; intros s Hn; [lia|].
  rewrite expand_braces_eq. apply set_listing_nonempty; [assumption|].
  destruct (search s) as [m|] eqn:Hs; [|discriminate].
  destruct (has_char "," (group1 s m)).
  - destruct (split "," (strip (lit "{}") (group1 s m))) as [|pat pats] eqn:P.
    + now apply split_nonempty in P.
    + assert (Hp : In pat (split "," (strip (lit "{}") (group1 s m))))
        by (rewrite P; now left).
      destruct (substitute_alternative_bound s m pat Hs Hp) as [_ B].
      cbn [flat_map]. intro E. apply app_eq_nil in E. destruct E as [E _].
      revert E. apply IH. lia.
  - destruct (substitute_escape_bound s m Hs) as [_ B]. apply IH. lia.
Qed.

(** X1: on every string [expand_braces] returns at least one string,
    and no string twice. *)
Theorem expand_braces_some_distinct : forall list_of_set s,
    set_listing list_of_set ->
    expand_braces list_of_set s <> [] /\ NoDup (expand_braces list_of_set s).
Proof.
  intros los s H. split.
  - apply (expand_braces_nonempty_bounded los H (S (depth_bound s))). lia.
  - now apply expand_braces_NoDup.
Qed.

Lemma expand_braces_some_distinct_witness :
  set_listing set_order /\
  expand_braces set_order (lit "{{a,b},{c}}") <> [] /\
  NoDup (expand_braces set_order (lit "{{a,b},{c}}")).
Proof.
  split.
  - exact set_listing_set_order.
  - exact (expand_braces_some_distinct set_order (lit "{{a,b},{c}}")
             set_listing_set_order).
Defined.

(** X2: the order in which a set is listed reaches nothing but the
    order of the result: under two listings of sets [expand_braces]
    returns the same strings, each once. *)
Theorem expand_braces_set_determined : forall listing1 listing2 s,
    set_listing listing1 -> set_listing listing2 ->
    Permutation (expand_braces listing1 s) (expand_braces listing2 s).
Proof.
  intros l1 l2 s H1 H2. apply NoDup_Permutation.
  - now apply expand_braces_NoDup.
  - now apply expand_braces_NoDup.
  - intro x. apply (expand_braces_elements_bounded l1 l2 H1 H2
                      (S (depth_bound s))). lia.
Qed.

Lemma rev_nodup_listing : set_listing (fun l => rev (nodup str_dec l)).
Proof. intro l. apply Permutation_sym, Permutation_rev. Qed.

Lemma expand_braces_set_determined_witness :
  Permutation (expand_braces set_order (lit "{A,B}{C,D}"))
              (expand_braces (fun l => rev (nodup str_dec l)) (lit "{A,B}{C,D}")).
Proof.
  exact (expand_braces_set_determined set_order
           (fun l => rev (nodup str_dec l)) (lit "{A,B}{C,D}")
           set_listing_set_order rev_nodup_listing).
Defined.

Lemma unescape_close_inverse : forall s, unescape_close (escape_close s) = s.
Proof.
  induction s as [|c s IH]; [reflexivity|].
  rewrite escape_close_cons. pose proof (escape_close_head s) as Hd.
  destruct (Ascii.eqb_spec c "}") as [->|N].
  - cbn [app unescape_close]. now rewrite IH.
  - cbn [app unescape_close]. destruct (escape_close s) as [|d e] eqn:E.
    + rewrite <- IH. reflexivity.
    + rewrite Hd, andb_false_r. now rewrite IH.
Qed.


(** ** The brace expander on one group *)

Lemma has_char_app : forall c a b,
    has_char c (a ++ b) = has_char c a || has_char c b.
Proof. intros. unfold has_char. apply existsb_app. Qed.

Lemma has_char_cons : forall c x s,
    has_char c (x :: s) = Ascii.eqb c x || has_char c s.
Proof. reflexivity. Qed.

Lemma plain_chars : forall s,
    plain s = true ->
    has_char "{" s = false /\ has_char "}" s = false /\
    has_char "," s = false /\ has_char "\" s = false /\
    has_char "010" s = false.
Proof.
  induction s as [|x s IH]; intro H; [repeat split; reflexivity|].
  cbn [plain forallb] in H. apply andb_true_iff in H. destruct H as [Hx Hs].
  fold (plain s) in Hs. destruct (IH Hs) as [A [B [C [D E]]]].
  apply negb_true_iff in Hx. cbn [has_char existsb] in Hx.
  repeat (apply orb_false_iff in Hx; destruct Hx as [? Hx]).
  rewrite !has_char_cons, A, B, C, D, E.
  repeat split; rewrite orb_false_r; rewrite Ascii.eqb_sym; assumption.
Qed.

Lemma lazy_tail_body : forall body c post,
    has_char "}" (body ++ [c]) = false ->
    has_char "010" body = false ->
    c <> "\"%char ->
    lazy_tail (body ++ c :: "}"%char :: post) = Some (length body + 2).
Proof.
  induction body as [|b body IH]; intros c post Hc Hn N.
  - cbn [app lazy_tail]. apply Ascii.eqb_neq in N. now rewrite N.
  - cbn [app] in Hc. rewrite has_char_cons in Hc, Hn.
    apply orb_false_iff in Hc, Hn. destruct Hc as [_ Hc], Hn as [Hb Hn].
    assert (Hd : exists d rest, body ++ c :: "}"%char :: post = d :: rest /\
                                Ascii.eqb d "}" = false).
    { destruct body as [|d body'].
      - exists c, ("}"%char :: post). split; [reflexivity|].
        cbn [app] in Hc. rewrite has_char_cons in Hc.
        apply orb_false_iff in Hc. rewrite Ascii.eqb_sym. tauto.
      - exists d, (body' ++ c :: "}"%char :: post). split; [reflexivity|].
        cbn [app] in Hc. rewrite has_char_cons in Hc.
        apply orb_false_iff in Hc. rewrite Ascii.eqb_sym. tauto. }
    destruct Hd as [d [rest [E Hd]]].
    cbn [app lazy_tail]. rewrite E, Hd, andb_false_r.
    unfold is_newline. rewrite Ascii.eqb_sym, Hb. rewrite <- E.
    rewrite (IH c post Hc Hn N). reflexivity.
Qed.

(** A body of two characters or more, plain, between its braces is a
    group. *)
Lemma group_at_body : forall body post,
    has_char "}" body = false -> has_char "\" body = false ->
    has_char "010" body = false -> 2 <= length body ->
    group_at ("{"%char :: body ++ "}"%char :: post) = Some (length body + 2).
Proof.
  intros body post B D N L.
  destruct body as [|x rest]; [simpl in L; lia|].
  destruct (exists_last (l := rest)) as [mid [c E]];
    [intro K; subst rest; simpl in L; lia|].
  subst rest.
  rewrite has_char_cons in B, D, N.
  apply orb_false_iff in B, D, N.
  destruct B as [_ B], D as [_ D], N as [Nx N].
  rewrite has_char_app in D, N. apply orb_false_iff in D, N.
  destruct D as [_ D], N as [N _].
  rewrite has_char_cons in D. apply orb_false_iff in D. destruct D as [D _].
  cbn [app group_at]. rewrite Ascii.eqb_refl. unfold is_newline at 1.
  rewrite Ascii.eqb_sym, Nx. cbn [negb andb].
  rewrite <- app_assoc. cbn [app].
  rewrite (lazy_tail_body mid c post B N).
  - cbn [option_map length]. rewrite length_app. cbn [length]. f_equal. lia.
  - intro K. subst c. discriminate.
Qed.

Lemma match_at_open : forall tail n,
    has_char "{" tail = false ->
    group_at ("{"%char :: tail) = Some n ->
    match_at ("{"%char :: tail) = Some (0, n).
Proof.
  intros tail n H G. cbn [match_at].
  rewrite (match_at_no_open tail H), G. reflexivity.
Qed.

Lemma match_at_only_open : forall pre tail n,
    has_char "{" pre = false -> has_char "{" tail = false ->
    group_at ("{"%char :: tail) = Some n ->
    match_at (pre ++ "{"%char :: tail) =
    if has_char "010" pre then None else Some (length pre, n).
Proof.
  induction pre as [|c pre IH]; intros tail n Hp Ht G.
  - now apply match_at_open.
  - rewrite has_char_cons in Hp. apply orb_false_iff in Hp.
    destruct Hp as [Hc Hp]. cbn [app match_at]. rewrite has_char_cons.
    unfold is_newline. rewrite (Ascii.eqb_sym c "010").
    destruct (Ascii.eqb "010" c); [reflexivity|]. cbn [orb].
    rewrite (IH tail n Hp Ht G).
    destruct (has_char "010" pre); [|reflexivity].
    unfold group_at. destruct (pre ++ "{"%char :: tail); [reflexivity|].
    rewrite Ascii.eqb_sym, Hc. reflexivity.
Qed.

(** The only opening brace of a string, when a group starts there, is
    where the pattern finds its group. *)
Lemma search_only_open : forall pre tail n,
    has_char "{" pre = false -> has_char "{" tail = false ->
    group_at ("{"%char :: tail) = Some n ->
    search (pre ++ "{"%char :: tail) = Some (length pre, n).
Proof.
  induction pre as [|c pre IH]; intros tail n Hp Ht G.
  - cbn [app search]. now rewrite (match_at_open tail n Ht G).
  - pose proof (match_at_only_open (c :: pre) tail n Hp Ht G) as M.
    rewrite has_char_cons in Hp. apply orb_false_iff in Hp.
    destruct Hp as [_ Hp'].
    cbn [app] in M |- *. cbn [search]. rewrite M.
    destruct (has_char "010" (c :: pre)); [|reflexivity].
    now rewrite (IH tail n Hp' Ht G).
Qed.

Lemma find_from_only_open : forall pre sub rest i,
    has_char "{" pre = false ->
    starts_with ("{"%char :: sub) rest = true ->
    find_from ("{"%char :: sub) (pre ++ rest) i = Z.of_nat (i + length pre).
Proof.
  induction pre as [|c pre IH]; intros sub rest i Hp Hst.
  - cbn [app]. destruct rest as [|r rest]; [discriminate|].
    cbn [find_from]. rewrite Hst. f_equal. cbn [length]. lia.
  - rewrite has_char_cons in Hp. apply orb_false_iff in Hp.
    destruct Hp as [Hc Hp]. cbn [app find_from starts_with].
    rewrite Hc. cbn [andb]. rewrite (IH sub rest (S i) Hp Hst).
    f_equal. cbn [length]. lia.
Qed.

Lemma starts_with_app : forall p t, starts_with p (p ++ t) = true.
Proof. intros. apply starts_with_prefix. now exists t. Qed.

(** Where the one group of a string is, and what is put in its place. *)
Lemma one_group_step : forall pre body post,
    has_char "{" pre = false -> has_char "{" post = false ->
    has_char "{" body = false -> has_char "}" body = false ->
    has_char "\" body = false -> has_char "010" body = false ->
    2 <= length body ->
    let s := pre ++ "{"%char :: body ++ "}"%char :: post in
    exists m,
      search s = Some m /\
      group1 s m = "{"%char :: body ++ ["}"%char] /\
      forall pat, substitute s (group1 s m) pat = pre ++ pat ++ post.
Proof.
  intros pre body post Hp Hq A B D N L s.
  assert (Ht : has_char "{" (body ++ "}"%char :: post) = false).
  { rewrite has_char_app, has_char_cons, A, Hq. reflexivity. }
  pose proof (search_only_open pre _ _ Hp Ht (group_at_body body post B D N L))
    as Hs.
  exists (length pre, length body + 2). split; [exact Hs|].
  assert (G : group1 s (length pre, length body + 2)
              = "{"%char :: body ++ ["}"%char]).
  { unfold group1, s. cbn [fst snd]. rewrite skipn_length_app.
    replace ("{"%char :: body ++ "}"%char :: post)
      with (("{"%char :: body ++ ["}"%char]) ++ post)
      by (cbn [app]; now rewrite <- app_assoc).
    replace (length body + 2) with (length ("{"%char :: body ++ ["}"%char]))
      by (cbn [length]; rewrite length_app; cbn [length]; lia).
    apply firstn_length_app. }
  split; [exact G|]. intro pat. rewrite G. unfold substitute.
  assert (E : s = pre ++ ("{"%char :: body ++ ["}"%char]) ++ post).
  { unfold s. cbn [app]. now rewrite <- app_assoc. }
  assert (F : find s ("{"%char :: body ++ ["}"%char]) = Z.of_nat (length pre)).
  { unfold find. rewrite E.
    rewrite (find_from_only_open pre (body ++ ["}"%char]) _ 0 Hp).
    - reflexivity.
    - apply (starts_with_app ("{"%char :: body ++ ["}"%char])). }
  rewrite F. f_equal; [|f_equal].
  - rewrite E. apply slice_to_prefix.
  - rewrite E. apply slice_from_suffix.
Qed.

Lemma split_no_sep : forall sep s,
    has_char sep s = false -> split sep s = [s].
Proof.
  intros sep. induction s as [|c s IH]; intro H; [reflexivity|].
  rewrite has_char_cons in H. apply orb_false_iff in H. destruct H as [Hc Hs].
  cbn [split]. rewrite Ascii.eqb_sym, Hc. now rewrite (IH Hs).
Qed.

Lemma split_app_sep : forall sep a rest,
    has_char sep a = false ->
    split sep (a ++ sep :: rest) = a :: split sep rest.
Proof.
  intros sep. induction a as [|c a IH]; intros rest H.
  - cbn [app split]. now rewrite Ascii.eqb_refl.
  - rewrite has_char_cons in H. apply orb_false_iff in H. destruct H as [Hc Ha].
    cbn [app split]. rewrite Ascii.eqb_sym, Hc. now rewrite (IH rest Ha).
Qed.

Lemma split_join : forall sep alts,
    alts <> [] ->
    Forall (fun a => has_char sep a = false) alts ->
    split sep (join sep alts) = alts.
Proof.
  intros sep. induction alts as [|a alts IH]; intros N F; [contradiction|].
  inversion F as [|? ? Ha Fa]; subst.
  destruct alts as [|b alts].
  - cbn [join]. now apply split_no_sep.
  - change (join sep (a :: b :: alts)) with (a ++ sep :: join sep (b :: alts)).
    rewrite split_app_sep by assumption. f_equal. apply IH; [discriminate | assumption].
Qed.

Lemma join_chars : forall c sep alts,
    Ascii.eqb c sep = false ->
    Forall (fun a => has_char c a = false) alts ->
    has_char c (join sep alts) = false.
Proof.
  intros c sep alts Hc. induction alts as [|a alts IH]; intro F; [reflexivity|].
  inversion F as [|? ? Ha Fa]; subst. destruct alts as [|b alts]; [exact Ha|].
  change (join sep (a :: b :: alts)) with (a ++ sep :: join sep (b :: alts)).
  rewrite has_char_app, has_char_cons, Ha, Hc. now apply IH.
Qed.

Lemma join_plain : forall alts,
    Forall (fun a => plain a = true) alts ->
    has_char "{" (join "," alts) = false /\
    has_char "}" (join "," alts) = false /\
    has_char "\" (join "," alts) = false /\
    has_char "010" (join "," alts) = false.
Proof.
  intros alts F.
  repeat split; apply join_chars; try reflexivity;
    (eapply Forall_impl; [|exact F]); intros a Pa;
    destruct (plain_chars a Pa) as [A [B [C [D E]]]]; assumption.
Qed.

Lemma join_has_sep : forall sep a b alts,
    has_char sep (join sep (a :: b :: alts)) = true.
Proof.
  intros. change (join sep (a :: b :: alts)) with (a ++ sep :: join sep (b :: alts)).
  rewrite has_char_app, has_char_cons, Ascii.eqb_refl. now rewrite orb_true_r.
Qed.

Lemma strip_braces_body : forall body,
    body <> [] ->
    has_char "{" body = false -> has_char "}" body = false ->
    strip (lit "{}") ("{"%char :: body ++ ["}"%char]) = body.
Proof.
  intros body N A B.
  assert (Hd : forall x, In x body -> has_char x (lit "{}") = false).
  { intros x Hx. cbn [lit list_ascii_of_string has_char existsb].
    assert (Ascii.eqb x "{" = false /\ Ascii.eqb x "}" = false) as [E1 E2].
    { split; apply Ascii.eqb_neq; intro K; subst x.
      - assert (has_char "{" body = true); [|congruence].
        apply existsb_exists. exists "{"%char. split; [assumption | apply Ascii.eqb_refl].
      - assert (has_char "}" body = true); [|congruence].
        apply existsb_exists. exists "}"%char. split; [assumption | apply Ascii.eqb_refl]. }
    now rewrite E1, E2. }
  unfold strip. cbn [lstrip]. change (has_char "{" (lit "{}")) with true.
  cbv iota. destruct body as [|x body']; [contradiction|].
  cbn [app lstrip]. rewrite (Hd x (or_introl eq_refl)).
  unfold rstrip. change (x :: body' ++ ["}"%char]) with ((x :: body') ++ ["}"%char]).
  rewrite rev_app_distr. cbn [rev app lstrip].
  change (has_char "}" (lit "{}")) with true. cbv iota.
  destruct (rev body' ++ [x]) as [|y r] eqn:R.
  - destruct (rev body'); discriminate.
  - cbn [lstrip]. rewrite (Hd y).
    + rewrite <- R. change (rev body' ++ [x]) with (rev (x :: body')).
      apply rev_involutive.
    + apply in_rev. cbn [rev]. rewrite R. now left.
Qed.

Lemma escape_close_no_close : forall s,
    has_char "}" s = false -> escape_close s = s.
Proof.
  induction s as [|c s IH]; intro H; [reflexivity|].
  rewrite has_char_cons in H. apply orb_false_iff in H. destruct H as [Hc Hs].
  rewrite escape_close_cons, (IH Hs). rewrite Ascii.eqb_sym, Hc. reflexivity.
Qed.

Lemma closers_group : forall mid c,
    c <> "\"%char -> 1 <= closers ("{"%char :: mid ++ [c; "}"%char]).
Proof.
  intros mid c N.
  replace ("{"%char :: mid ++ [c; "}"%char])
    with (("{"%char :: mid) ++ c :: ["}"%char]) by reflexivity.
  rewrite (closers_split ("{"%char :: mid) c). cbn [closers].
  apply Ascii.eqb_neq in N. rewrite N. cbn. lia.
Qed.

(** Where the pattern finds a group, a closing brace can end one. *)
Lemma search_closers : forall s m, search s = Some m -> 1 <= closers s.
Proof.
  intros s [k n] H.
  destruct (search_group _ _ _ H) as [pre0 [rest [E [_ G]]]].
  destruct (group_at_shape _ _ G) as [mid [c [post0 [Er [_ C]]]]].
  subst s rest. pose proof (closers_group mid c C) as K.
  replace ("{"%char :: mid ++ [c; "}"%char])
    with ("{"%char :: (mid ++ [c]) ++ ["}"%char]) in *
    by now rewrite <- app_assoc.
  rewrite closers_sandwich. lia.
Qed.

(** X4: the escape of the closing braces (line 34) and the replacement
    at the end (line 37) undo each other: in a string with its closing
    braces escaped the pattern finds no group, the string unescaped is
    the string before the escape, and so the escaped string expands to
    that string alone. *)
Theorem escaped_string_expands_to_itself : forall list_of_set s,
    set_listing list_of_set ->
    search (escape_close s) = None /\
    unescape_close (escape_close s) = s /\
    expand_braces list_of_set (escape_close s) = [s].
Proof.
  intros los s H.
  assert (N : search (escape_close s) = None).
  { destruct (search (escape_close s)) as [m|] eqn:E; [|reflexivity].
    apply search_closers in E. rewrite closers_escape_close in E. lia. }
  split; [exact N|]. split; [apply unescape_close_inverse|].
  rewrite (expand_braces_plain los _ H N). f_equal.
  apply unescape_close_inverse.
Qed.

Lemma escaped_string_expands_to_itself_witness :
  expand_braces set_order (lit "{a\}b,c\}") = [lit "{a}b,c}"].
Proof.
  exact (proj2 (proj2 (escaped_string_expands_to_itself set_order
                         (lit "{a}b,c}") set_listing_set_order))).
Defined.

(** X3: a string with one brace group, "pre{a1,...,an}post" with two
    alternatives or more that hold no brace, comma, backslash or
    newline and [pre] and [post] without braces, expands to the strings
    "pre" + ai + "post" and to nothing else.  (A body of less than two
    characters, as in "{,}", is no group for the pattern.) *)
Theorem expand_braces_one_group : forall list_of_set pre alts post,
    set_listing list_of_set ->
    has_char "{" pre = false -> has_char "}" pre = false ->
    has_char "{" post = false -> has_char "}" post = false ->
    Forall (fun a => plain a = true) alts ->
    2 <= length alts -> 2 <= length (join "," alts) ->
    forall x,
      In x (expand_braces list_of_set
              (pre ++ "{"%char :: join "," alts ++ "}"%char :: post)) <->
      exists a, In a alts /\ x = pre ++ a ++ post.
Proof.
  intros los pre alts post H Hp1 Hp2 Hq1 Hq2 F L2 Lb x.
  destruct (join_plain alts F) as [J1 [J2 [J3 J4]]].
  assert (Commas : has_char "," ("{"%char :: join "," alts ++ ["}"%char]) = true).
  { destruct alts as [|a [|b alts]]; try (simpl in L2; lia).
    rewrite has_char_cons, has_char_app, join_has_sep. now rewrite orb_true_r. }
  assert (Pieces : split "," (strip (lit "{}")
                                    ("{"%char :: join "," alts ++ ["}"%char]))
                   = alts).
  { rewrite strip_braces_body; try assumption.
    - apply split_join; [intro K; subst alts; simpl in L2; lia|].
      eapply Forall_impl; [|exact F]. intros a Pa.
      now destruct (plain_chars a Pa) as [_ [_ [C _]]].
    - intro K. rewrite K in Lb. simpl in Lb. lia. }
  destruct (one_group_step pre (join "," alts) post Hp1 Hq1 J1 J2 J3 J4 Lb)
    as [m [Hs [G Sub]]].
  rewrite expand_braces_eq, Hs, G, Commas, Pieces.
  rewrite set_listing_In by assumption. rewrite in_flat_map.
  assert (One : forall a, In a alts ->
                          expand_braces los (pre ++ a ++ post) = [pre ++ a ++ post]).
  { intros a Ha. apply expand_braces_no_close; [assumption|].
    rewrite Forall_forall in F. destruct (plain_chars a (F a Ha)) as [_ [B _]].
    now rewrite !has_char_app, Hp2, B, Hq2. }
  split.
  - intros [a [Ha Hx]]. exists a. split; [assumption|].
    rewrite <- G, Sub, (One a Ha) in Hx. destruct Hx as [<-|[]]. reflexivity.
  - intros [a [Ha ->]]. exists a. split; [assumption|].
    rewrite <- G, Sub, (One a Ha). now left.
Qed.

Lemma expand_braces_one_group_witness :
  In (lit "AB*") (expand_braces set_order (lit "A{B,C}*")).
Proof.
  assert (F : Forall (fun a => plain a = true) [lit "B"; lit "C"])
    by (repeat constructor).
  apply (proj2 (expand_braces_one_group set_order (lit "A") [lit "B"; lit "C"]
                  (lit "*") set_listing_set_order eq_refl eq_refl eq_refl
                  eq_refl F (le_n 2) (le_S 2 2 (le_n 2)) (lit "AB*"))).
  exists (lit "B"). split; [now left | reflexivity].
Defined.

(** X5: a brace group without a comma is no alternation: a string with
    one such group, of two plain characters or more, between a [pre]
    and a [post] without braces, expands to itself alone, the escape of
    its closing brace undone at the end. *)
Theorem expand_braces_group_without_comma : forall list_of_set pre body post,
    set_listing list_of_set ->
    has_char "{" pre = false -> has_char "}" pre = false ->
    has_char "{" post = false -> has_char "}" post = false ->
    plain body = true -> 2 <= length body ->
    expand_braces list_of_set (pre ++ "{"%char :: body ++ "}"%char :: post)
    = [pre ++ "{"%char :: body ++ "}"%char :: post].
Proof.
  intros los pre body post H Hp1 Hp2 Hq1 Hq2 P L.
  destruct (plain_chars body P) as [A [B [C [D N]]]].
  destruct (one_group_step pre body post Hp1 Hq1 A B D N L) as [m [Hs [G Sub]]].
  set (s := pre ++ "{"%char :: body ++ "}"%char :: post) in *.
  assert (NoComma : has_char "," (group1 s m) = false).
  { rewrite G, has_char_cons, has_char_app, C. reflexivity. }
  assert (E : substitute s (group1 s m) (escape_close (group1 s m))
              = escape_close s).
  { rewrite Sub, G. unfold s.
    replace ("{"%char :: body ++ "}"%char :: post)
      with (("{"%char :: body ++ ["}"%char]) ++ post)
      by (cbn [app]; now rewrite <- app_assoc).
    rewrite !escape_close_app.
    now rewrite (escape_close_no_close pre), (escape_close_no_close post). }
  rewrite expand_braces_eq, Hs, NoComma, E.
  assert (None' : search (escape_close s) = None).
  { destruct (search (escape_close s)) as [m'|] eqn:S'; [|reflexivity].
    apply search_closers in S'. rewrite closers_escape_close in S'. lia. }
  rewrite (expand_braces_plain los _ H None'), unescape_close_inverse.
  now apply set_listing_singleton.
Qed.

Lemma expand_braces_group_without_comma_witness :
  expand_braces set_order (lit "x{ab}y") = [lit "x{ab}y"].
Proof.
  exact (expand_braces_group_without_comma set_order (lit "x") (lit "ab")
           (lit "y") set_listing_set_order eq_refl eq_refl eq_refl eq_refl
           eq_refl (le_n 2)).
Defined.

(** ** The column selector on a longer pattern list *)

(** X6: patterns added at the end of the list leave what the earlier
    patterns select where it is: the selection of [patterns ++ more] is
    the selection of [patterns] followed by the columns that [more]
    selects and [patterns] does not, whenever the selector raises
    nothing. *)
Theorem selector_extends : forall fnmatch available_columns patterns more fail selected,
    get_matching_variables fnmatch available_columns (patterns ++ more) fail
    = Ok selected ->
    exists first,
      get_matching_variables fnmatch available_columns patterns fail = Ok first /\
      selected =
      first ++ filter (fun b => negb (mem b first))
                      (select_spec fnmatch available_columns more).
Proof.
  intros fnmatch cols ps qs fail sel H.
  rewrite get_matching_variables_spec in H |- *.
  exists (select_spec fnmatch cols ps).
  assert (U : (if fail then first_unmatched fnmatch cols ps else None) = None).
  { destruct fail; [|reflexivity].
    destruct (first_unmatched fnmatch cols (ps ++ qs)) as [p|] eqn:E;
      [discriminate|].
    rewrite first_unmatched_None in E |- *. intros p Hp. apply E.
    apply in_or_app. now left. }
  rewrite U. split; [reflexivity|].
  destruct (if fail then first_unmatched fnmatch cols (ps ++ qs) else None);
    [discriminate|].
  injection H as <-. unfold select_spec.
  rewrite flat_map_app, keep_first_app. f_equal.
  apply filter_ext_in. intros y _. f_equal.
  destruct (mem y (flat_map (matches_of fnmatch cols) ps)) eqn:M1;
    destruct (mem y (keep_first (flat_map (matches_of fnmatch cols) ps))) eqn:M2;
    try reflexivity; exfalso.
  - apply mem_In in M1. apply mem_not_In in M2. apply M2.
    now apply keep_first_In.
  - apply mem_In in M2. apply mem_not_In in M1. apply M1.
    now apply (proj1 (keep_first_In _ _)).
Qed.

Lemma selector_extends_witness :
  exists first,
    get_matching_variables glob_fnmatch [lit "AA"; lit "AB"; lit "C"]
                           [lit "AB"] true = Ok first /\
    [lit "AB"; lit "AA"] =
    first ++ filter (fun b => negb (mem b first))
                    (select_spec glob_fnmatch [lit "AA"; lit "AB"; lit "C"]
                                 [lit "A*"]).
Proof.
  exact (selector_extends glob_fnmatch [lit "AA"; lit "AB"; lit "C"]
           [lit "AB"] [lit "A*"] true [lit "AB"; lit "AA"] eq_refl).
Defined.

(** ** The selection of a load *)

Lemma list_remove_incl : forall l x l' y,
    list_remove l x = Ok l' -> In y l' -> In y l.
Proof.
  induction l as [|z l IH]; intros x l' y H Hy; cbn [list_remove] in H;
    [discriminate|].
  destruct (str_eqb z x).
  - injection H as <-. now right.
  - destruct (list_remove l x) as [l''|] eqn:R; cbn [bind] in H; [|discriminate].
    injection H as <-. destruct Hy as [<-|Hy]; [now left | right].
    now apply (IH x l'' y).
Qed.

Lemma remove_all_incl : forall ignored l l' y,
    remove_all l ignored = Ok l' -> In y l' -> In y l.
Proof.
  induction ignored as [|v ignored IH]; intros l l' y H Hy; cbn [remove_all] in H.
  - now injection H as <-.
  - destruct (list_remove l v) as [l1|] eqn:R; cbn [bind] in H; [|discriminate].
    apply (list_remove_incl l v l1 y R). now apply (IH l1 l' y).
Qed.

(** X7: the columns a load selects are columns of the tree it reads:
    whatever the include and ignore patterns, a selection holds no name
    that the branch list of the resolved tree lacks. *)
Theorem selection_within_branches :
  forall list_of_set fnmatch file path tree_key columns ignore key all_vars,
    read_selection list_of_set fnmatch file path tree_key columns ignore
    = Ok (key, all_vars) ->
    exists branches,
      list_branches file key = Ok branches /\
      forall v, In v all_vars -> In v branches.
Proof.
  intros los fnmatch file path tree_key columns ignore key all_vars H.
  destruct (read_selection_Ok los fnmatch _ _ _ _ _ _ _ H)
    as [tree [v0 [_ [T [C I]]]]].
  exists (tree_branches tree). split.
  - unfold list_branches. now rewrite T.
  - intros v Hv.
    assert (H0 : In v v0).
    { unfold apply_ignore in I. destruct (truthy ignore);
        [|now injection I as <-].
      rewrite get_matching_variables_spec in I. cbn [bind] in I.
      match type of I with
      | (if ?c then _ else _) = _ => destruct c; [discriminate|]
      end.
      now apply (remove_all_incl _ _ _ _ I). }
    unfold resolve_columns in C. destruct (truthy columns); cbn [negb] in C.
    + rewrite get_matching_variables_spec in C.
      match type of C with
      | match ?u with _ => _ end = _ => destruct u; [discriminate|]
      end.
      injection C as <-. now apply select_spec_In in H0.
    + now injection C as <-.
Qed.

Lemma selection_within_branches_witness :
  exists branches,
    list_branches (example_file [lit "t"] [lit "AA"; lit "AB"; lit "C"] 2) (lit "t")
    = Ok branches /\
    forall v, In v [lit "AA"] -> In v branches.
Proof.
  exact (selection_within_branches set_order glob_fnmatch
           (example_file [lit "t"] [lit "AA"; lit "AB"; lit "C"] 2)
           (lit "f.root") None (Patterns [lit "A*"]) (Patterns [lit "AB"])
           (lit "t") [lit "AA"] eq_refl).
Defined.

(** ** The removal of the ignored columns *)

Lemma list_remove_absent : forall l x,
    ~ In x l -> list_remove l x = Err ListRemoveError.
Proof.
  induction l as [|z l IH]; intros x N; cbn [list_remove]; [reflexivity|].
  destruct (str_eqb z x) eqn:E.
  - apply str_eqb_eq in E. subst z. exfalso. apply N. now left.
  - rewrite IH; [reflexivity|]. intro K. apply N. now right.
Qed.

Lemma list_remove_filter : forall l x,
    NoDup l -> In x l ->
    list_remove l x = Ok (filter (fun y => negb (str_eqb y x)) l).
Proof.
  induction l as [|z l IH]; intros x N Hx; [contradiction|].
  inversion N as [|? ? Nz Nl]; subst. cbn [list_remove filter].
  destruct (str_eqb z x) eqn:E; cbn [negb].
  - apply str_eqb_eq in E. subst z. f_equal. symmetry.
    apply forallb_filter_id, forallb_forall. intros y Hy.
    apply negb_true_iff, str_eqb_neq. intro K. subst y. contradiction.
  - destruct Hx as [K|Hx]; [apply str_eqb_neq in E; contradiction|].
    now rewrite (IH x Nl Hx).
Qed.

Lemma remove_all_filter : forall ignored l,
    NoDup l -> NoDup ignored -> (forall x, In x ignored -> In x l) ->
    remove_all l ignored = Ok (filter (fun y => negb (mem y ignored)) l).
Proof.
  induction ignored as [|v ignored IH]; intros l N Ni Sub; cbn [remove_all].
  - f_equal. symmetry. apply forallb_filter_id. now apply forallb_forall.
  - inversion Ni as [|? ? Nv Ni']; subst.
    rewrite (list_remove_filter l v N) by (apply Sub; now left).
    cbn [bind]. rewrite IH.
    + f_equal. rewrite filter_filter. apply filter_ext. intro y.
      cbn [mem existsb]. fold (mem y ignored). now rewrite negb_orb.
    + now apply NoDup_filter.
    + assumption.
    + intros x Hx. apply filter_In. split; [apply Sub; now right|].
      apply negb_true_iff, str_eqb_neq. intro K. subst x. contradiction.
Qed.

Lemma remove_all_fails : forall ignored l,
    NoDup l ->
    ~ (NoDup ignored /\ forall x, In x ignored -> In x l) ->
    remove_all l ignored = Err ListRemoveError.
Proof.
  induction ignored as [|v ignored IH]; intros l N F; cbn [remove_all].
  - exfalso. apply F. split; [constructor | intros x []].
  - destruct (in_dec str_dec v l) as [Hv|Hv].
    + rewrite (list_remove_filter l v N Hv). cbn [bind]. apply IH.
      * now apply NoDup_filter.
      * intros [Ni Sub]. apply F. split.
        -- constructor; [|assumption]. intro K. apply Sub, filter_In in K.
           destruct K as [_ K]. rewrite str_eqb_refl in K. discriminate.
        -- intros x [<-|Hx]; [assumption|].
           apply Sub, filter_In in Hx. tauto.
    + now rewrite (list_remove_absent l v Hv).
Qed.

(** X8: on a selection without duplicates (as the include patterns
    give it), when the names to ignore are distinct, all selected and
    none of them "index", the ignore stage returns the selection without
    these names, the columns left in the order they had. *)
Theorem ignore_filters_selection :
  forall list_of_set fnmatch branches all_vars ignore,
    truthy ignore = true ->
    let ignored :=
      flat_map (expand_braces list_of_set)
               (select_spec fnmatch branches (as_list ignore)) in
    NoDup all_vars -> NoDup ignored ->
    (forall x, In x ignored -> In x all_vars) ->
    ~ In (lit "index") ignored ->
    apply_ignore list_of_set fnmatch branches all_vars ignore =
    Ok (filter (fun v => negb (mem v ignored)) all_vars).
Proof.
  intros los fnmatch branches all_vars ignore T ignored N Ni Sub Hi.
  unfold apply_ignore. rewrite T, get_matching_variables_spec. cbn [bind].
  fold ignored. rewrite (proj2 (mem_not_In _ _) Hi).
  now apply remove_all_filter.
Qed.

Lemma ignore_filters_selection_witness :
  apply_ignore set_order glob_fnmatch [lit "AA"; lit "AB"; lit "C"]
               [lit "AA"; lit "AB"; lit "C"] (OnePattern (lit "A?"))
  = Ok [lit "C"].
Proof.
  assert (N : NoDup [lit "AA"; lit "AB"; lit "C"]).
  { apply (NoDup_nodup str_dec [lit "AA"; lit "AB"; lit "C"]). }
  assert (Ni : NoDup [lit "AA"; lit "AB"]).
  { apply (NoDup_nodup str_dec [lit "AA"; lit "AB"]). }
  refine (ignore_filters_selection set_order glob_fnmatch
            [lit "AA"; lit "AB"; lit "C"] [lit "AA"; lit "AB"; lit "C"]
            (OnePattern (lit "A?")) eq_refl N Ni _ _).
  - intros x [<-|[<-|[]]]; [now left | right; now left].
  - intros [K|[K|[]]]; discriminate K.
Defined.

(** X9: on a selection without duplicates, when a name to ignore is not
    in the selection, or comes twice among the names to ignore, and none
    of them is "index", the ignore stage raises the ValueError of
    [list.remove]: to ignore a column that the include patterns did not
    select stops the load. *)
Theorem ignore_unselected_raises :
  forall list_of_set fnmatch branches all_vars ignore,
    truthy ignore = true ->
    let ignored :=
      flat_map (expand_braces list_of_set)
               (select_spec fnmatch branches (as_list ignore)) in
    NoDup all_vars ->
    ~ In (lit "index") ignored ->
    ~ (NoDup ignored /\ forall x, In x ignored -> In x all_vars) ->
    apply_ignore list_of_set fnmatch branches all_vars ignore =
    Err (ValueError (lit "list.remove(x): x not in list")).
Proof.
  intros los fnmatch branches all_vars ignore T ignored N Hi F.
  unfold apply_ignore. rewrite T, get_matching_variables_spec. cbn [bind].
  fold ignored. rewrite (proj2 (mem_not_In _ _) Hi).
  now apply remove_all_fails.
Qed.

Lemma ignore_unselected_raises_witness :
  read_root set_order glob_fnmatch any_entry
            (example_file [lit "t"] [lit "AA"; lit "AB"; lit "C"] 2)
            (lit "f.root") None (Patterns [lit "A*"]) (Patterns [lit "C"])
            None None
  = Err (ValueError (lit "list.remove(x): x not in list")).
Proof.
  assert (N : NoDup [lit "AA"; lit "AB"]).
  { apply (NoDup_nodup str_dec [lit "AA"; lit "AB"]). }
  assert (A : apply_ignore set_order glob_fnmatch [lit "AA"; lit "AB"; lit "C"]
                           [lit "AA"; lit "AB"] (Patterns [lit "C"])
              = Err (ValueError (lit "list.remove(x): x not in list"))).
  { refine (ignore_unselected_raises set_order glob_fnmatch
              [lit "AA"; lit "AB"; lit "C"] [lit "AA"; lit "AB"]
              (Patterns [lit "C"]) eq_refl N _ _).
    - intros [K|[]]. discriminate K.
    - intros [_ Sub]. destruct (Sub (lit "C") (or_introl eq_refl)) as [K|[K|[]]];
        discriminate K. }
  unfold read_root.
  rewrite (read_selection_stages set_order glob_fnmatch
             (example_file [lit "t"] [lit "AA"; lit "AB"; lit "C"] 2)
             (lit "f.root") None (Patterns [lit "A*"]) (Patterns [lit "C"])
             (lit "t") [lit "AA"; lit "AB"; lit "C"] eq_refl eq_refl).
  change (resolve_columns set_order glob_fnmatch [lit "AA"; lit "AB"; lit "C"]
                          (Patterns [lit "A*"]))
    with (Ok (A := list str) [lit "AA"; lit "AB"]).
  cbn [bind]. rewrite A. reflexivity.
Defined.

(** ** Arguments without a truth value *)

(** X10: each argument that Python takes for false counts as absent, on
    its own and whatever the other arguments are: an empty [tree_key]
    is no [tree_key] (line 89), an empty [ignore], list or string, is
    no [ignore] (line 110), and a [chunksize] of 0 is no [chunksize]
    (line 120), so that the load returns a table and no generator. *)
Theorem falsy_arguments_absent :
  forall list_of_set fnmatch eval_where file path tree_key columns ignore
         chunksize where_,
    (truthy_key tree_key = false ->
     read_root list_of_set fnmatch eval_where file path tree_key columns
               ignore chunksize where_ =
     read_root list_of_set fnmatch eval_where file path None columns
               ignore chunksize where_) /\
    (truthy ignore = false ->
     read_root list_of_set fnmatch eval_where file path tree_key columns
               ignore chunksize where_ =
     read_root list_of_set fnmatch eval_where file path tree_key columns
               NoPatterns chunksize where_) /\
    (truthy_int chunksize = false ->
     read_root list_of_set fnmatch eval_where file path tree_key columns
               ignore chunksize where_ =
     read_root list_of_set fnmatch eval_where file path tree_key columns
               ignore None where_ /\
     forall dfs,
       read_root list_of_set fnmatch eval_where file path tree_key columns
                 ignore chunksize where_ <> Ok (Chunks dfs)).
Proof.
  intros los fnmatch eval_where file path tree_key columns ignore chunksize
         where_.
  split; [|split].
  - intros Tk. unfold read_root, read_selection, resolve_tree_key.
    now rewrite Tk.
  - intros Ti. unfold read_root, read_selection, apply_ignore.
    now rewrite Ti.
  - intros Tc. unfold read_root. rewrite Tc. split; [reflexivity|].
    intros dfs.
    destruct (read_selection los fnmatch file path tree_key columns ignore)
      as [[key all_vars]|]; cbn [bind]; [|discriminate].
    destruct (root2array eval_where file key all_vars None None where_);
      cbn [bind]; discriminate.
Qed.

Lemma falsy_arguments_absent_witness :
  read_root set_order glob_fnmatch any_entry
            (example_file [lit "t"] [lit "a"; lit "b"] 4) (lit "f.root")
            (Some []) (Patterns [lit "a"]) (Patterns [lit "b"]) (Some 2%Z) None =
  read_root set_order glob_fnmatch any_entry
            (example_file [lit "t"] [lit "a"; lit "b"] 4) (lit "f.root")
            None (Patterns [lit "a"]) (Patterns [lit "b"]) (Some 2%Z) None /\
  read_root set_order glob_fnmatch any_entry
            (example_file [lit "t"] [lit "a"; lit "b"] 4) (lit "f.root")
            (Some (lit "t")) (Patterns [lit "a"]) (OnePattern []) (Some 2%Z) None =
  read_root set_order glob_fnmatch any_entry
            (example_file [lit "t"] [lit "a"; lit "b"] 4) (lit "f.root")
            (Some (lit "t")) (Patterns [lit "a"]) NoPatterns (Some 2%Z) None /\
  read_root set_order glob_fnmatch any_entry
            (example_file [lit "t"] [lit "a"; lit "b"] 4) (lit "f.root")
            (Some (lit "t")) (Patterns [lit "a"]) (Patterns [lit "b"]) (Some 0%Z) None =
  read_root set_order glob_fnmatch any_entry
            (example_file [lit "t"] [lit "a"; lit "b"] 4) (lit "f.root")
            (Some (lit "t")) (Patterns [lit "a"]) (Patterns [lit "b"]) None None.
Proof.
  split; [|split].
  - exact (proj1 (falsy_arguments_absent set_order glob_fnmatch any_entry
                    (example_file [lit "t"] [lit "a"; lit "b"] 4) (lit "f.root")
                    (Some []) (Patterns [lit "a"]) (Patterns [lit "b"])
                    (Some 2%Z) None) eq_refl).
  - exact (proj1 (proj2 (falsy_arguments_absent set_order glob_fnmatch any_entry
                    (example_file [lit "t"] [lit "a"; lit "b"] 4) (lit "f.root")
                    (Some (lit "t")) (Patterns [lit "a"]) (OnePattern [])
                    (Some 2%Z) None)) eq_refl).
  - exact (proj1 (proj2 (proj2 (falsy_arguments_absent set_order glob_fnmatch
                    any_entry
                    (example_file [lit "t"] [lit "a"; lit "b"] 4) (lit "f.root")
                    (Some (lit "t")) (Patterns [lit "a"]) (Patterns [lit "b"])
                    (Some 0%Z) None)) eq_refl)).
Defined.

(** ** Chunk sizes at the edges *)

(** X11: a negative [chunksize] is taken as it comes: when both the
    number of rows and the chunk size convert to a double (they are
    below 2^1024 - 2^970 in absolute value), the load raises nothing
    and returns a generator that yields no table at all. *)
Theorem negative_chunksize_yields_nothing :
  forall list_of_set fnmatch eval_where file path tree_key columns ignore
         chunksize where_ key all_vars tree,
    (- (2 ^ 1024 - 2 ^ 970) < chunksize < 0)%Z ->
    read_selection list_of_set fnmatch file path tree_key columns ignore
    = Ok (key, all_vars) ->
    open_tree file key = Ok tree ->
    (Z.of_nat (length (tree_entries tree)) < 2 ^ 1024 - 2 ^ 970)%Z ->
    read_root list_of_set fnmatch eval_where file path tree_key columns ignore
              (Some chunksize) where_ = Ok (Chunks []).
Proof.
  intros los fnmatch eval_where file path tree_key columns ignore chunksize
         where_ key all_vars tree Hc S T HN.
  unfold read_root. rewrite S. cbn [bind truthy_int].
  destruct (Z.eqb_spec chunksize 0) as [E|_]; [lia|]. cbn [negb].
  unfold GetEntries. rewrite T. cbn [bind]. unfold genchunks, range.
  destruct (chunk_count_negative (Z.of_nat (length (tree_entries tree)))
                                 chunksize) as [k [-> K]]; [lia|lia|].
  replace (Z.to_nat k) with 0 by lia.
  reflexivity.
Qed.

Lemma negative_chunksize_yields_nothing_witness :
  read_root set_order glob_fnmatch any_entry
            (example_file [lit "t"] [lit "a"] 10) (lit "f.root")
            None NoPatterns NoPatterns (Some (-3)%Z) None = Ok (Chunks []).
Proof.
  exact (negative_chunksize_yields_nothing set_order glob_fnmatch any_entry
           (example_file [lit "t"] [lit "a"] 10) (lit "f.root")
           None NoPatterns NoPatterns (-3)%Z None (lit "t") [lit "a"]
           (example_tree [lit "a"] 10)
           (conj eq_refl eq_refl) eq_refl eq_refl eq_refl).
Defined.

Lemma chunk_rows_whole : forall (A : Type) (l : list A) c,
    length l <= c -> chunk_rows l c 0 = l.
Proof.
  intros A l c H. unfold chunk_rows. cbn [skipn].
  rewrite Nat.mul_0_l, Nat.sub_0_r. apply firstn_all2. lia.
Qed.

(** X12: with a [chunksize] no smaller than the number of rows of a
    tree that has rows, fewer than 2^53, and below 2^1024 - 2^970, so
    that it converts to a double, the generator yields one table, the
    table that the load without [chunksize] returns. *)
Theorem large_chunksize_one_table :
  forall list_of_set fnmatch eval_where file path tree_key columns ignore
         chunksize where_ key all_vars tree,
    read_selection list_of_set fnmatch file path tree_key columns ignore
    = Ok (key, all_vars) ->
    open_tree file key = Ok tree ->
    (0 < Z.of_nat (length (tree_entries tree)) <= chunksize)%Z ->
    (Z.of_nat (length (tree_entries tree)) < 2 ^ 53)%Z ->
    (chunksize < 2 ^ 1024 - 2 ^ 970)%Z ->
    exists df,
      read_root list_of_set fnmatch eval_where file path tree_key columns ignore
                None where_ = Ok (Table df) /\
      read_root list_of_set fnmatch eval_where file path tree_key columns ignore
                (Some chunksize) where_ = Ok (Chunks [Ok df]).
Proof.
  intros los fnmatch eval_where file path tree_key columns ignore chunksize
         where_ key all_vars tree S T [Hn Hc] HN HC.
  exists (table_of eval_where all_vars where_ (tree_entries tree)).
  unfold read_root. rewrite S. cbn [bind truthy_int]. split.
  - unfold root2array. rewrite T. cbn [bind]. now rewrite row_range_all.
  - destruct (Z.eqb_spec chunksize 0) as [E|_]; [lia|]. cbn [negb].
    unfold GetEntries. rewrite T. cbn [bind].
    replace chunksize with (Z.of_nat (Z.to_nat chunksize)) by lia.
    rewrite (genchunks_tables eval_where file key tree all_vars
               (Z.of_nat (length (tree_entries tree))) (Z.to_nat chunksize) 1)
      by (try assumption; rewrite chunk_count_exact by lia;
          now rewrite ceil_div_one by lia).
    change (Z.to_nat 1) with 1. cbn [seq map].
    rewrite chunk_rows_whole by lia. reflexivity.
Qed.

Lemma large_chunksize_one_table_witness :
  exists df,
    read_root set_order glob_fnmatch any_entry
              (example_file [lit "t"] [lit "a"] 4) (lit "f.root")
              None NoPatterns NoPatterns None None = Ok (Table df) /\
    read_root set_order glob_fnmatch any_entry
              (example_file [lit "t"] [lit "a"] 4) (lit "f.root")
              None NoPatterns NoPatterns (Some 7%Z) None = Ok (Chunks [Ok df]).
Proof.
  refine (large_chunksize_one_table set_order glob_fnmatch any_entry
            (example_file [lit "t"] [lit "a"] 4) (lit "f.root")
            None NoPatterns NoPatterns 7%Z None (lit "t") [lit "a"]
            (example_tree [lit "a"] 4) eq_refl eq_refl _ eq_refl eq_refl).
  cbn. lia.
Defined.

(** X13: of a tree without rows the generator yields no table, for
    every [chunksize] that converts to a double (below 2^1024 - 2^970
    in absolute value), although the load without [chunksize] returns a
    table, one without rows. *)
Theorem empty_tree_yields_nothing :
  forall list_of_set fnmatch eval_where file path tree_key columns ignore
         chunksize where_ key all_vars tree,
    read_selection list_of_set fnmatch file path tree_key columns ignore
    = Ok (key, all_vars) ->
    open_tree file key = Ok tree ->
    tree_entries tree = [] ->
    chunksize <> 0%Z ->
    (Z.abs chunksize < 2 ^ 1024 - 2 ^ 970)%Z ->
    read_root list_of_set fnmatch eval_where file path tree_key columns ignore
              (Some chunksize) where_ = Ok (Chunks []) /\
    exists df,
      read_root list_of_set fnmatch eval_where file path tree_key columns ignore
                None where_ = Ok (Table df) /\
      df_values df = [].
Proof.
  intros los fnmatch eval_where file path tree_key columns ignore chunksize
         where_ key all_vars tree S T E Hc HC.
  unfold read_root. rewrite S. cbn [bind truthy_int]. split.
  - destruct (Z.eqb_spec chunksize 0) as [K|_]; [contradiction|]. cbn [negb].
    unfold GetEntries. rewrite T. cbn [bind]. rewrite E. cbn [length Z.of_nat].
    unfold genchunks. now rewrite chunk_count_zero.
  - exists (table_of eval_where all_vars where_ []). split.
    + unfold root2array. rewrite T. cbn [bind]. rewrite E.
      now rewrite row_range_all.
    + rewrite table_of_values. now destruct where_.
Qed.

Lemma empty_tree_yields_nothing_witness :
  read_root set_order glob_fnmatch any_entry
            (example_file [lit "t"] [lit "a"] 0) (lit "f.root")
            None NoPatterns NoPatterns (Some 3%Z) None = Ok (Chunks []).
Proof.
  refine (proj1 (empty_tree_yields_nothing set_order glob_fnmatch any_entry
                   (example_file [lit "t"] [lit "a"] 0) (lit "f.root")
                   None NoPatterns NoPatterns 3%Z None (lit "t") [lit "a"]
                   (example_tree [lit "a"] 0) eq_refl eq_refl eq_refl _
                   eq_refl)).
  discriminate.
Defined.

(** X19: a [chunksize] of 2^1024 - 2^970 or more in absolute value does
    not convert to a double.  The load itself raises nothing: it
    returns the generator, the count of the chunks being computed in
    its body (line 125); the first step of the generator raises
    [OverflowError], and no table is yielded. *)
Theorem huge_chunksize_overflows :
  forall list_of_set fnmatch eval_where file path tree_key columns ignore
         chunksize where_ key all_vars tree,
    read_selection list_of_set fnmatch file path tree_key columns ignore
    = Ok (key, all_vars) ->
    open_tree file key = Ok tree ->
    (Z.of_nat (length (tree_entries tree)) < 2 ^ 1024 - 2 ^ 970)%Z ->
    (2 ^ 1024 - 2 ^ 970 <= Z.abs chunksize)%Z ->
    read_root list_of_set fnmatch eval_where file path tree_key columns ignore
              (Some chunksize) where_ = Ok (Chunks [Err OverflowError]).
Proof.
  intros los fnmatch eval_where file path tree_key columns ignore chunksize
         where_ key all_vars tree S T HN HC.
  unfold read_root. rewrite S. cbn [bind truthy_int].
  destruct (Z.eqb_spec chunksize 0) as [E|_].
  - subst chunksize. exfalso.
    assert ((2 ^ 1024 = 2 * 2 ^ 53 * 2 ^ 970)%Z) by reflexivity.
    assert ((0 < 2 ^ 53)%Z) by (apply Z.pow_pos_nonneg; lia).
    assert ((0 < 2 ^ 970)%Z) by (apply Z.pow_pos_nonneg; lia).
    change (Z.abs 0) with 0%Z in HC. nia.
  - cbn [negb]. unfold GetEntries. rewrite T. cbn [bind]. unfold genchunks.
    now rewrite chunk_count_overflow by lia.
Qed.

Lemma huge_chunksize_overflows_witness :
  read_root set_order glob_fnmatch any_entry
            (example_file [lit "t"] [lit "a"] 10) (lit "f.root")
            None NoPatterns NoPatterns (Some (2 ^ 1024 - 2 ^ 970)%Z) None
  = Ok (Chunks [Err OverflowError]).
Proof.
  refine (huge_chunksize_overflows set_order glob_fnmatch any_entry
            (example_file [lit "t"] [lit "a"] 10) (lit "f.root")
            None NoPatterns NoPatterns (2 ^ 1024 - 2 ^ 970)%Z None
            (lit "t") [lit "a"] (example_tree [lit "a"] 10)
            eq_refl eq_refl eq_refl _).
  vm_compute. discriminate.
Defined.

(** ** The table of a structured array *)

(** X14: [convert_to_dataframe] keeps one row per record; its columns
    are the fields other than "index", in their order, so that no
    column is named "index"; and the table has an index column, with a
    value for every record, exactly when the array has a field
    "index". *)
Theorem convert_to_dataframe_shape : forall array,
    df_columns (convert_to_dataframe array) =
    filter (fun n => negb (str_eqb n (lit "index"))) (dtype_names array) /\
    ~ In (lit "index") (df_columns (convert_to_dataframe array)) /\
    length (df_values (convert_to_dataframe array)) = length (records array) /\
    (df_index (convert_to_dataframe array) = None <->
     ~ In (lit "index") (dtype_names array)) /\
    (forall values,
        df_index (convert_to_dataframe array) = Some values ->
        length values = length (records array)).
Proof.
  intro array. unfold convert_to_dataframe.
  destruct (mem (lit "index") (dtype_names array)) eqn:M.
  - apply mem_In in M.
    cbn [from_records_index df_columns df_values df_index].
    split; [reflexivity|]. split.
    { intro K. apply filter_In in K. destruct K as [_ K].
      rewrite str_eqb_refl in K. discriminate. }
    split; [apply length_map|]. split.
    { split; [discriminate | intro K; contradiction]. }
    intros values E. injection E as <-. apply length_map.
  - apply mem_not_In in M. cbn [from_records df_columns df_values df_index].
    split.
    { symmetry. apply forallb_filter_id, forallb_forall. intros n Hn.
      apply negb_true_iff, str_eqb_neq. intro K. subst n. contradiction. }
    split; [exact M|]. split; [reflexivity|]. split; [tauto|].
    intros values E. discriminate E.
Qed.

Lemma convert_to_dataframe_shape_witness :
  length [5; 6]%Z = 2.
Proof.
  exact (proj2 (proj2 (proj2 (proj2
           (convert_to_dataframe_shape
              {| dtype_names := [lit "a"; lit "index"];
                 records := [[1; 5]; [2; 6]]%Z |}))))
         [5; 6]%Z eq_refl).
Defined.

(** ** The save orchestrator *)

(** X15: [to_root] takes the modes "a" and "w" and no other: it hands
    the records of the table to the writer under "update" for "a" and
    under "recreate" for "w"; with any other mode it raises the
    ValueError that names the mode, whatever the writer, which is not
    called. *)
Theorem to_root_modes : forall array2root df path tree_key mode fs,
    (mode = lit "a" ->
     to_root array2root df path tree_key mode fs =
     array2root (to_records df) path tree_key (lit "update") fs) /\
    (mode = lit "w" ->
     to_root array2root df path tree_key mode fs =
     array2root (to_records df) path tree_key (lit "recreate") fs) /\
    (mode <> lit "a" -> mode <> lit "w" ->
     to_root array2root df path tree_key mode fs =
     Err (ValueError (lit "Unknown mode: " ++ mode ++ lit ". Must be "
                      ++ ["034"%char] ++ lit "a" ++ ["034"%char] ++ lit " or "
                      ++ ["034"%char] ++ lit "w" ++ ["034"%char] ++ lit "."))).
Proof.
  intros writer df path tree_key mode fs. unfold to_root. split; [|split].
  - intros ->. reflexivity.
  - intros ->. reflexivity.
  - intros Na Nw. apply str_eqb_neq in Na, Nw. now rewrite Na, Nw.
Qed.

Lemma to_root_modes_witness :
  exists msg,
    to_root overwrite
            {| df_index := None; df_columns := [lit "x"]; df_values := [[1%Z]] |}
            (lit "f.root") (lit "default") (lit "r") no_files
    = Err (ValueError msg).
Proof.
  eexists.
  refine (proj2 (proj2 (to_root_modes overwrite
            {| df_index := None; df_columns := [lit "x"]; df_values := [[1%Z]] |}
            (lit "f.root") (lit "default") (lit "r") no_files)) _ _);
    discriminate.
Defined.

Lemma field_other : forall name n names c record,
    n <> name ->
    field name (n :: names) (c :: record) = field name names record.
Proof.
  intros name n names c record N. cbn [field].
  apply str_eqb_neq in N. now rewrite N.
Qed.

(** The cells of a record, read back field by field. *)
Lemma fields_of_record : forall names record,
    NoDup names -> length record = length names ->
    map (fun name => field name names record) names = record.
Proof.
  induction names as [|n names IH]; intros record N L.
  - destruct record; [reflexivity | discriminate].
  - destruct record as [|c record]; [discriminate|].
    inversion N as [|? ? Nn Nn']; subst. cbn [map]. f_equal.
    + cbn [field]. now rewrite str_eqb_refl.
    + transitivity (map (fun name => field name names record) names).
      * apply map_ext_in. intros name Hn. apply field_other.
        intro K. subst n. contradiction.
      * apply IH; [assumption | cbn [length] in L; lia].
Qed.

Lemma drop_field_absent : forall name names record,
    ~ In name names -> length record = length names ->
    drop_field name names record = record.
Proof.
  intros name. induction names as [|n names IH]; intros record N L.
  - destruct record; [reflexivity | discriminate].
  - destruct record as [|c record]; [discriminate|]. cbn [drop_field].
    assert (E : str_eqb n name = false).
    { apply str_eqb_neq. intro K. apply N. now left. }
    rewrite E. f_equal. apply IH; [|cbn [length] in L; lia].
    intro K. apply N. now right.
Qed.

Lemma combine_fst : forall (A B : Type) (a : list A) (b : list B),
    length a = length b -> map fst (combine a b) = a.
Proof.
  intros A B. induction a as [|x a IH]; intros b L; [reflexivity|].
  destruct b as [|y b]; [discriminate|]. cbn [combine map fst].
  f_equal. apply IH. cbn [length] in L. lia.
Qed.

Lemma combine_snd : forall (A B : Type) (a : list A) (b : list B),
    length a = length b -> map snd (combine a b) = b.
Proof.
  intros A B. induction a as [|x a IH]; intros b L.
  - destruct b; [reflexivity | discriminate].
  - destruct b as [|y b]; [discriminate|]. cbn [combine map snd].
    f_equal. apply IH. cbn [length] in L. lia.
Qed.

(** The table that the records of a table are read back as. *)
Lemma table_of_records : forall eval_where df,
    well_formed df ->
    table_of eval_where (dtype_names (to_records df)) None
             (tree_entries (tree_of_array (to_records df))) =
    {| df_index := Some (index_labels df);
       df_columns := df_columns df;
       df_values := df_values df |}.
Proof.
  intros eval_where df [Nc [Ni [W L]]].
  set (names := lit "index" :: df_columns df).
  assert (Nn : NoDup names) by (constructor; assumption).
  assert (Rec : forall labelled,
             In labelled (combine (index_labels df) (df_values df)) ->
             length (snd labelled) = length (df_columns df)).
  { intros [l row] H. apply in_combine_r in H. rewrite Forall_forall in W.
    now apply W. }
  unfold table_of, tree_of_array, to_records.
  cbn [dtype_names records tree_entries]. fold names.
  rewrite !map_map.
  assert (Back : map (fun x : Cell * list Cell =>
                        map (fun name => field name names (fst x :: snd x)) names)
                     (combine (index_labels df) (df_values df))
                 = map (fun x => fst x :: snd x)
                       (combine (index_labels df) (df_values df))).
  { apply map_ext_in. intros x Hx. apply fields_of_record; [assumption|].
    unfold names. cbn [length]. now rewrite (Rec x Hx). }
  rewrite Back. unfold convert_to_dataframe. cbn [dtype_names].
  assert (M : mem (lit "index") names = true)
    by (apply mem_In; now left).
  rewrite M. unfold from_records_index. cbn [dtype_names records].
  rewrite !map_map. f_equal.
  - f_equal. rewrite <- (combine_fst _ _ _ _ L) at 2.
    apply map_ext. intros [l row]. unfold names. cbn [field fst snd].
    now rewrite str_eqb_refl.
  - unfold names. cbn [filter]. rewrite str_eqb_refl. cbn [negb].
    apply forallb_filter_id, forallb_forall. intros n Hn.
    apply negb_true_iff, str_eqb_neq. intro K. subst n. contradiction.
  - rewrite <- (combine_snd _ _ _ _ L) at 2.
    apply map_ext_in. intros [l row] Hx. unfold names.
    cbn [drop_field fst snd]. rewrite str_eqb_refl.
    apply drop_field_absent; [assumption|]. exact (Rec (l, row) Hx).
Qed.

(** X16: a table written with the mode "w" is read back: under a writer
    that makes the file anew, [to_root] of a well-formed table leaves at
    [path] a file from which [read_root], without further arguments,
    returns the columns and the rows of the table, its labels as the
    index column; the files at other paths are as before. *)
Theorem write_read_round_trip :
  forall array2root list_of_set fnmatch eval_where df path tree_key fs,
    recreates array2root -> well_formed df ->
    exists fs' file,
      to_root array2root df path tree_key (lit "w") fs = Ok fs' /\
      fs' path = Some file /\
      (forall p, p <> path -> fs' p = fs p) /\
      read_root list_of_set fnmatch eval_where file path None
                NoPatterns NoPatterns None None =
      Ok (Table {| df_index := Some (index_labels df);
                   df_columns := df_columns df;
                   df_values := df_values df |}).
Proof.
  intros writer los fnmatch eval_where df path tree_key fs R W.
  exists (fun p => if str_eqb p path
                   then Some [(tree_key, tree_of_array (to_records df))]
                   else fs p),
         [(tree_key, tree_of_array (to_records df))].
  split; [|split; [|split]].
  - unfold to_root. cbn [str_eqb lit list_ascii_of_string]. cbn [bind].
    apply R.
  - now rewrite str_eqb_refl.
  - intros p N. apply str_eqb_neq in N. now rewrite N.
  - unfold read_root, read_selection, resolve_tree_key, list_branches.
    cbn [truthy_key negb list_trees map fst length Nat.eqb nth bind open_tree].
    rewrite str_eqb_refl. cbn [bind resolve_columns truthy negb apply_ignore].
    unfold resolve_columns, apply_ignore. cbn [truthy negb bind truthy_int].
    unfold root2array. cbn [open_tree]. rewrite str_eqb_refl. cbn [bind].
    rewrite row_range_all.
    rewrite <- (table_of_records eval_where df W). reflexivity.
Qed.

Lemma overwrite_recreates : recreates overwrite.
Proof. intros arr path tree_key fs. reflexivity. Qed.

Lemma write_read_round_trip_witness :
  exists fs' file,
    to_root overwrite
            {| df_index := None; df_columns := [lit "x"; lit "y"];
               df_values := [[1; 4]; [2; 5]; [3; 6]]%Z |}
            (lit "test.root") (lit "default") (lit "w") no_files = Ok fs' /\
    fs' (lit "test.root") = Some file /\
    read_root set_order glob_fnmatch any_entry file (lit "test.root") None
              NoPatterns NoPatterns None None =
    Ok (Table {| df_index := Some [0; 1; 2]%Z;
                 df_columns := [lit "x"; lit "y"];
                 df_values := [[1; 4]; [2; 5]; [3; 6]]%Z |}).
Proof.
  assert (W : well_formed
                {| df_index := None; df_columns := [lit "x"; lit "y"];
                   df_values := [[1; 4]; [2; 5]; [3; 6]]%Z |}).
  { split; [|split; [|split]].
    - apply (NoDup_nodup str_dec [lit "x"; lit "y"]).
    - intros [K|[K|[]]]; discriminate K.
    - repeat constructor.
    - reflexivity. }
  destruct (write_read_round_trip
              overwrite set_order glob_fnmatch any_entry
              {| df_index := None; df_columns := [lit "x"; lit "y"];
                 df_values := [[1; 4]; [2; 5]; [3; 6]]%Z |}
              (lit "test.root") (lit "default") no_files
              overwrite_recreates W)
    as [fs' [file [A [B [_ C]]]]].
  exists fs', file. split; [exact A|]. split; [exact B|]. exact C.
Defined.

(** ** The order of a set and the selection *)

Lemma expanded_patterns_elements : forall listing1 listing2 columns p,
    set_listing listing1 -> set_listing listing2 ->
    In p (flat_map (expand_braces listing1) columns) ->
    In p (flat_map (expand_braces listing2) columns).
Proof.
  intros l1 l2 columns p H1 H2 Hp. apply in_flat_map in Hp.
  destruct Hp as [c [Hc Hp]]. apply in_flat_map. exists c. split; [assumption|].
  apply (expand_braces_elements_bounded l1 l2 H1 H2 (S (depth_bound c)));
    [lia | assumption].
Qed.

(** X17: the order in which the sets of [expand_braces] are listed
    decides at most the order of the selection: when the include stage
    gives a selection under one listing, it gives one under any other,
    with the same columns, each once. *)
Theorem selection_set_determined :
  forall listing1 listing2 fnmatch branches columns all_vars,
    set_listing listing1 -> set_listing listing2 ->
    truthy columns = true ->
    resolve_columns listing1 fnmatch branches columns = Ok all_vars ->
    exists all_vars',
      resolve_columns listing2 fnmatch branches columns = Ok all_vars' /\
      Permutation all_vars all_vars'.
Proof.
  intros l1 l2 fnmatch branches columns all_vars H1 H2 T R.
  unfold resolve_columns in R |- *. rewrite T in R |- *. cbn [negb] in R |- *.
  set (cols := if mem (lit "index") branches
               then as_list columns ++ [lit "index"] else as_list columns) in *.
  rewrite get_matching_variables_spec in R |- *.
  destruct (first_unmatched fnmatch branches (flat_map (expand_braces l1) cols))
    eqn:U1; [discriminate|].
  injection R as <-.
  assert (U2 : first_unmatched fnmatch branches
                               (flat_map (expand_braces l2) cols) = None).
  { rewrite first_unmatched_None in U1 |- *. intros p Hp. apply U1.
    now apply (expanded_patterns_elements l2 l1). }
  rewrite U2. eexists. split; [reflexivity|].
  apply NoDup_Permutation; try apply keep_first_NoDup.
  intro b. rewrite !select_spec_In. split; intros [Hb [p [Hp Hm]]];
    (split; [assumption|]); exists p; (split; [|assumption]).
  - now apply (expanded_patterns_elements l1 l2).
  - now apply (expanded_patterns_elements l2 l1).
Qed.

Lemma selection_set_determined_witness :
  exists all_vars',
    resolve_columns (fun l => rev (nodup str_dec l)) glob_fnmatch
                    [lit "A"; lit "B"] (Patterns [lit "{B,A}"]) = Ok all_vars' /\
    Permutation [lit "B"; lit "A"] all_vars'.
Proof.
  exact (selection_set_determined set_order (fun l => rev (nodup str_dec l))
           glob_fnmatch [lit "A"; lit "B"] (Patterns [lit "{B,A}"])
           [lit "B"; lit "A"] set_listing_set_order rev_nodup_listing
           eq_refl eq_refl).
Defined.

(** ** A tree key given *)

(** X18: with a [tree_key] given, and not empty, the trees of the file
    are not counted: whatever their number the load does not raise the
    AmbiguousTreeError, and the tree read is the one of the key. *)
Theorem tree_key_given :
  forall list_of_set fnmatch eval_where file path tree_key columns ignore
         chunksize where_,
    tree_key <> [] ->
    resolve_tree_key file path (Some tree_key) = Ok tree_key /\
    read_root list_of_set fnmatch eval_where file path (Some tree_key) columns
              ignore chunksize where_ <> Err (AmbiguousTreeError path).
Proof.
  intros los fnmatch eval_where file path tree_key columns ignore chunksize
         where_ N.
  assert (K : resolve_tree_key file path (Some tree_key) = Ok tree_key).
  { unfold resolve_tree_key. cbn [truthy_key].
    apply str_eqb_neq in N. now rewrite N. }
  split; [exact K|]. intro R.
  apply read_root_error, read_selection_error in R.
  destruct R as [[_ R]|[R|[[_ [p R]]|[R|R]]]].
  - rewrite K in R. discriminate.
  - discriminate R.
  - now apply ambiguous_not_pattern in R.
  - symmetry in R. now apply reserved_not_ambiguous in R.
  - symmetry in R. now apply remove_not_ambiguous in R.
Qed.

Lemma tree_key_given_witness :
  resolve_tree_key (example_file [lit "events"; lit "runs"] [lit "a"] 2)
                   (lit "f.root") (Some (lit "runs")) = Ok (lit "runs").
Proof.
  refine (proj1 (tree_key_given set_order glob_fnmatch any_entry
                   (example_file [lit "events"; lit "runs"] [lit "a"] 2)
                   (lit "f.root") (lit "runs") NoPatterns NoPatterns None None _)).
  discriminate.
Defined.
